(** * Bowerbirder: job orchestration, image normalisation and expiry

    A shallow embedding of [app/main.py], [app/worker.py], [app/config.py]
    and [app/settings.py].  The Python code talks to three outside parties:
    a Redis server (job records with a time to live, and the list
    [job_queue]), the file system (a scratch directory per job, and the
    output directory of artifacts) and the fal.ai client together with
    Pillow.  They are kept in one [World] record that the code threads
    through a state-and-exception monad; Python exceptions are the [Raise]
    outcome of a computation. *)

From Stdlib Require Import ZArith Uint63 Floats.PrimFloat Floats.FloatOps Floats.SpecFloat.
From stdpp Require Import gmap strings list fin_maps pretty.

Local Open Scope string_scope.
Local Open Scope Z_scope.

(** ** app/config.py *)

Record StylePreset := { preset_name : string; preset_prompt : string }.

Definition STYLE_PRESETS : list (string * StylePreset) :=
  [ ("fridge", {| preset_name := "On the Fridge";
       preset_prompt := "Tightly clustered photos pinned with colorful fruit-shaped magnets on a teal refrigerator door, photos overlapping each other significantly, filling most of the frame with minimal background visible, cozy family photo collage" |});
    ("scrapbook", {| preset_name := "Old Scrapbook";
       preset_prompt := "Arrange these photos on a vintage scrapbook page with aged cream paper texture, simple washi tape to hold photos in place, minimal subtle decorations only, photos are the focus not the background, no flowers no stickers no nametags no keys, clean understated nostalgic feel" |});
    ("clean", {| preset_name := "Clean";
       preset_prompt := "Arrange these photos in a clean, modern gallery layout on a pure white background with subtle drop shadows, balanced spacing" |}) ].

Definition ASPECT_RATIOS : list string := ["16:9"; "1:1"; "9:16"].

Definition OPTIMIZE_MAX_SIZE : Z := 768.
Definition OPTIMIZE_QUALITY : Z := 85.
Definition MIN_IMAGES : nat := 2.
Definition MAX_IMAGES : nat := 6.

(** [STYLE_PRESETS.get(key)] and [key in STYLE_PRESETS]. *)
Fixpoint presets_get (key : string) (tbl : list (string * StylePreset))
  : option StylePreset :=
  match tbl with
  | [] => None
  | (k, p) :: tbl' => if String.eqb k key then Some p else presets_get key tbl'
  end.

Definition str_in (s : string) (l : list string) : bool :=
  existsb (String.eqb s) l.

(** ** app/settings.py: the values read from the process environment *)

Record Settings := {
  output_dir : string;
  job_images_dir : string;
  image_expiry_minutes : Z;
  api_base_url : string
}.

Definition default_settings : Settings :=
  {| output_dir := "/app/output"; job_images_dir := "/app/job_images";
     image_expiry_minutes := 30; api_base_url := "http://api:8000" |}.

(** ** Exceptions and outcomes *)

(** The exception classes the code tells apart: [redis.ConnectionError]
    (caught first in [main]), FastAPI's [HTTPException], and every other
    subclass of [Exception], kept with its [str(e)]. *)
Inductive exn :=
| ConnectionError (msg : string)
| HTTPException (status_code : Z) (detail : string)
| Exception (msg : string).

(** [str(e)] *)
Definition exn_str (e : exn) : string :=
  match e with
  | ConnectionError m => m
  | HTTPException _ d => d
  | Exception m => m
  end.

Inductive res (A : Type) :=
| Ok (a : A)
| Raise (e : exn).
Arguments Ok {A} a.
Arguments Raise {A} e.

(** ** The job record (the JSON object stored under [job:<id>]) *)

(** A scratch path is kept as the pair that [os.path.join] glues together:
    the job's directory and the file name inside it. *)
Definition path : Type := string * string.

Record Job := {
  job_id : string;
  status : string;
  image_paths : list path;
  image_dir : string;
  style : string;
  aspect_ratio : string;
  created_at : Z;
  status_detail : option string;
  image_url : option string;
  expires_at : option string;
  error : option string
}.

Definition job_set_status (s : string) (j : Job) : Job :=
  {| job_id := job_id j; status := s; image_paths := image_paths j;
     image_dir := image_dir j; style := style j; aspect_ratio := aspect_ratio j;
     created_at := created_at j; status_detail := status_detail j;
     image_url := image_url j; expires_at := expires_at j; error := error j |}.

(** One keyword argument of [update_job_status]; [None] is Python's [None]. *)
Definition kwarg : Type := string * option string.

Definition job_set_key (kw : kwarg) (j : Job) : Job :=
  let '(k, v) := kw in
  {| job_id := job_id j; status := status j; image_paths := image_paths j;
     image_dir := image_dir j; style := style j; aspect_ratio := aspect_ratio j;
     created_at := created_at j;
     status_detail := if String.eqb k "status_detail" then v else status_detail j;
     image_url := if String.eqb k "image_url" then v else image_url j;
     expires_at := if String.eqb k "expires_at" then v else expires_at j;
     error := if String.eqb k "error" then v else error j |}.

(** [job.update(extra)] *)
Definition job_update (extra : list kwarg) (j : Job) : Job :=
  fold_left (fun j kw => job_set_key kw j) extra j.

(** ** The world outside the Python process *)

(** What the Redis server does with the next command: serve it, refuse the
    connection, or serve it after the addressed key has just been removed by
    somebody else (its time to live ran out, or the reaper thread of the
    worker deleted it). *)
Inductive store_event := Up | Down | Gone.

(** The arguments of one [fal_client.subscribe] call. *)
Record FalArgs := {
  fal_prompt : string;
  fal_image_urls : list string;
  fal_aspect_ratio : string
}.

(** An artifact in the output directory: its bytes and its [st_mtime]. *)
Record OutFile := { out_bytes : string; out_mtime : Z }.

Record World := mkWorld {
  (** Redis: key -> (record, remaining seconds to live; [None] = no expiry) *)
  kv : gmap string (Job * option Z);
  (** Redis list [job_queue]; the head of the list is its left end *)
  job_queue : list string;
  (** scratch root: directory -> file name -> contents *)
  scratch : gmap string (gmap string string);
  (** output directory, in the order a directory listing yields it *)
  output : list (string * OutFile);
  (** wall clock, seconds *)
  clock : Z;
  (** [_shutdown_event] *)
  shutdown : bool;
  (** what Redis does with the coming commands (all [Up] once used up) *)
  store_tape : list store_event;
  (** whether the coming file operations fail with an [OSError] *)
  fs_tape : list bool;
  (** whether a termination signal arrived before the coming reads of
      [_shutdown_event] *)
  signal_tape : list bool;
  (** history: every (key, status) written to a job record, oldest first *)
  status_log : list (string * string);
  (** history: every (bytes, url) of a finished [fal_client.upload] *)
  uploads : list (string * string);
  (** history: the arguments of every [fal_client.subscribe] call *)
  fal_calls : list FalArgs
}.

Definition set_kv f (w : World) : World :=
  mkWorld (f (kv w)) (job_queue w) (scratch w) (output w) (clock w) (shutdown w)
    (store_tape w) (fs_tape w) (signal_tape w) (status_log w) (uploads w) (fal_calls w).
Definition set_job_queue f (w : World) : World :=
  mkWorld (kv w) (f (job_queue w)) (scratch w) (output w) (clock w) (shutdown w)
    (store_tape w) (fs_tape w) (signal_tape w) (status_log w) (uploads w) (fal_calls w).
Definition set_scratch f (w : World) : World :=
  mkWorld (kv w) (job_queue w) (f (scratch w)) (output w) (clock w) (shutdown w)
    (store_tape w) (fs_tape w) (signal_tape w) (status_log w) (uploads w) (fal_calls w).
Definition set_output f (w : World) : World :=
  mkWorld (kv w) (job_queue w) (scratch w) (f (output w)) (clock w) (shutdown w)
    (store_tape w) (fs_tape w) (signal_tape w) (status_log w) (uploads w) (fal_calls w).
Definition set_clock f (w : World) : World :=
  mkWorld (kv w) (job_queue w) (scratch w) (output w) (f (clock w)) (shutdown w)
    (store_tape w) (fs_tape w) (signal_tape w) (status_log w) (uploads w) (fal_calls w).
Definition set_shutdown f (w : World) : World :=
  mkWorld (kv w) (job_queue w) (scratch w) (output w) (clock w) (f (shutdown w))
    (store_tape w) (fs_tape w) (signal_tape w) (status_log w) (uploads w) (fal_calls w).
Definition set_store_tape f (w : World) : World :=
  mkWorld (kv w) (job_queue w) (scratch w) (output w) (clock w) (shutdown w)
    (f (store_tape w)) (fs_tape w) (signal_tape w) (status_log w) (uploads w) (fal_calls w).
Definition set_fs_tape f (w : World) : World :=
  mkWorld (kv w) (job_queue w) (scratch w) (output w) (clock w) (shutdown w)
    (store_tape w) (f (fs_tape w)) (signal_tape w) (status_log w) (uploads w) (fal_calls w).
Definition set_signal_tape f (w : World) : World :=
  mkWorld (kv w) (job_queue w) (scratch w) (output w) (clock w) (shutdown w)
    (store_tape w) (fs_tape w) (f (signal_tape w)) (status_log w) (uploads w) (fal_calls w).
Definition set_status_log f (w : World) : World :=
  mkWorld (kv w) (job_queue w) (scratch w) (output w) (clock w) (shutdown w)
    (store_tape w) (fs_tape w) (signal_tape w) (f (status_log w)) (uploads w) (fal_calls w).
Definition set_uploads f (w : World) : World :=
  mkWorld (kv w) (job_queue w) (scratch w) (output w) (clock w) (shutdown w)
    (store_tape w) (fs_tape w) (signal_tape w) (status_log w) (f (uploads w)) (fal_calls w).
Definition set_fal_calls f (w : World) : World :=
  mkWorld (kv w) (job_queue w) (scratch w) (output w) (clock w) (shutdown w)
    (store_tape w) (fs_tape w) (signal_tape w) (status_log w) (uploads w) (f (fal_calls w)).

Definition empty_world : World :=
  mkWorld ∅ [] ∅ [] 0 false [] [] [] [] [] [].

(** ** The state-and-exception monad *)

Definition M (A : Type) : Type := World -> res A * World.

Definition ret {A} (a : A) : M A := fun w => (Ok a, w).
Definition raise {A} (e : exn) : M A := fun w => (Raise e, w).
Definition bind {A B} (m : M A) (k : A -> M B) : M B :=
  fun w => match m w with
           | (Ok a, w') => k a w'
           | (Raise e, w') => (Raise e, w')
           end.

Notation "'do' x <- m ; k" := (bind m (fun x => k))
  (at level 10, x name, m at level 100, k at level 200).
Notation "m ;; k" := (bind m (fun _ => k))
  (at level 100, k at level 200, right associativity).

(** [try: body except Exception as e: handler e] *)
Definition try_except {A} (body : M A) (handler : exn -> M A) : M A :=
  fun w => match body w with
           | (Ok a, w') => (Ok a, w')
           | (Raise e, w') => handler e w'
           end.

(** [try: body finally: final]; an exception of [final] replaces the
    outcome of [body], as in Python. *)
Definition try_finally {A} (body : M A) (final : M unit) : M A :=
  fun w => match body w with
           | (r, w') => match final w' with
                        | (Ok _, w'') => (r, w'')
                        | (Raise e, w'') => (Raise e, w'')
                        end
           end.

Definition get_world : M World := fun w => (Ok w, w).
Definition modify (f : World -> World) : M unit := fun w => (Ok tt, f w).

(** [for x in xs: body x] *)
Fixpoint for_each {A} (xs : list A) (body : A -> M unit) : M unit :=
  match xs with
  | [] => ret tt
  | x :: xs' => body x ;; for_each xs' body
  end.

(** [enumerate(xs)], counting from [i] *)
Fixpoint enumerate_from {A} (i : nat) (xs : list A) : list (nat * A) :=
  match xs with
  | [] => []
  | x :: xs' => (i, x) :: enumerate_from (S i) xs'
  end.
Definition enumerate {A} (xs : list A) : list (nat * A) := enumerate_from 0 xs.

(** The world a computation leaves, and its outcome. *)
Definition exec {A} (m : M A) (w : World) : World := snd (m w).
Definition outcome {A} (m : M A) (w : World) : res A := fst (m w).

(** ** Redis commands *)

Definition next_store_event : M store_event :=
  fun w => match store_tape w with
           | [] => (Ok Up, w)
           | ev :: tape => (Ok ev, set_store_tape (fun _ => tape) w)
           end.

(** A command on one key. *)
Definition redis_key_cmd {A} (key : string) (run : M A) : M A :=
  do ev <- next_store_event;
  match ev with
  | Down => raise (ConnectionError "Error connecting to Redis")
  | Gone => modify (set_kv (delete key)) ;; run
  | Up => run
  end.

(** A command on the list [job_queue]. *)
Definition redis_list_cmd {A} (run : M A) : M A :=
  do ev <- next_store_event;
  match ev with
  | Down => raise (ConnectionError "Error connecting to Redis")
  | _ => run
  end.

(** [redis_client.get(key)] followed by [json.loads] *)
Definition redis_get (key : string) : M (option Job) :=
  redis_key_cmd key (fun w => (Ok (fst <$> kv w !! key), w)).

(** [redis_client.set(key, json.dumps(job))]: SET without KEEPTTL or EX
    discards the time to live the key had. *)
Definition redis_set (key : string) (job : Job) : M unit :=
  redis_key_cmd key
    (modify (fun w => set_status_log (fun l => (l ++ [(key, status job)])%list)
                        (set_kv <[key := (job, None)]> w))).

(** [redis_client.setex(key, ttl, json.dumps(job))] *)
Definition redis_setex (key : string) (ttl : Z) (job : Job) : M unit :=
  redis_key_cmd key
    (modify (fun w => set_status_log (fun l => (l ++ [(key, status job)])%list)
                        (set_kv <[key := (job, Some ttl)]> w))).

(** [redis_client.delete(key)] *)
Definition redis_delete (key : string) : M unit :=
  redis_key_cmd key (modify (set_kv (delete key))).

(** [redis_client.llen("job_queue")] *)
Definition redis_llen : M nat :=
  redis_list_cmd (fun w => (Ok (length (job_queue w)), w)).

(** [redis_client.lpush("job_queue", x)]: push at the left end *)
Definition redis_lpush (x : string) : M unit :=
  redis_list_cmd (modify (set_job_queue (cons x))).

(** [redis_client.brpop("job_queue", timeout=5)]: pop at the right end;
    [None] when the list stayed empty for the whole timeout. *)
Definition redis_brpop : M (option string) :=
  redis_list_cmd
    (fun w => match last (job_queue w) with
              | None => (Ok None, w)
              | Some x => (Ok (Some x), set_job_queue (@removelast string) w)
              end).

(** [d] seconds pass: the clock advances and Redis drops every key whose
    time to live has run out. *)
Definition expire_entry (d : Z) (e : Job * option Z) : option (Job * option Z) :=
  match e with
  | (j, None) => Some (j, None)
  | (j, Some t) => if Z.leb t d then None else Some (j, Some (t - d))
  end.

Definition tick (d : Z) (w : World) : World :=
  set_clock (fun c => c + d) (set_kv (omap (expire_entry d)) w).

(** ** File operations *)

Definition next_fs_fault : M bool :=
  fun w => match fs_tape w with
           | [] => (Ok false, w)
           | b :: tape => (Ok b, set_fs_tape (fun _ => tape) w)
           end.

Definition fs_cmd {A} (run : M A) : M A :=
  do fault <- next_fs_fault;
  if (fault : bool) then raise (Exception "OSError") else run.

(** [os.makedirs(dir, exist_ok=True)] *)
Definition makedirs (dir : string) : M unit :=
  fs_cmd (modify (set_scratch (fun s =>
    match s !! dir with Some _ => s | None => <[dir := ∅]> s end))).

(** [with open(path, "w") as f: f.write(data)] *)
Definition write_file (p : path) (data : string) : M unit :=
  fs_cmd (fun w => match scratch w !! p.1 with
                   | None => (Raise (Exception "FileNotFoundError"), w)
                   | Some files =>
                       (Ok tt, set_scratch <[p.1 := <[p.2 := data]> files]> w)
                   end).

(** [with open(path, "r") as f: f.read()] *)
Definition read_file (p : path) : M string :=
  fs_cmd (fun w => match scratch w !! p.1 with
                   | None => (Raise (Exception "FileNotFoundError"), w)
                   | Some files =>
                       match files !! p.2 with
                       | None => (Raise (Exception "FileNotFoundError"), w)
                       | Some data => (Ok data, w)
                       end
                   end).

(** [shutil.rmtree(dir, ignore_errors=True)]: never raises; the directory,
    which this service created, is taken to be removable. *)
Definition rmtree (dir : string) : M unit :=
  modify (set_scratch (delete dir)).

(** Replace or add one directory entry, keeping the listing order. *)
Fixpoint output_put (name : string) (f : OutFile) (l : list (string * OutFile))
  : list (string * OutFile) :=
  match l with
  | [] => [(name, f)]
  | (n, g) :: l' => if String.eqb n name then (n, f) :: l'
                    else (n, g) :: output_put name f l'
  end.

Fixpoint output_get (name : string) (l : list (string * OutFile)) : option OutFile :=
  match l with
  | [] => None
  | (n, g) :: l' => if String.eqb n name then Some g else output_get name l'
  end.

Definition output_remove (name : string) (l : list (string * OutFile))
  : list (string * OutFile) :=
  List.filter (fun e => negb (String.eqb (fst e) name)) l.

(** [with open(output_path, "wb") as f: f.write(data)] *)
Definition write_output (name : string) (data : string) : M unit :=
  fs_cmd (modify (fun w =>
    set_output (output_put name {| out_bytes := data; out_mtime := clock w |}) w)).

(** [image_file.stat().st_mtime] *)
Definition stat_mtime (name : string) : M Z :=
  fs_cmd (fun w => match output_get name (output w) with
                   | None => (Raise (Exception "FileNotFoundError"), w)
                   | Some f => (Ok (out_mtime f), w)
                   end).

(** [image_file.unlink()] *)
Definition unlink (name : string) : M unit :=
  fs_cmd (fun w => match output_get name (output w) with
                   | None => (Raise (Exception "FileNotFoundError"), w)
                   | Some _ => (Ok tt, set_output (output_remove name) w)
                   end).

(** ** The shutdown flag *)

(** [_shutdown_event.is_set()].  A signal handler runs between two
    bytecodes of the main thread, so a signal is observed at the next read
    of the flag: the read first lets a pending signal set it. *)
Definition shutdown_is_set : M bool :=
  fun w => match signal_tape w with
           | [] => (Ok (shutdown w), w)
           | sig :: tape =>
               let w' := set_signal_tape (fun _ => tape)
                           (set_shutdown (fun b => b || sig) w) in
               (Ok (shutdown w'), w')
           end.

(** ** Pillow images *)

(** One pixel of an image, by mode: [L] grey, [LA] grey with alpha, [RGB],
    [RGBA], and [P] an index into the palette. *)
Inductive pixel :=
| PxL (l : Z)
| PxLA (l a : Z)
| PxRGB (r g b : Z)
| PxRGBA (r g b a : Z)
| PxP (idx : nat).

Record Image := {
  mode : string;
  size : Z * Z;
  pixels : list pixel;
  (** palette of a [P] image, with the transparency of each entry *)
  palette : list (Z * Z * Z * Z)
}.

(** [Image.new('RGB', size, color)] *)
Definition Image_new_RGB (sz : Z * Z) (color : Z * Z * Z) : Image :=
  let '(r, g, b) := color in
  {| mode := "RGB"; size := sz;
     pixels := repeat (PxRGB r g b) (Z.to_nat (sz.1 * sz.2)); palette := [] |}.

Definition pixel_to_RGBA (pal : list (Z * Z * Z * Z)) (p : pixel) : pixel :=
  match p with
  | PxL l => PxRGBA l l l 255
  | PxLA l a => PxRGBA l l l a
  | PxRGB r g b => PxRGBA r g b 255
  | PxRGBA r g b a => PxRGBA r g b a
  | PxP i => let '(r, g, b, a) := nth i pal (0, 0, 0, 255) in PxRGBA r g b a
  end.

(** [img.convert('RGBA')] *)
Definition convert_RGBA (img : Image) : Image :=
  {| mode := "RGBA"; size := size img;
     pixels := map (pixel_to_RGBA (palette img)) (pixels img); palette := [] |}.

Definition pixel_to_RGB (pal : list (Z * Z * Z * Z)) (p : pixel) : pixel :=
  match pixel_to_RGBA pal p with
  | PxRGBA r g b _ => PxRGB r g b
  | q => q
  end.

(** [img.convert('RGB')]: the alpha band, if any, is dropped. *)
Definition convert_RGB (img : Image) : Image :=
  {| mode := "RGB"; size := size img;
     pixels := map (pixel_to_RGB (palette img)) (pixels img); palette := [] |}.

(** One value of the last band: [img.split()[-1]] pixel by pixel. *)
Definition last_band (p : pixel) : Z :=
  match p with
  | PxL l => l
  | PxLA _ a => a
  | PxRGB _ _ b => b
  | PxRGBA _ _ _ a => a
  | PxP i => Z.of_nat i
  end.

(** Pillow's integer blend, [DIV255(in1 * (255 - mask) + in2 * mask)] with
    [DIV255(a) = ((a + 128) ;; 8 + (a + 128)) ;; 8]. *)
Definition DIV255 (a : Z) : Z :=
  let tmp := a + 128 in Z.shiftr (Z.shiftr tmp 8 + tmp) 8.
Definition BLEND (mask in1 in2 : Z) : Z :=
  DIV255 (in1 * (255 - mask) + in2 * mask).

(** [background.paste(img, mask=m)] on one pixel of an RGB background.
    Without a mask the pixel of the pasted image replaces the background
    pixel; Pillow pastes [LA] and [RGBA] images into an RGB image without
    converting them, so their colour bands are copied and their alpha band
    is ignored. *)
Definition paste_pixel (bg src : pixel) (m : option Z) : pixel :=
  match pixel_to_RGB [] bg, pixel_to_RGB [] src with
  | PxRGB r0 g0 b0, PxRGB r g b =>
      match m with
      | None => PxRGB r g b
      | Some a => PxRGB (BLEND a r0 r) (BLEND a g0 g) (BLEND a b0 b)
      end
  | q, _ => q
  end.

Fixpoint paste_pixels (bg src : list pixel) (mask : option (list Z)) : list pixel :=
  match bg, src with
  | b :: bg', s :: src' =>
      match mask with
      | None => paste_pixel b s None :: paste_pixels bg' src' None
      | Some [] => b :: paste_pixels bg' src' (Some [])
      | Some (a :: mask') => paste_pixel b s (Some a) :: paste_pixels bg' src' (Some mask')
      end
  | _, _ => bg
  end.

(** [background.paste(img, mask=mask)] *)
Definition paste (background img : Image) (mask : option (list Z)) : Image :=
  {| mode := mode background; size := size background;
     pixels := paste_pixels (pixels background) (pixels img) mask;
     palette := palette background |}.

(** The mode conversion of [optimize_image] (worker.py, lines 74-84). *)
Definition flatten (img : Image) : Image :=
  if str_in (mode img) ["RGBA"; "P"; "LA"; "L"] then
    if str_in (mode img) ["RGBA"; "LA"; "P"] then
      let background := Image_new_RGB (size img) (255, 255, 255) in
      let img := if String.eqb (mode img) "P" then convert_RGBA img else img in
      let mask := if String.eqb (mode img) "RGBA"
                  then Some (map last_band (pixels img)) else None in
      paste background img mask
    else convert_RGB img
  else img.

(** ** Python floats and the resize step *)

(** [float(n)] for an integer below 2^53. *)
Definition float_of_Z (n : Z) : float := PrimFloat.of_uint63 (Uint63.of_Z n).

(** [int(x)]: truncation toward zero. *)
Definition int_of_float (x : float) : Z :=
  match Prim2SF x with
  | S754_finite s m e =>
      let v := if Z.leb 0 e then Z.pos m * 2 ^ e else Z.pos m / 2 ^ (- e) in
      if s then - v else v
  | _ => 0
  end.

(** [new_size] of worker.py lines 87-90, [None] when [ratio >= 1]. *)
Definition resize_target (sz : Z * Z) : option (Z * Z) :=
  let max_size := OPTIMIZE_MAX_SIZE in
  let ratio := PrimFloat.div (float_of_Z max_size) (float_of_Z (Z.max sz.1 sz.2)) in
  if PrimFloat.ltb ratio (float_of_Z 1) then
    Some (int_of_float (PrimFloat.mul (float_of_Z sz.1) ratio),
          int_of_float (PrimFloat.mul (float_of_Z sz.2) ratio))
  else None.

(** What lies outside the Python sources: codecs, the resampling filter,
    the fal.ai service and the network. *)
Record Env := {
  env_b64decode : string -> res string;
  env_image_open : string -> res Image;
  env_exif_transpose : Image -> Image;
  env_lanczos : Image -> Z * Z -> list pixel;
  env_save_jpeg : Image -> Z -> res string;
  (** [fal_client.upload]: the number of uploads so far, and the bytes *)
  env_upload : nat -> string -> res string;
  (** [fal_client.subscribe]: the urls of [result["images"]] *)
  env_subscribe : FalArgs -> res (list string);
  env_http_get : string -> res string;
  env_isoformat : Z -> string
}.

(** [img.resize(new_size, Image.LANCZOS)]: Pillow refuses an empty target,
    "height and width must be > 0". *)
Definition Image_resize (env : Env) (img : Image) (new_size : Z * Z) : res Image :=
  if (new_size.1 <? 1) || (new_size.2 <? 1)
  then Raise (Exception "height and width must be > 0")
  else Ok {| mode := mode img; size := new_size;
             pixels := env_lanczos env img new_size; palette := palette img |}.

(** Lines 86-91 of worker.py. *)
Definition resize_step (env : Env) (img : Image) : res Image :=
  if Z.max (size img).1 (size img).2 =? 0
  then Raise (Exception "division by zero")
  else match resize_target (size img) with
       | Some new_size => Image_resize env img new_size
       | None => Ok img
       end.

Definition res_bind {A B} (r : res A) (k : A -> res B) : res B :=
  match r with Ok a => k a | Raise e => Raise e end.

Definition optimize_image (env : Env) (image_data : string) : res string :=
  res_bind (env_image_open env image_data) (fun img =>
  let img := env_exif_transpose env img in
  let img := flatten img in
  res_bind (resize_step env img) (fun img =>
  env_save_jpeg env img OPTIMIZE_QUALITY)).

(** ** app/main.py *)

Record JobRequest := {
  images : list string;
  req_style : string;
  req_aspect_ratio : string
}.

Definition MAX_QUEUED_JOBS : nat := 10.
Definition MAX_IMAGE_SIZE_MB : Z := 20.
Definition MAX_TOTAL_SIZE_MB : Z := 100.
Definition MAX_IMAGE_SIZE : Z := MAX_IMAGE_SIZE_MB * 1024 * 1024.
Definition MAX_TOTAL_SIZE : Z := MAX_TOTAL_SIZE_MB * 1024 * 1024.

(** [len(img)] *)
Definition len (s : string) : Z := Z.of_nat (String.length s).

(** [f"{i:03d}"]: decimal, padded with zeros to three digits. *)
Definition fmt_03d (i : nat) : string :=
  let s := pretty i in
  match String.length s with
  | 1%nat => "00" ++ s
  | 2%nat => "0" ++ s
  | _ => s
  end.

(** [f"img_{i:03d}.dat"] *)
Definition img_name (i : nat) : string := "img_" ++ fmt_03d i ++ ".dat".

(** The size loop of [create_job] (lines 147-154): the total size, or the
    413 of the first image above the cap. *)
Fixpoint check_sizes (imgs : list (nat * string)) (total_size : Z) : M Z :=
  match imgs with
  | [] => ret total_size
  | (i, img) :: imgs' =>
      let img_size := len img in
      if MAX_IMAGE_SIZE <? img_size
      then raise (HTTPException 413
             ("Image " ++ pretty (S i) ++ " too large ("
              ++ pretty (img_size / 1024 / 1024) ++ "MB). Max: "
              ++ pretty MAX_IMAGE_SIZE_MB ++ "MB"))
      else check_sizes imgs' (total_size + img_size)
  end.

(** The write loop of [create_job] (lines 182-186). *)
Fixpoint write_images (image_dir : string) (imgs : list (nat * string))
    (image_paths : list path) : M (list path) :=
  match imgs with
  | [] => ret image_paths
  | (i, img) :: imgs' =>
      let p := (image_dir, img_name i) in
      write_file p img ;;
      write_images image_dir imgs' (image_paths ++ [p])%list
  end.

Section Service.

Variable cfg : Settings.

Definition OUTPUT_DIR : string := output_dir cfg.
Definition IMAGE_EXPIRY_MINUTES : Z := image_expiry_minutes cfg.
Definition API_BASE_URL : string := api_base_url cfg.
Definition JOB_IMAGES_DIR : string := job_images_dir cfg.

(** [create_job(request)]; [uuid] is the value of [uuid.uuid4()].  The
    result is the pair of [JobResponse]. *)
Definition create_job (uuid : string) (request : JobRequest) : M (string * string) :=
  do queue_length <- redis_llen;
  if (MAX_QUEUED_JOBS <=? queue_length)%nat
  then raise (HTTPException 503
         ("Server busy (" ++ pretty queue_length ++ " jobs queued). Try again later."))
  else if (length (images request) <? MIN_IMAGES)%nat
  then raise (HTTPException 400 ("At least " ++ pretty MIN_IMAGES ++ " images required"))
  else if (MAX_IMAGES <? length (images request))%nat
  then raise (HTTPException 400 ("Maximum " ++ pretty MAX_IMAGES ++ " images allowed"))
  else
  do total_size <- check_sizes (enumerate (images request)) 0;
  if MAX_TOTAL_SIZE <? total_size
  then raise (HTTPException 413
         ("Total request too large (" ++ pretty (total_size / 1024 / 1024)
          ++ "MB). Max: " ++ pretty MAX_TOTAL_SIZE_MB ++ "MB"))
  else if negb (str_in (req_style request) (map fst STYLE_PRESETS))
  then raise (HTTPException 400
         "Invalid style. Available: ['fridge', 'scrapbook', 'clean']")
  else if negb (str_in (req_aspect_ratio request) ASPECT_RATIOS)
  then raise (HTTPException 400
         "Invalid aspect ratio. Available: ['16:9', '1:1', '9:16']")
  else
  let job_id := uuid in
  let image_dir := JOB_IMAGES_DIR ++ "/" ++ job_id in
  makedirs image_dir ;;
  do image_paths <-
    try_except (write_images image_dir (enumerate (images request)) [])
      (fun e => rmtree image_dir ;;
                raise (HTTPException 500 ("Failed to save images: " ++ exn_str e)));
  do w <- get_world;
  let job_data :=
    {| job_id := job_id; status := "queued"; image_paths := image_paths;
       image_dir := image_dir; style := req_style request;
       aspect_ratio := req_aspect_ratio request; created_at := clock w;
       status_detail := None; image_url := None; expires_at := None;
       error := None |} in
  let job_ttl_seconds := IMAGE_EXPIRY_MINUTES * 2 * 60 in
  redis_setex ("job:" ++ job_id) job_ttl_seconds job_data ;;
  redis_lpush job_id ;;
  ret (job_id, "queued").

(** The response model of [get_job_status]. *)
Record JobStatus := {
  js_job_id : string;
  js_status : string;
  js_status_detail : option string;
  js_image_url : option string;
  js_expires_at : option string;
  js_error : option string
}.

(** [get_job_status(job_id)]: what a client that polls is told. *)
Definition get_job_status (id : string) : M JobStatus :=
  do job_data <- redis_get ("job:" ++ id);
  match job_data with
  | None => raise (HTTPException 404 "Job not found")
  | Some job =>
      let completed := String.eqb (status job) "completed" in
      let failed := String.eqb (status job) "failed" in
      ret {| js_job_id := job_id job; js_status := status job;
             js_status_detail := status_detail job;
             js_image_url := if completed then image_url job else None;
             js_expires_at := if completed then expires_at job else None;
             js_error := if completed then None
                         else if failed then error job else None |}
  end.

(** ** app/worker.py *)

Definition update_job_status (job_id status : string) (extra : list kwarg) : M unit :=
  do job_data <- redis_get ("job:" ++ job_id);
  match job_data with
  | None => ret tt
  | Some job =>
      redis_set ("job:" ++ job_id) (job_update extra (job_set_status status job))
  end.

(** [data_url.split(',', 1)]: the text before and after the first comma. *)
Fixpoint split_comma (s : string) : option (string * string) :=
  match s with
  | EmptyString => None
  | String c s' =>
      if Ascii.eqb c (Ascii.Ascii false false true true false true false false) then Some (EmptyString, s')
      else match split_comma s' with
           | Some (h, t) => Some (String c h, t)
           | None => None
           end
  end.

Definition decode_base64_image (env : Env) (data_url : string) : res string :=
  if String.prefix "data:" data_url then
    match split_comma data_url with
    | Some (header, base64_data) => env_b64decode env base64_data
    | None => Raise (Exception "not enough values to unpack (expected 2, got 1)")
    end
  else env_b64decode env data_url.

(** A pure outcome inside the monad. *)
Definition lift {A} (r : res A) : M A := fun w => (r, w).

Definition upload_to_fal (env : Env) (image_bytes : string) : M string :=
  do w <- get_world;
  do url <- lift (env_upload env (length (uploads w)) image_bytes);
  modify (set_uploads (fun l => (l ++ [(image_bytes, url)])%list)) ;;
  ret url.

(** [fal_client.subscribe("fal-ai/nano-banana-pro/edit", arguments=...)] *)
Definition fal_subscribe (env : Env) (args : FalArgs) : M (list string) :=
  modify (set_fal_calls (fun l => (l ++ [args])%list)) ;;
  lift (env_subscribe env args).

Definition progress (what : string) (i n : nat) : string :=
  what ++ " image " ++ pretty (S i) ++ "/" ++ pretty n ++ "...".

(** The first loop of [process_job] (lines 135-147). *)
Fixpoint optimize_loop (env : Env) (job_id : string) (n : nat)
    (paths : list (nat * path)) (optimized_images : list string) : M (list string) :=
  match paths with
  | [] => ret optimized_images
  | (i, p) :: paths' =>
      update_job_status job_id "processing"
        [("status_detail", Some (progress "Optimizing" i n))] ;;
      do data_url <- read_file p;
      do raw_bytes <- lift (decode_base64_image env data_url);
      do optimized_bytes <- lift (optimize_image env raw_bytes);
      optimize_loop env job_id n paths' (optimized_images ++ [optimized_bytes])%list
  end.

(** The second loop of [process_job] (lines 153-158). *)
Fixpoint upload_loop (env : Env) (job_id : string) (n : nat)
    (imgs : list (nat * string)) (image_urls : list string) : M (list string) :=
  match imgs with
  | [] => ret image_urls
  | (i, img_bytes) :: imgs' =>
      update_job_status job_id "processing"
        [("status_detail", Some (progress "Uploading" i n))] ;;
      do url <- upload_to_fal env img_bytes;
      upload_loop env job_id n imgs' (image_urls ++ [url])%list
  end.

Definition fridge_preset : StylePreset :=
  default {| preset_name := ""; preset_prompt := "" |}
          (presets_get "fridge" STYLE_PRESETS).

(** The body of the [try] block of [process_job] (lines 131-217). *)
Definition pipeline (env : Env) (job_id : string) (job : Job) : M unit :=
  let image_paths := image_paths job in
  do optimized_images <-
    optimize_loop env job_id (length image_paths) (enumerate image_paths) [];
  update_job_status job_id "processing"
    [("status_detail", Some "Uploading images...")] ;;
  do image_urls <-
    upload_loop env job_id (length optimized_images) (enumerate optimized_images) [];
  let style_key := style job in
  let style := default fridge_preset (presets_get style_key STYLE_PRESETS) in
  let prompt := preset_prompt style in
  update_job_status job_id "processing"
    [("status_detail", Some "Generating collage...")] ;;
  do result_images <-
    fal_subscribe env {| fal_prompt := prompt; fal_image_urls := image_urls;
                         fal_aspect_ratio := aspect_ratio job |};
  match result_images with
  | [] => raise (Exception "No images returned from fal.ai")
  | result_url :: _ =>
      update_job_status job_id "processing"
        [("status_detail", Some "Downloading result...")] ;;
      do result_bytes <- lift (env_http_get env result_url);
      write_output (job_id ++ ".png") result_bytes ;;
      do w <- get_world;
      let expires_at_iso := env_isoformat env (clock w + IMAGE_EXPIRY_MINUTES * 60) in
      let image_url := API_BASE_URL ++ "/output/" ++ job_id ++ ".png" in
      update_job_status job_id "completed"
        [("image_url", Some image_url); ("expires_at", Some expires_at_iso);
         ("status_detail", None)]
  end.

Definition process_job (env : Env) (job_id : string) : M unit :=
  do job_data <- redis_get ("job:" ++ job_id);
  match job_data with
  | None => ret tt
  | Some job =>
      update_job_status job_id "processing"
        [("status_detail", Some "Optimizing images...")] ;;
      let image_dir := image_dir job in
      try_finally
        (try_except (pipeline env job_id job)
           (fun e =>
              let error_msg := exn_str e in
              update_job_status job_id "failed"
                [("error", Some error_msg); ("status_detail", None)]))
        (if String.eqb image_dir "" then ret tt else rmtree image_dir)
  end.

(** [name] matches [*.png]; [Path(name).stem]. *)
Definition is_png (name : string) : bool :=
  let n := String.length name in
  (4 <=? n)%nat && String.eqb (String.substring (n - 4)%nat 4 name) ".png".
Definition stem (name : string) : string :=
  String.substring 0 (String.length name - 4)%nat name.

(** [output_path.glob("*.png")] *)
Definition glob_png (w : World) : list string :=
  List.filter is_png (map fst (output w)).

(** What [cleanup_expired_images] does with one artifact (lines 242-248). *)
Definition reap_file (now expiry_seconds : Z) (image_file : string) : M unit :=
  do mtime <- stat_mtime image_file;
  let file_age := now - mtime in
  if expiry_seconds <? file_age then
    let job_id := stem image_file in
    unlink image_file ;;
    redis_delete ("job:" ++ job_id)
  else ret tt.

(** [cleanup_expired_images()].  The output directory exists ([main]
    creates it before the thread starts); the count of deleted files only
    feeds a log line. *)
Definition cleanup_expired_images : M unit :=
  try_except
    (do w <- get_world;
     let now := clock w in
     let expiry_seconds := IMAGE_EXPIRY_MINUTES * 60 in
     for_each (glob_png w) (reap_file now expiry_seconds))
    (fun e => ret tt).

(** One turn of the loop of [cleanup_worker], after its wait. *)
Definition cleanup_worker_iteration : M unit :=
  do sd <- shutdown_is_set;
  if (sd : bool) then ret tt else cleanup_expired_images.

(** [time.sleep(d)] *)
Definition sleep (d : Z) : M unit := modify (tick d).

(** The body of the [while] loop of [main] (lines 282-299). *)
Definition main_iteration (env : Env) : M unit :=
  try_except
    (do result <- redis_brpop;
     match result with
     | None => ret tt
     | Some job_id =>
         do sd <- shutdown_is_set;
         if (sd : bool) then ret tt else process_job env job_id
     end)
    (fun e =>
       do sd <- shutdown_is_set;
       if (sd : bool) then ret tt
       else match e with
            | ConnectionError _ => sleep 5
            | _ => sleep 1
            end).

(** [while not _shutdown_event.is_set(): ...], at most [fuel] turns. *)
Fixpoint main_loop (fuel : nat) (env : Env) : M unit :=
  match fuel with
  | O => ret tt
  | S fuel' =>
      do sd <- shutdown_is_set;
      if (sd : bool) then ret tt
      else main_iteration env ;; main_loop fuel' env
  end.

End Service.

(** ** The admission queue *)






(** ** Sample inputs *)

(** An environment in which every outside call goes through. *)
Definition sample_env : Env :=
  {| env_b64decode := fun s => Ok s;
     env_image_open := fun s =>
       Ok {| mode := "RGB"; size := (10, 10); pixels := []; palette := [] |};
     env_exif_transpose := fun img => img;
     env_lanczos := fun img _ => pixels img;
     env_save_jpeg := fun _ _ => Ok "jpeg";
     env_upload := fun n _ => Ok ("https://fal.media/files/" ++ pretty n);
     env_subscribe := fun _ => Ok ["https://fal.media/result.png"];
     env_http_get := fun _ => Ok "PNG";
     env_isoformat := fun t => pretty t |}.

Definition sample_request : JobRequest :=
  {| images := ["a"; "b"]; req_style := "clean"; req_aspect_ratio := "1:1" |}.

(** The world after one accepted submission with id [id1]. *)
Definition world_submitted : World :=
  exec (create_job default_settings "id1" sample_request) empty_world.

(** A 1x1 [LA] image whose only pixel is black and fully transparent. *)
Definition la_transparent : Image :=
  {| mode := "LA"; size := (1, 1); pixels := [PxLA 0 0]; palette := [] |}.

(** A finished job and its artifact, for the reaper. *)
Definition completed_job (id : string) : Job :=
  {| job_id := id; status := "completed"; image_paths := [];
     image_dir := "/app/job_images/" ++ id; style := "clean";
     aspect_ratio := "1:1"; created_at := 0; status_detail := None;
     image_url := Some ("http://api:8000/output/" ++ id ++ ".png");
     expires_at := Some "1800"; error := None |}.

(** Two artifacts written at time 0, looked at 10000 s later (the window
    is 1800 s); Redis refuses the first command it gets. *)
Definition world_two_expired : World :=
  mkWorld {[ "job:a" := (completed_job "a", None);
             "job:b" := (completed_job "b", None) ]}
    [] ∅
    [("a.png", {| out_bytes := "A"; out_mtime := 0 |});
     ("b.png", {| out_bytes := "B"; out_mtime := 0 |})]
    10000 false [Down] [] [] [] [] [].

(** ** Footprints *)

(** What a Redis command leaves alone. *)
Definition same_fs (w w' : World) : Prop :=
  scratch w' = scratch w /\ output w' = output w /\ clock w' = clock w /\
  shutdown w' = shutdown w /\ uploads w' = uploads w /\
  fal_calls w' = fal_calls w /\ fs_tape w' = fs_tape w /\
  signal_tape w' = signal_tape w.

(** What everything but a Redis command leaves alone. *)
Definition same_store (w w' : World) : Prop :=
  kv w' = kv w /\ job_queue w' = job_queue w /\ status_log w' = status_log w /\
  store_tape w' = store_tape w.

(** The parts of the world a submission can write to. *)
Definition untouched (w w' : World) : Prop :=
  scratch w' = scratch w /\ fs_tape w' = fs_tape w /\ kv w' = kv w /\
  job_queue w' = job_queue w /\ status_log w' = status_log w /\
  output w' = output w.

(** A validation rejection: one of the codes [create_job] raises before it
    touches the scratch directory, or the store refusing the length query. *)
Definition validation_error (e : exn) : Prop :=
  match e with
  | ConnectionError _ => True
  | HTTPException code _ => code = 503 \/ code = 400 \/ code = 413
  | Exception _ => False
  end.

(** ** Runs of a computation *)

(** Every run of [m] takes the world along [R]. *)
Definition runs (R : relation World) {A} (m : M A) : Prop :=
  forall w r w', m w = (r, w') -> R w w'.

(** The same, told apart by outcome. *)
Definition runs2 (RO RE : relation World) {A} (m : M A) : Prop :=
  forall w r w', m w = (r, w') ->
    match r with Ok _ => RO w w' | Raise _ => RE w w' end.

(** [R] followed by [T]. *)
Definition then_rel (R T : relation World) : relation World :=
  fun w w' => exists w1, R w w1 /\ T w1 w'.

(** ** The history of a job record *)

(** The statuses written to the record under [key], oldest first. *)
Definition history (key : string) (w : World) : list string :=
  map snd (List.filter (fun e => String.eqb (fst e) key) (status_log w)).

(** The moves of a status: [queued -> processing -> (completed | failed)];
    a progress note rewrites [processing] over itself. *)
Definition allowed (s s' : string) : bool :=
  (String.eqb s "queued" && String.eqb s' "processing") ||
  (String.eqb s "processing" &&
     (String.eqb s' "processing" || String.eqb s' "completed" || String.eqb s' "failed")).

Fixpoint chain (s : string) (h : list string) : bool :=
  match h with
  | [] => true
  | s' :: h' => allowed s s' && chain s' h'
  end.

(** A history starts at [queued] and only makes allowed moves. *)
Definition valid_history (h : list string) : bool :=
  match h with
  | [] => true
  | s :: h' => String.eqb s "queued" && chain s h'
  end.

Definition is_status (s : string) : Prop :=
  s = "queued" \/ s = "processing" \/ s = "completed" \/ s = "failed".

(** The records in Redis, without their time to live. *)
Definition records (w : World) : gmap string Job := fst <$> kv w.

(** One thing the code does to the store.  It either removes records and
    writes nothing, or it rewrites a record it has just read under [key]
    with a status that [W] allows. *)
Inductive act (W : string -> string -> Prop) (w w' : World) : Prop :=
| act_shrink :
    records w' ⊆ records w -> job_queue w' = job_queue w ->
    status_log w' = status_log w -> act W w w'
| act_write key j j' :
    records w !! key = Some j -> W key (status j') ->
    records w' = <[key := j']> (records w) -> job_queue w' = job_queue w ->
    status_log w' = (status_log w ++ [(key, status j')])%list ->
    act W w w'.

Definition acts (W : string -> string -> Prop) : relation World := rtc (act W).

(** The writes [process_job] makes on the record under [key]: any status
    ([Wkey]), [processing] ([Wp]), the status of the end ([Wt]). *)
Definition Wkey (key : string) : string -> string -> Prop :=
  fun k s => k = key.
Definition Wp (key : string) : string -> string -> Prop :=
  fun k s => k = key /\ s = "processing".
Definition Wt (key : string) : string -> string -> Prop :=
  fun k s => k = key /\ (s = "completed" \/ s = "failed").
Definition Wnone : string -> string -> Prop := fun _ _ => False.

(** The shapes of the history of a record: never written, on its way
    ([queued], then [processing] any number of times), or ended after at
    least one [processing]. *)
Definition in_flight (h : list string) : Prop :=
  exists k, h = ("queued" :: repeat "processing" k)%list.
Definition landed (h : list string) : Prop :=
  exists k t, h = ("queued" :: repeat "processing" (S k) ++ [t])%list /\
              (t = "completed" \/ t = "failed").
Definition shaped (h : list string) : Prop := h = [] \/ in_flight h \/ landed h.

(** A record in Redis carries the status written last. *)
Definition consistent (w : World) : Prop :=
  forall key j, records w !! key = Some j -> last (history key w) = Some (status j).

(** The ids in the queue are distinct and their records have only ever
    been [queued]. *)
Definition waiting (w : World) : Prop :=
  NoDup (job_queue w) /\
  forall id, id ∈ job_queue w -> history ("job:" ++ id) w = ["queued"].

Definition Inv (w : World) : Prop :=
  (forall key, shaped (history key w)) /\ waiting w /\ consistent w.

(** The record under [key] is being processed: its history is on its way,
    and if [processing] has not been written yet the record is gone. *)
Definition flying (key : string) (w : World) : Prop :=
  in_flight (history key w) /\
  (history key w = ["queued"] -> records w !! key = None).

(** The id was taken from the queue and never processed. *)
Definition parked (id : string) (w : World) : Prop :=
  (id ∉ job_queue w) /\ history ("job:" ++ id) w = ["queued"].

(** ** The system *)

(** [uuid.uuid4()] returns an id no job has had. *)
Definition fresh (uuid : string) (w : World) : Prop :=
  history ("job:" ++ uuid) w = [].

(** The service starts on an empty Redis. *)
Definition initial (w : World) : Prop :=
  kv w = ∅ /\ job_queue w = [] /\ status_log w = [].

Definition set_tapes (st : list store_event) (fs sg : list bool) (w : World) : World :=
  set_store_tape (fun _ => st) (set_fs_tape (fun _ => fs) (set_signal_tape (fun _ => sg) w)).

(** What can happen next: a submission, some turns of the worker loop, a
    turn of the reaper, time passing, and the outside world making up its
    mind about the coming faults and signals. *)
Inductive step (cfg : Settings) : World -> World -> Prop :=
| step_create uuid request w :
    fresh uuid w -> step cfg w (exec (create_job cfg uuid request) w)
| step_worker fuel env w :
    step cfg w (exec (main_loop cfg fuel env) w)
| step_reaper w :
    step cfg w (exec (cleanup_worker_iteration cfg) w)
| step_tick d w :
    0 <= d -> step cfg w (tick d w)
| step_env st fs sg w :
    step cfg w (set_tapes st fs sg w).

Inductive reachable (cfg : Settings) : World -> Prop :=
| reach_init w : initial w -> reachable cfg w
| reach_step w w' : reachable cfg w -> step cfg w w' -> reachable cfg w'.

(** Any number of steps. *)
Definition steps (cfg : Settings) : relation World := rtc (step cfg).


(** The artifact [name] is what it was. *)
Definition keeps_artifact (name : string) : relation World :=
  fun w w' => output_get name (output w') = output_get name (output w).

(** A submission naming a style that is not in the table. *)
Definition bad_style_request : JobRequest :=
  {| images := ["a"; "b"]; req_style := "watercolor"; req_aspect_ratio := "1:1" |}.



(** Redis serves the next [n] commands without a fault. *)
Definition store_serves (n : nat) (w : World) : Prop :=
  Forall (fun ev => ev = Up) (take n (store_tape w)).

(** The handler of [process_job] (lines 219-222). *)
Definition failure_kwargs (e : exn) : list kwarg :=
  [("error", Some (exn_str e)); ("status_detail", None)].


(** Redis refuses the first update of [process_job]. *)
Definition world_first_update_refused : World :=
  set_tapes [Up; Down] [] [] world_submitted.



(** The record [create_job] stores in [world_submitted]. *)
Definition submitted_job : Job :=
  {| job_id := "id1"; status := "queued";
     image_paths := [("/app/job_images/id1", "img_000.dat");
                     ("/app/job_images/id1", "img_001.dat")];
     image_dir := "/app/job_images/id1"; style := "clean";
     aspect_ratio := "1:1"; created_at := 0; status_detail := None;
     image_url := None; expires_at := None; error := None |}.


(** Records, queue and history are what they were. *)
Definition same3 : relation World :=
  fun w w' => kv w' = kv w /\ job_queue w' = job_queue w /\
              status_log w' = status_log w.


(** [world_submitted] after one turn of the worker loop. *)
Definition world_processed : World :=
  exec (main_loop default_settings 1 sample_env) world_submitted.

(** [world_submitted] with a termination signal on its way: it is seen at
    the first read of the flag. *)
Definition world_signal_pending : World :=
  set_tapes [] [] [true] world_submitted.


(** ** The order of the images *)

(** Scratch files, uploads and synthesis calls are what they were. *)
Definition quiet : relation World :=
  fun w w' => scratch w' = scratch w /\ uploads w' = uploads w /\
              fal_calls w' = fal_calls w.

(** Uploads and synthesis calls are what they were. *)
Definition calm : relation World :=
  fun w w' => uploads w' = uploads w /\ fal_calls w' = fal_calls w.

(** No synthesis call was made. *)
Definition silent : relation World :=
  fun w w' => fal_calls w' = fal_calls w.




(** The scratch paths [create_job] gives to [n] images. *)
Definition scratch_paths (dir : string) (k n : nat) : list path :=
  map (fun i => (dir, img_name i)) (seq k n).





(** An environment whose decoder yields an opaque image of 1000 x 1
    pixels. *)
Definition thin_env : Env :=
  {| env_b64decode := env_b64decode sample_env;
     env_image_open := fun _ =>
       Ok {| mode := "RGB"; size := (1000, 1);
             pixels := repeat (PxRGB 0 0 0) 1000; palette := [] |};
     env_exif_transpose := env_exif_transpose sample_env;
     env_lanczos := env_lanczos sample_env;
     env_save_jpeg := env_save_jpeg sample_env;
     env_upload := env_upload sample_env;
     env_subscribe := env_subscribe sample_env;
     env_http_get := env_http_get sample_env;
     env_isoformat := env_isoformat sample_env |}.


(** ** app/settings.py and the access control of app/main.py *)

(** The comma. *)
Definition comma : Ascii.ascii := Ascii.Ascii false false true true false true false false.

(** The characters [str.strip()] removes, within ASCII: tab, line feed,
    vertical tab, form feed, carriage return, the four separators 28-31
    and the space. *)
Definition is_space (c : Ascii.ascii) : bool :=
  let n := Ascii.nat_of_ascii c in
  ((9 <=? n)%nat && (n <=? 13)%nat) || ((28 <=? n)%nat && (n <=? 32)%nat).

(** [s.lstrip()], [s.rstrip()], [s.strip()] *)
Fixpoint lstrip (s : string) : string :=
  match s with
  | EmptyString => EmptyString
  | String c s' => if is_space c then lstrip s' else s
  end.

Fixpoint rstrip (s : string) : string :=
  match s with
  | EmptyString => EmptyString
  | String c s' =>
      match rstrip s' with
      | EmptyString => if is_space c then EmptyString else String c EmptyString
      | r => String c r
      end
  end.

Definition strip (s : string) : string := rstrip (lstrip s).

(** [s.split(sep)] for a one-character separator: never the empty list. *)
Fixpoint split_on (sep : Ascii.ascii) (s : string) : list string :=
  match s with
  | EmptyString => [EmptyString]
  | String c s' =>
      if Ascii.eqb c sep then EmptyString :: split_on sep s'
      else match split_on sep s' with
           | h :: t => String c h :: t
           | [] => [String c EmptyString]
           end
  end.

(** Python's truth value of a string. *)
Definition nonempty (s : string) : bool := negb (String.eqb s "").

(** [Settings.allowed_ips_list], as a function of [api_allowed_ips]. *)
Definition allowed_ips_list (api_allowed_ips : string) : list string :=
  map strip (List.filter (fun ip => nonempty (strip ip)) (split_on comma api_allowed_ips)).

(** A request as the middleware sees it: the headers, by lower-case name,
    and the host of [request.client], if any. *)
Record Request := {
  headers : gmap string string;
  client : option string
}.

(** [get_client_ip(request)] *)
Definition get_client_ip (request : Request) : string :=
  let forwarded := headers request !! "x-forwarded-for" in
  match forwarded with
  | Some f =>
      if nonempty f then strip (hd EmptyString (split_on comma f))
      else match headers request !! "x-real-ip" with
           | Some r => if nonempty r then strip r
                       else default "unknown" (client request)
           | None => default "unknown" (client request)
           end
  | None =>
      match headers request !! "x-real-ip" with
      | Some r => if nonempty r then strip r else default "unknown" (client request)
      | None => default "unknown" (client request)
      end
  end.

(** What the middleware answers: the response of the rest of the
    application, or its own JSON response. *)
Inductive Response (A : Type) :=
| Passed (a : A)
| JSONResponse (status_code : Z) (detail : string).
Arguments Passed {A} a.
Arguments JSONResponse {A} status_code detail.

(** [IPWhitelistMiddleware.dispatch(request, call_next)], with the two
    module constants [ENVIRONMENT] and [API_ALLOWED_IPS]. *)
Definition dispatch {A} (ENVIRONMENT : string) (API_ALLOWED_IPS : list string)
    (request : Request) (call_next : Request -> M A) : M (Response A) :=
  if String.eqb ENVIRONMENT "local" then
    do a <- call_next request; ret (Passed a)
  else
    match API_ALLOWED_IPS with
    | [] => do a <- call_next request; ret (Passed a)
    | _ =>
        let client_ip := get_client_ip request in
        if negb (str_in client_ip API_ALLOWED_IPS)
        then ret (JSONResponse 403 ("Access denied for IP: " ++ client_ip))
        else do a <- call_next request; ret (Passed a)
    end.


(** [c in s] *)
Fixpoint str_has (c : Ascii.ascii) (s : string) : bool :=
  match s with
  | EmptyString => false
  | String c' s' => Ascii.eqb c' c || str_has c s'
  end.


(** The sum of the sizes of the images. *)
Definition total_len (imgs : list string) : Z :=
  fold_right (fun img acc => len img + acc) 0 imgs.

(** The detail of the 413 for the image at (0-based) position [i]. *)
Definition too_large_detail (i : nat) (img : string) : string :=
  "Image " ++ pretty (S i) ++ " too large ("
  ++ pretty (len img / 1024 / 1024) ++ "MB). Max: "
  ++ pretty MAX_IMAGE_SIZE_MB ++ "MB".


(** The integers [lo], [lo + 1], ..., [n] of them. *)
Fixpoint zrange (lo : Z) (n : nat) : list Z :=
  match n with
  | O => []
  | S n' => lo :: zrange (lo + 1) n'
  end.


(** ** Styles of the stored records *)

(** Every record of the store names a style and an aspect ratio of the
    tables of config.py. *)
Definition well_styled (w : World) : Prop :=
  forall key j ttl, kv w !! key = Some (j, ttl) ->
    style j ∈ map fst STYLE_PRESETS /\ aspect_ratio j ∈ ASPECT_RATIOS.

(** Every record of [w'] continues a record of [w] under the same key, with
    the style and the aspect ratio it had. *)
Definition heirs : relation World :=
  fun w w' => forall key j' t', kv w' !! key = Some (j', t') ->
    exists j t, kv w !! key = Some (j, t) /\
                style j' = style j /\ aspect_ratio j' = aspect_ratio j.


(** ** A worker left alone *)

(** Redis stays reachable if it was, no signal arrives, the flag and the
    queue are what they were. *)
Definition steady : relation World :=
  fun w w' => (store_tape w = [] -> store_tape w' = []) /\
              signal_tape w' = signal_tape w /\ shutdown w' = shutdown w /\
              job_queue w' = job_queue w.


(** ** Sample requests and worlds for the middleware, the reaper and the
    codecs *)

(** The setting [API_ALLOWED_IPS] with blanks and empty entries. *)
Definition sample_allowed_ips : string := " 1.2.3.4, 5.6.7.8 ,, ".

(** A request a proxy forwards for 9.9.9.9. *)
Definition proxied_request : Request :=
  {| headers := {[ "x-forwarded-for" := "9.9.9.9, 10.0.0.1" ]};
     client := Some "10.0.0.1" |}.

(** A request whose proxy names the listed address 5.6.7.8. *)
Definition listed_request : Request :=
  {| headers := {[ "x-real-ip" := " 5.6.7.8 " ]}; client := None |}.

(** The application behind the middleware. *)
Definition sample_handler : Request -> M string := fun _ => ret "ok".


(** [world_two_expired] with Redis and the file system at rest. *)
Definition world_two_expired_at_rest : World := set_tapes [] [] [] world_two_expired.

(** A one-pixel [RGBA] image, opaque. *)
Definition opaque_pixel : list pixel := [PxRGBA 10 20 30 255].


(** * Properties *)

Local Open Scope list_scope.

(** ** The monad *)

Lemma bind_ok {A B} (m : M A) (k : A -> M B) w a w' :
  m w = (Ok a, w') -> bind m k w = k a w'.
Proof. intros H. unfold bind. by rewrite H. Qed.

Lemma bind_raise {A B} (m : M A) (k : A -> M B) w e w' :
  m w = (Raise e, w') -> bind m k w = (Raise e, w').
Proof. intros H. unfold bind. by rewrite H. Qed.

(** ** The admission queue (C9) *)

Lemma last_snoc_rev {A} (q : list A) x :
  last q = Some x -> rev q = x :: rev (removelast q).
Proof.
  intros H. destruct (decide (q = [])) as [->|Hne]; [done|].
  rewrite (app_removelast_last x Hne) at 1.
  assert (List.last q x = x) as ->.
  { clear Hne. induction q as [|a [|b q'] IH]; simplify_eq/=; [done|]. by apply IH. }
  by rewrite rev_app_distr.
Qed.






(** ** The time to live of a job record (C1) *)

Lemma job_set_key_status kw j : status (job_set_key kw j) = status j.
Proof. by destruct kw. Qed.

Lemma job_update_status extra j : status (job_update extra j) = status j.
Proof.
  unfold job_update. revert j. induction extra as [|kw extra IH]; intros j; [done|].
  simpl. by rewrite IH, job_set_key_status.
Qed.

(** Whenever the worker's update writes the record, the record is left
    without a time to live. *)
Lemma update_job_status_written_ttl job_id st extra w j ttl :
  store_tape w = [] ->
  kv w !! ("job:" ++ job_id)%string = Some (j, ttl) ->
  kv (exec (update_job_status job_id st extra) w) !! ("job:" ++ job_id)%string
    = Some (job_update extra (job_set_status st j), None).
Proof.
  intros Ht Hk.
  unfold exec, update_job_status, redis_get, redis_set, redis_key_cmd, bind,
    next_store_event, modify. rewrite Ht. simpl. rewrite Hk. simpl.
  rewrite Ht. simpl. by rewrite lookup_insert_eq.
Qed.

(** C1, at the input that breaks it: a job is submitted and the worker
    writes its first status update.  [create_job] stores the record with a
    time to live of twice the expiry window (3600 s for the default 30
    minutes); the update of [update_job_status] leaves the record without
    any time to live, so it is still in the store after 3600 s. *)
Theorem C1_status_update_drops_ttl :
  let key := "job:id1"%string in
  let w1 := world_submitted in
  let w2 := exec (update_job_status "id1" "processing" []) w1 in
  snd <$> kv w1 !! key = Some (Some (image_expiry_minutes default_settings * 2 * 60)) /\
  snd <$> kv w2 !! key = Some None /\
  status <$> (fst <$> kv (tick 3600 w2) !! key) = Some "processing"%string.
Proof. vm_compute. done. Qed.

(** ** Flattening transparency (C4) *)

Lemma BLEND_transparent bg x : BLEND 0 bg x = DIV255 (bg * 255).
Proof. unfold BLEND. f_equal. lia. Qed.

Lemma paste_pixel_transparent r g b a' :
  paste_pixel (PxRGB 255 255 255) (PxRGBA r g b a') (Some 0) = PxRGB 255 255 255.
Proof. unfold paste_pixel. simpl. by rewrite !BLEND_transparent. Qed.

(** The [RGBA] path does what the comment in the code says: a fully
    transparent pixel comes out white. *)
Lemma flatten_RGBA_pixel r g b :
  pixels (flatten {| mode := "RGBA"; size := (1, 1);
                     pixels := [PxRGBA r g b 0]; palette := [] |})
  = [PxRGB 255 255 255].
Proof.
  unfold flatten. simpl. unfold paste_pixel. simpl.
  by rewrite !BLEND_transparent.
Qed.

(** Pasting through the alpha band: wherever the pasted pixel is fully
    transparent the white background stays. *)
Lemma paste_masked_transparent src : forall n i r g b,
  (i < n)%nat ->
  src !! i = Some (PxRGBA r g b 0) ->
  paste_pixels (repeat (PxRGB 255 255 255) n) src (Some (map last_band src)) !! i
  = Some (PxRGB 255 255 255).
Proof.
  induction src as [|p src IH]; intros n i r g b Hi Hp; [done|].
  destruct n as [|n]; [lia|]. destruct i as [|i]; simpl in *.
  - simplify_eq. simpl. f_equal. apply paste_pixel_transparent.
  - apply (IH n i r g b); [lia|done].
Qed.

(** Pasting without a mask: the colour bands of the pasted pixel replace
    the background, whatever its alpha. *)
Lemma paste_unmasked_LA src : forall n i l a,
  (i < n)%nat ->
  src !! i = Some (PxLA l a) ->
  paste_pixels (repeat (PxRGB 255 255 255) n) src None !! i = Some (PxRGB l l l).
Proof.
  induction src as [|p src IH]; intros n i l a Hi Hp; [done|].
  destruct n as [|n]; [lia|]. destruct i as [|i]; simpl in *.
  - by simplify_eq.
  - apply (IH n i l a); [lia|done].
Qed.

(** The [RGBA] path, as the comment in the code says: every fully
    transparent pixel comes out white. *)
Lemma flatten_RGBA_transparent sz px pal i r g b :
  (Z.of_nat i < sz.1 * sz.2) ->
  px !! i = Some (PxRGBA r g b 0) ->
  pixels (flatten {| mode := "RGBA"; size := sz; pixels := px; palette := pal |}) !! i
  = Some (PxRGB 255 255 255).
Proof.
  intros Hi Hp. unfold flatten. simpl.
  apply (paste_masked_transparent px _ i r g b); [lia|done].
Qed.

(** The palette path: an index whose palette entry is fully transparent
    comes out white. *)
Lemma flatten_P_transparent sz px pal i idx r g b :
  (Z.of_nat i < sz.1 * sz.2) ->
  px !! i = Some (PxP idx) ->
  pal !! idx = Some (r, g, b, 0) ->
  pixels (flatten {| mode := "P"; size := sz; pixels := px; palette := pal |}) !! i
  = Some (PxRGB 255 255 255).
Proof.
  intros Hi Hp Hpal. unfold flatten. simpl.
  apply (paste_masked_transparent _ _ i r g b); [lia|].
  rewrite list_lookup_fmap, Hp. simpl.
  by rewrite (nth_lookup_Some _ _ _ _ Hpal).
Qed.

(** The [LA] path: every pixel, transparent or not, comes out with the
    grey value it stores. *)
Lemma flatten_LA_pixel sz px pal i l a :
  (Z.of_nat i < sz.1 * sz.2) ->
  px !! i = Some (PxLA l a) ->
  pixels (flatten {| mode := "LA"; size := sz; pixels := px; palette := pal |}) !! i
  = Some (PxRGB l l l).
Proof.
  intros Hi Hp. unfold flatten. simpl.
  apply (paste_unmasked_LA px _ i l a); [lia|done].
Qed.

(** C4, at the input that breaks it: a decodable [LA] image with one
    fully transparent pixel.  [optimize_image] pastes it without a mask, so
    the pixel takes the grey value stored under the transparency (here 0,
    black) instead of white. *)
Theorem C4_LA_transparent_pixel_not_white :
  mode (flatten la_transparent) = "RGB"%string /\
  pixels (flatten la_transparent) = [PxRGB 0 0 0] /\
  pixels (flatten la_transparent) <> [PxRGB 255 255 255].
Proof. vm_compute. repeat split; discriminate. Qed.

(** ** The resize step (C8) *)

Example resize_target_landscape : resize_target (1536, 1024) = Some (768, 512).
Proof. vm_compute. reflexivity. Qed.

Example resize_target_small : resize_target (768, 500) = None.
Proof. vm_compute. reflexivity. Qed.

Lemma resize_target_thin : resize_target (1000, 1) = Some (768, 0).
Proof. vm_compute. reflexivity. Qed.

(** C8, at the input that breaks it: a decodable image of 1000 x 1 pixels.
    Its longest edge exceeds 768, the computed target is 768 x 0, and
    Pillow's resize refuses it: no resized image is produced and
    [optimize_image] raises, whatever the codecs do. *)
Theorem C8_thin_image_not_resized env m px pal :
  let img := {| mode := m; size := (1000, 1); pixels := px; palette := pal |} in
  resize_target (size img) = Some (768, 0) /\
  resize_step env img = Raise (Exception "height and width must be > 0") /\
  optimize_image thin_env "1000x1.png"
    = Raise (Exception "height and width must be > 0").
Proof.
  intros img. split; [apply resize_target_thin|]. split.
  - unfold resize_step. simpl size. rewrite resize_target_thin. done.
  - vm_compute. reflexivity.
Qed.

(** ** Rejected submissions (C6) *)

Lemma llen_spec w r w' :
  redis_llen w = (r, w') ->
  untouched w w' /\
  (r = Ok (length (job_queue w)) \/ exists m, r = Raise (ConnectionError m)).
Proof.
  unfold redis_llen, redis_list_cmd, bind, next_store_event, raise, untouched.
  destruct (store_tape w) as [|[] tape]; intros; simplify_eq/=; eauto 10.
Qed.

Lemma check_sizes_spec imgs total w r w' :
  check_sizes imgs total w = (r, w') ->
  w' = w /\ ((exists t, r = Ok t) \/ exists d, r = Raise (HTTPException 413 d)).
Proof.
  revert total. induction imgs as [|[i img] imgs IH]; intros total; simpl.
  - unfold ret. intros; simplify_eq. eauto.
  - destruct (MAX_IMAGE_SIZE <? len img).
    + unfold raise. intros; simplify_eq. eauto.
    + apply IH.
Qed.

Local Ltac rejected :=
  unfold raise; cbn [fst snd negb];
  split; [eexists; split; [reflexivity | simpl; auto] | assumption].

(** C6: a submission that meets a full queue, or names an unknown style or
    an unknown aspect ratio, is rejected before anything is written: no
    file operation is attempted, the scratch root, the stored records, the
    admission queue (hence its length) and the history of status writes are
    what they were. *)
Theorem C6_rejected_submission_writes_nothing cfg uuid request w :
  (MAX_QUEUED_JOBS <= length (job_queue w))%nat \/
  str_in (req_style request) (map fst STYLE_PRESETS) = false \/
  str_in (req_aspect_ratio request) ASPECT_RATIOS = false ->
  let w' := exec (create_job cfg uuid request) w in
  (exists e, outcome (create_job cfg uuid request) w = Raise e /\ validation_error e) /\
  scratch w' = scratch w /\ fs_tape w' = fs_tape w /\ kv w' = kv w /\
  job_queue w' = job_queue w /\ length (job_queue w') = length (job_queue w) /\
  status_log w' = status_log w.
Proof.
  intros Hrej.
  cut ((exists e, outcome (create_job cfg uuid request) w = Raise e /\ validation_error e)
       /\ untouched w (exec (create_job cfg uuid request) w)).
  { unfold untouched. intros (He & Hs & Hf & Hk & Hq & Hl & _).
    simpl. rewrite Hq. eauto 10. }
  unfold outcome, exec, create_job, bind.
  destruct (redis_llen w) as [r w0] eqn:El.
  destruct (llen_spec _ _ _ El) as [Hu [->|[m ->]]]; cbv beta iota; [|rejected].
  destruct (MAX_QUEUED_JOBS <=? length (job_queue w))%nat eqn:Eq; [rejected|].
  destruct (length (images request) <? MIN_IMAGES)%nat; [rejected|].
  destruct (MAX_IMAGES <? length (images request))%nat; [rejected|].
  destruct (check_sizes (enumerate (images request)) 0 w0) as [r1 w1] eqn:Ec.
  destruct (check_sizes_spec _ _ _ _ _ Ec) as [-> [[t ->]|[d ->]]]; cbv beta iota;
    [|rejected].
  destruct (MAX_TOTAL_SIZE <? t); [rejected|].
  destruct (str_in (req_style request) (map fst STYLE_PRESETS)) eqn:Es; [|rejected].
  destruct (str_in (req_aspect_ratio request) ASPECT_RATIOS) eqn:Ea; [|rejected].
  exfalso. destruct Hrej as [Hq|[Hs|Ha]]; try congruence.
  apply Nat.leb_gt in Eq. lia.
Qed.


(** ** What each outside command does to the world *)

Local Ltac crush_cmd :=
  intros; simplify_eq/=; unfold same_fs, same_store;
  rewrite ?lookup_delete_eq, ?insert_delete_eq, ?delete_delete_eq;
  eauto 15.

Lemma redis_get_inv key w r w' :
  redis_get key w = (r, w') ->
  same_fs w w' /\ job_queue w' = job_queue w /\ status_log w' = status_log w /\
  ((exists m, r = Raise (ConnectionError m) /\ kv w' = kv w) \/
   (r = Ok (fst <$> kv w !! key) /\ kv w' = kv w) \/
   (r = Ok None /\ kv w' = delete key (kv w))).
Proof.
  unfold redis_get, redis_key_cmd, bind, next_store_event, raise, modify.
  destruct (store_tape w) as [|[] tape]; crush_cmd.
Qed.

Lemma redis_set_inv key job w r w' :
  redis_set key job w = (r, w') ->
  same_fs w w' /\ job_queue w' = job_queue w /\
  ((exists m, r = Raise (ConnectionError m) /\ kv w' = kv w /\
              status_log w' = status_log w) \/
   (r = Ok tt /\ kv w' = <[key := (job, None)]> (kv w) /\
    status_log w' = status_log w ++ [(key, status job)])).
Proof.
  unfold redis_set, redis_key_cmd, bind, next_store_event, raise, modify.
  destruct (store_tape w) as [|[] tape]; crush_cmd.
Qed.

Lemma redis_setex_inv key ttl job w r w' :
  redis_setex key ttl job w = (r, w') ->
  same_fs w w' /\ job_queue w' = job_queue w /\
  ((exists m, r = Raise (ConnectionError m) /\ kv w' = kv w /\
              status_log w' = status_log w) \/
   (r = Ok tt /\ kv w' = <[key := (job, Some ttl)]> (kv w) /\
    status_log w' = status_log w ++ [(key, status job)])).
Proof.
  unfold redis_setex, redis_key_cmd, bind, next_store_event, raise, modify.
  destruct (store_tape w) as [|[] tape]; crush_cmd.
Qed.

Lemma redis_delete_inv key w r w' :
  redis_delete key w = (r, w') ->
  same_fs w w' /\ job_queue w' = job_queue w /\ status_log w' = status_log w /\
  ((exists m, r = Raise (ConnectionError m) /\ kv w' = kv w) \/
   (r = Ok tt /\ kv w' = delete key (kv w))).
Proof.
  unfold redis_delete, redis_key_cmd, bind, next_store_event, raise, modify.
  destruct (store_tape w) as [|[] tape]; crush_cmd.
Qed.

Lemma redis_llen_inv w r w' :
  redis_llen w = (r, w') ->
  same_fs w w' /\ kv w' = kv w /\ job_queue w' = job_queue w /\
  status_log w' = status_log w /\
  (r = Ok (length (job_queue w)) \/ exists m, r = Raise (ConnectionError m)).
Proof.
  unfold redis_llen, redis_list_cmd, bind, next_store_event, raise.
  destruct (store_tape w) as [|[] tape]; crush_cmd.
Qed.

Lemma redis_lpush_inv x w r w' :
  redis_lpush x w = (r, w') ->
  same_fs w w' /\ kv w' = kv w /\ status_log w' = status_log w /\
  ((r = Ok tt /\ job_queue w' = x :: job_queue w) \/
   (exists m, r = Raise (ConnectionError m) /\ job_queue w' = job_queue w)).
Proof.
  unfold redis_lpush, redis_list_cmd, bind, next_store_event, raise, modify.
  destruct (store_tape w) as [|[] tape]; crush_cmd.
Qed.

Lemma redis_brpop_inv w r w' :
  redis_brpop w = (r, w') ->
  same_fs w w' /\ kv w' = kv w /\ status_log w' = status_log w /\
  ((exists x, r = Ok (Some x) /\ last (job_queue w) = Some x /\
              job_queue w' = removelast (job_queue w)) \/
   ((r = Ok None \/ exists m, r = Raise (ConnectionError m)) /\
    job_queue w' = job_queue w)).
Proof.
  unfold redis_brpop, redis_list_cmd, bind, next_store_event, raise.
  destruct (store_tape w) as [|[] tape]; simpl;
    try (destruct (last (job_queue w)) eqn:E); crush_cmd.
Qed.

Lemma tick_inv d w :
  kv (tick d w) = omap (expire_entry d) (kv w) /\
  job_queue (tick d w) = job_queue w /\ status_log (tick d w) = status_log w /\
  scratch (tick d w) = scratch w /\ output (tick d w) = output w.
Proof. done. Qed.

(** File commands. *)

Lemma makedirs_inv dir w r w' :
  makedirs dir w = (r, w') ->
  same_store w w' /\ output w' = output w /\ uploads w' = uploads w /\
  fal_calls w' = fal_calls w /\
  ((exists m, r = Raise (Exception m) /\ scratch w' = scratch w) \/
   (r = Ok tt /\ scratch w' = scratch w /\ is_Some (scratch w !! dir)) \/
   (r = Ok tt /\ scratch w' = <[dir := ∅]> (scratch w) /\ scratch w !! dir = None)).
Proof.
  unfold makedirs, fs_cmd, bind, next_fs_fault, raise, modify.
  destruct (fs_tape w) as [|[] tape]; simpl;
    destruct (scratch w !! dir) eqn:E; intros; simplify_eq/=;
    rewrite ?E; unfold same_store; eauto 15.
Qed.

Lemma write_file_inv p data w r w' :
  write_file p data w = (r, w') ->
  same_store w w' /\ output w' = output w /\ uploads w' = uploads w /\
  fal_calls w' = fal_calls w /\
  ((exists m, r = Raise (Exception m) /\ scratch w' = scratch w) \/
   (exists files, r = Ok tt /\ scratch w !! p.1 = Some files /\
      scratch w' = <[p.1 := <[p.2 := data]> files]> (scratch w))).
Proof.
  unfold write_file, fs_cmd, bind, next_fs_fault, raise.
  destruct (fs_tape w) as [|[] tape]; simpl;
    destruct (scratch w !! p.1) eqn:E; crush_cmd.
Qed.

Lemma read_file_inv p w r w' :
  read_file p w = (r, w') ->
  same_store w w' /\ output w' = output w /\ uploads w' = uploads w /\
  fal_calls w' = fal_calls w /\ scratch w' = scratch w /\
  ((exists m, r = Raise (Exception m)) \/
   (exists files data, r = Ok data /\ scratch w !! p.1 = Some files /\
      files !! p.2 = Some data)).
Proof.
  unfold read_file, fs_cmd, bind, next_fs_fault, raise.
  destruct (fs_tape w) as [|[] tape]; simpl;
    destruct (scratch w !! p.1) as [files|] eqn:E; simpl;
    try (destruct (files !! p.2) eqn:E2); crush_cmd.
Qed.

Lemma rmtree_inv dir w :
  rmtree dir w = (Ok tt, set_scratch (delete dir) w).
Proof. done. Qed.

Lemma write_output_inv name data w r w' :
  write_output name data w = (r, w') ->
  same_store w w' /\ scratch w' = scratch w /\ uploads w' = uploads w /\
  fal_calls w' = fal_calls w /\ clock w' = clock w /\
  ((exists m, r = Raise (Exception m) /\ output w' = output w) \/
   (r = Ok tt /\
    output w' = output_put name {| out_bytes := data; out_mtime := clock w |} (output w))).
Proof.
  unfold write_output, fs_cmd, bind, next_fs_fault, raise, modify.
  destruct (fs_tape w) as [|[] tape]; crush_cmd.
Qed.

Lemma stat_mtime_inv name w r w' :
  stat_mtime name w = (r, w') ->
  same_store w w' /\ scratch w' = scratch w /\ output w' = output w /\
  clock w' = clock w /\
  ((exists m, r = Raise (Exception m)) \/
   (exists f, r = Ok (out_mtime f) /\ output_get name (output w) = Some f)).
Proof.
  unfold stat_mtime, fs_cmd, bind, next_fs_fault, raise.
  destruct (fs_tape w) as [|[] tape]; simpl;
    destruct (output_get name (output w)) eqn:E; crush_cmd.
Qed.

Lemma unlink_inv name w r w' :
  unlink name w = (r, w') ->
  same_store w w' /\ scratch w' = scratch w /\ clock w' = clock w /\
  ((exists m, r = Raise (Exception m) /\ output w' = output w) \/
   (r = Ok tt /\ output w' = output_remove name (output w))).
Proof.
  unfold unlink, fs_cmd, bind, next_fs_fault, raise.
  destruct (fs_tape w) as [|[] tape]; simpl;
    destruct (output_get name (output w)) eqn:E; crush_cmd.
Qed.

Lemma shutdown_is_set_inv w r w' :
  shutdown_is_set w = (r, w') ->
  same_store w w' /\ scratch w' = scratch w /\ output w' = output w /\
  uploads w' = uploads w /\ fal_calls w' = fal_calls w /\ clock w' = clock w /\
  exists b, r = Ok b.
Proof.
  unfold shutdown_is_set. destruct (signal_tape w) as [|sig tape]; crush_cmd.
Qed.

(** ** Composing runs *)

Section Runs.
Context (R : relation World) `{!PreOrder R}.

Lemma runs_ret {A} (a : A) : runs R (ret a).
Proof. intros w r w' H. unfold ret in H. by simplify_eq. Qed.

Lemma runs_raise {A} e : runs R (@raise A e).
Proof. intros w r w' H. unfold raise in H. by simplify_eq. Qed.

Lemma runs_lift {A} (x : res A) : runs R (lift x).
Proof. intros w r w' H. unfold lift in H. by simplify_eq. Qed.

Lemma runs_get_world : runs R get_world.
Proof. intros w r w' H. unfold get_world in H. by simplify_eq. Qed.

Lemma runs_bind {A B} (m : M A) (k : A -> M B) :
  runs R m -> (forall a, runs R (k a)) -> runs R (bind m k).
Proof.
  intros Hm Hk w r w' H. unfold bind in H.
  destruct (m w) as [[a|e] w1] eqn:E.
  - etrans; [eapply Hm, E | eapply Hk, H].
  - simplify_eq. eapply Hm, E.
Qed.

Lemma runs_try_except {A} (body : M A) handler :
  runs R body -> (forall e, runs R (handler e)) -> runs R (try_except body handler).
Proof.
  intros Hb Hh w r w' H. unfold try_except in H.
  destruct (body w) as [[a|e] w1] eqn:E.
  - simplify_eq. eapply Hb, E.
  - etrans; [eapply Hb, E | eapply Hh, H].
Qed.

Lemma runs_try_finally {A} (body : M A) final :
  runs R body -> runs R final -> runs R (try_finally body final).
Proof.
  intros Hb Hf w r w' H. unfold try_finally in H.
  destruct (body w) as [rb w1] eqn:E.
  destruct (final w1) as [[u|e] w2] eqn:E2; simplify_eq;
    (etrans; [eapply Hb, E | eapply Hf, E2]).
Qed.

Lemma runs_for_each {A} (xs : list A) body :
  (forall x, runs R (body x)) -> runs R (for_each xs body).
Proof.
  intros Hb. induction xs as [|x xs IH]; simpl.
  - apply runs_ret.
  - apply runs_bind; [apply Hb | intros _; apply IH].
Qed.

Lemma runs_exec {A} (m : M A) w : runs R m -> R w (exec m w).
Proof. intros Hm. unfold exec. destruct (m w) eqn:E. eapply Hm, E. Qed.

(** A computation that moves along [R] and then ends with a last step
    along [T] when it returns. *)
Lemma runs2_bind {A B} (T : relation World) (m : M A) (k : A -> M B) :
  runs R m -> (forall a, runs2 (then_rel R T) R (k a)) ->
  runs2 (then_rel R T) R (bind m k).
Proof.
  intros Hm Hk w r w' H. unfold bind in H.
  destruct (m w) as [[a|e] w1] eqn:E.
  - pose proof (Hk a w1 r w' H) as Hr. pose proof (Hm _ _ _ E) as H1.
    destruct r.
    + destruct Hr as (w2 & H2 & H3). exists w2. split; [by etrans|done].
    + by etrans.
  - simplify_eq. eapply Hm, E.
Qed.

Lemma runs2_raise {A} (T : relation World) e : runs2 (then_rel R T) R (@raise A e).
Proof. intros w r w' H. unfold raise in H. by simplify_eq. Qed.
End Runs.

(** ** The reaper sweep (C3) *)

Lemma for_each_abort {A} (done rest : list A) f body w w1 e w2 :
  for_each done body w = (Ok tt, w1) ->
  body f w1 = (Raise e, w2) ->
  for_each (done ++ f :: rest) body w = (Raise e, w2).
Proof.
  revert w. induction done as [|x done IH]; intros w Hd Hf; simpl in *.
  - unfold ret in Hd. simplify_eq. unfold bind. by rewrite Hf.
  - unfold bind in *. destruct (body x w) as [[[]|e'] w0]; [|done].
    by apply IH.
Qed.

Lemma output_get_remove_ne name name' l :
  name <> name' -> output_get name' (output_remove name l) = output_get name' l.
Proof.
  intros Hne. unfold output_remove. induction l as [|[n g] l IH]; [done|].
  simpl. destruct (String.eqb_spec n name) as [->|Hn]; simpl.
  - destruct (String.eqb_spec name name'); [done|]. apply IH.
  - destruct (String.eqb n name'); [done|]. apply IH.
Qed.

#[local] Instance keeps_artifact_preorder name : PreOrder (keeps_artifact name).
Proof.
  split; [by intros w|]. intros w1 w2 w3 H1 H2. unfold keeps_artifact in *. congruence.
Qed.

(** Handling one artifact leaves every other artifact as it was. *)
Lemma reap_file_other now expiry name name' :
  name <> name' -> runs (keeps_artifact name') (reap_file now expiry name).
Proof.
  intros Hne. unfold reap_file. apply runs_bind; try apply _.
  - intros w r w' H. apply stat_mtime_inv in H as (_ & _ & Ho & _).
    unfold keeps_artifact. by rewrite Ho.
  - intros mtime. destruct (expiry <? now - mtime); [|apply runs_ret; apply _].
    apply runs_bind; try apply _.
    + intros w r w' H. apply unlink_inv in H as (_ & _ & _ & [(m & _ & Ho)|[_ Ho]]);
        unfold keeps_artifact; rewrite Ho; [done|].
      by apply output_get_remove_ne.
    + intros _ w r w' H. apply redis_delete_inv in H as ((_ & Ho & _) & _).
      unfold keeps_artifact. by rewrite Ho.
Qed.

Lemma for_each_reap_other now expiry names name' :
  name' ∉ names -> runs (keeps_artifact name') (for_each names (reap_file now expiry)).
Proof.
  induction names as [|n names IH]; intros Hn; simpl.
  - apply runs_ret; apply _.
  - apply not_elem_of_cons in Hn as [Hne Hn].
    apply runs_bind; try apply _; [|intros _; by apply IH].
    by apply reap_file_other.
Qed.

(** C3, as the code has it: an error raised while handling one artifact
    ends the sweep there.  The error is caught, so the sweep returns
    normally and the reaper thread lives on to its next sweep; the world is
    the one the failing handling left behind; and every other artifact
    listed after the failing one is what it was before the sweep, aged or
    not. *)
Theorem C3_error_ends_sweep_quietly cfg w done f rest w1 e w2 :
  let handle := reap_file (clock w) (IMAGE_EXPIRY_MINUTES cfg * 60) in
  glob_png w = done ++ f :: rest ->
  for_each done handle w = (Ok tt, w1) ->
  handle f w1 = (Raise e, w2) ->
  cleanup_expired_images cfg w = (Ok tt, w2) /\
  forall name, name ∈ rest -> name ∉ done -> name <> f ->
    output_get name (output w2) = output_get name (output w).
Proof.
  intros handle Hg Hd Hf. split.
  - unfold cleanup_expired_images, try_except, bind, get_world.
    rewrite Hg. fold handle.
    by rewrite (for_each_abort done rest f handle w w1 e w2 Hd Hf).
  - intros name _ Hnd Hne.
    pose proof (reap_file_other _ _ f name (not_eq_sym Hne) _ _ _ Hf) as H2.
    pose proof (for_each_reap_other _ _ done name Hnd _ _ _ Hd) as H1.
    unfold keeps_artifact in *. congruence.
Qed.

(** ** Cleanup of the scratch directory (C2) *)


Lemma main_iteration_returns cfg env w :
  outcome (main_iteration cfg env) w = Ok tt.
Proof.
  unfold outcome, main_iteration, try_except.
  match goal with |- context [bind ?m ?k w] => destruct (bind m k w) as [[[]|e] w1] end;
    [done|].
  unfold bind. destruct (shutdown_is_set w1) as [r w2] eqn:E.
  apply shutdown_is_set_inv in E as (_ & _ & _ & _ & _ & _ & b & ->).
  destruct b; [done|]. by destruct e.
Qed.


(** The same code at the two inputs the statement above leaves out.  When
    Redis refuses the first update, which precedes the [try], the exception
    leaves [process_job] with the scratch directory in place and the record
    still [queued]. *)
Lemma process_job_first_update_outside_try :
  let w := world_first_update_refused in
  let w' := exec (process_job default_settings sample_env "id1") w in
  outcome (process_job default_settings sample_env "id1") w
    = Raise (ConnectionError "Error connecting to Redis") /\
  is_Some (scratch w' !! "/app/job_images/id1"%string) /\
  status <$> (fst <$> kv w' !! "job:id1"%string) = Some "queued"%string.
Proof. vm_compute. split; [done|]. split; [by eexists|done]. Qed.


(** ** Histories and what the code does to them *)

Lemma history_same key w w' :
  status_log w' = status_log w -> history key w' = history key w.
Proof. unfold history. by intros ->. Qed.

Lemma history_snoc key k s w w' :
  status_log w' = status_log w ++ [(k, s)] ->
  history key w' = if String.eqb k key then history key w ++ [s] else history key w.
Proof.
  unfold history. intros ->. rewrite List.filter_app, map_app. simpl.
  destruct (String.eqb k key); simpl; [done|]. by rewrite app_nil_r.
Qed.

Lemma history_snoc_eq key s w w' :
  status_log w' = status_log w ++ [(key, s)] ->
  history key w' = history key w ++ [s].
Proof. intros H. by rewrite (history_snoc _ _ _ _ _ H), String.eqb_refl. Qed.

Lemma history_snoc_ne key k s w w' :
  k <> key -> status_log w' = status_log w ++ [(k, s)] ->
  history key w' = history key w.
Proof.
  intros Hne H. rewrite (history_snoc _ _ _ _ _ H).
  by destruct (String.eqb_spec k key).
Qed.

Lemma act_mono (W W' : string -> string -> Prop) w w' :
  (forall k s, W k s -> W' k s) -> act W w w' -> act W' w w'.
Proof.
  intros HW [Hr Hq Hl|key j j' Hk Hw Hr Hq Hl].
  - by apply act_shrink.
  - eapply act_write; eauto.
Qed.

Lemma acts_mono (W W' : string -> string -> Prop) w w' :
  (forall k s, W k s -> W' k s) -> acts W w w' -> acts W' w w'.
Proof.
  intros HW H. induction H as [|w1 w2 w3 H12 _ IH]; [apply rtc_refl|].
  eapply rtc_l; [|exact IH]. by eapply act_mono.
Qed.

Lemma act_acts W w w' : act W w w' -> acts W w w'.
Proof. apply rtc_once. Qed.

(** Nothing [process_job] does touches the queue. *)
Lemma act_queue W w w' : act W w w' -> job_queue w' = job_queue w.
Proof. by intros [? ? ?|? ? ? ? ? ? ? ?]. Qed.

Lemma acts_queue W w w' : acts W w w' -> job_queue w' = job_queue w.
Proof.
  intros H. induction H as [|w1 w2 w3 H12 _ IH]; [done|].
  rewrite IH. by eapply act_queue.
Qed.

(** Writes under one key leave the history of every other key alone. *)
Lemma act_history_other key key0 w w' :
  key0 <> key -> act (Wkey key) w w' -> history key0 w' = history key0 w.
Proof.
  intros Hne [Hr Hq Hl|k j j' Hk Hw Hr Hq Hl].
  - by apply history_same.
  - unfold Wkey in Hw. subst k. by eapply history_snoc_ne.
Qed.

Lemma acts_history_other key key0 w w' :
  key0 <> key -> acts (Wkey key) w w' -> history key0 w' = history key0 w.
Proof.
  intros Hne H. induction H as [|w1 w2 w3 H12 _ IH]; [done|].
  rewrite IH. by eapply act_history_other.
Qed.

Lemma last_snoc_eq {A} (l : list A) x : last (l ++ [x]) = Some x.
Proof. apply last_snoc. Qed.

Lemma act_consistent W w w' : consistent w -> act W w w' -> consistent w'.
Proof.
  intros Hc [Hr Hq Hl|k j j' Hk Hw Hr Hq Hl] key jk Hlk.
  - rewrite (history_same _ _ _ Hl). apply Hc. by eapply lookup_weaken.
  - rewrite Hr in Hlk. destruct (decide (k = key)) as [->|Hne].
    + rewrite lookup_insert_eq in Hlk. simplify_eq.
      rewrite (history_snoc_eq _ _ _ _ Hl). apply last_snoc_eq.
    + rewrite lookup_insert_ne in Hlk by done.
      rewrite (history_snoc_ne _ _ _ _ _ Hne Hl). by apply Hc.
Qed.

Lemma acts_consistent W w w' : consistent w -> acts W w w' -> consistent w'.
Proof.
  intros Hc H. induction H as [|w1 w2 w3 H12 _ IH]; [done|].
  apply IH. by eapply act_consistent.
Qed.

Lemma repeat_snoc {A} (x : A) k : repeat x k ++ [x] = repeat x (S k).
Proof. induction k as [|k IH]; [done|]. simpl. by rewrite IH. Qed.

(** While the record is being processed, a progress note keeps it so. *)
Lemma act_flying key w w' : flying key w -> act (Wp key) w w' -> flying key w'.
Proof.
  intros [[n Hn] Hq0] [Hr Hq Hl|k j j' Hk [-> Hs] Hr Hq Hl].
  - unfold flying. rewrite (history_same _ _ _ Hl). split; [by exists n|].
    intros Hh. by eapply lookup_weaken_None; [apply Hq0|].
  - unfold flying. rewrite (history_snoc_eq _ _ _ _ Hl), Hs, Hn.
    split.
    + exists (S n). simpl. by rewrite repeat_snoc.
    + intros Hh. destruct n; simplify_eq/=.
Qed.

Lemma acts_flying key w w' : flying key w -> acts (Wp key) w w' -> flying key w'.
Proof.
  intros Hf H. induction H as [|w1 w2 w3 H12 _ IH]; [done|].
  apply IH. by eapply act_flying.
Qed.

(** The last write of a record being processed gives its history one of the
    allowed shapes. *)
Lemma act_flying_end key w w' :
  flying key w -> act (Wt key) w w' -> shaped (history key w').
Proof.
  intros [[n Hn] Hq0] [Hr Hq Hl|k j j' Hk [-> Hs] Hr Hq Hl].
  - rewrite (history_same _ _ _ Hl). right. left. by exists n.
  - rewrite (history_snoc_eq _ _ _ _ Hl), Hn. right. right.
    destruct n as [|n]; [rewrite Hq0 in Hk; done|].
    exists n, (status j'). done.
Qed.


(** ** What each command does, as an [act] *)

Lemma runs_weaken (R R' : relation World) {A} (m : M A) :
  (forall w w', R w w' -> R' w w') -> runs R m -> runs R' m.
Proof. intros HR Hm w r w' H. eapply HR, Hm, H. Qed.

Lemma act_same W w w' :
  kv w' = kv w -> job_queue w' = job_queue w -> status_log w' = status_log w ->
  act W w w'.
Proof. intros Hk Hq Hl. apply act_shrink; [|done..]. unfold records. by rewrite Hk. Qed.

Lemma act_same_store W w w' : same_store w w' -> act W w w'.
Proof. intros (Hk & Hq & Hl & _). by apply act_same. Qed.

Lemma act_delete W key w w' :
  kv w' = delete key (kv w) -> job_queue w' = job_queue w ->
  status_log w' = status_log w -> act W w w'.
Proof.
  intros Hk Hq Hl. apply act_shrink; [|done..].
  unfold records. rewrite Hk, fmap_delete. apply delete_subseteq.
Qed.

Lemma redis_get_act W key : runs (act W) (redis_get key).
Proof.
  intros w r w' H.
  apply redis_get_inv in H as (_ & Hq & Hl & [(m & _ & Hk)|[[_ Hk]|[_ Hk]]]);
    eauto using act_same, act_delete.
Qed.

Lemma redis_delete_act W key : runs (act W) (redis_delete key).
Proof.
  intros w r w' H.
  apply redis_delete_inv in H as (_ & Hq & Hl & [(m & _ & Hk)|[_ Hk]]);
    eauto using act_same, act_delete.
Qed.

Lemma read_file_act W p : runs (act W) (read_file p).
Proof. intros w r w' H. apply read_file_inv in H as (Hs & _). by apply act_same_store. Qed.

Lemma write_output_act W name data : runs (act W) (write_output name data).
Proof. intros w r w' H. apply write_output_inv in H as (Hs & _). by apply act_same_store. Qed.

Lemma stat_mtime_act W name : runs (act W) (stat_mtime name).
Proof. intros w r w' H. apply stat_mtime_inv in H as (Hs & _). by apply act_same_store. Qed.

Lemma unlink_act W name : runs (act W) (unlink name).
Proof. intros w r w' H. apply unlink_inv in H as (Hs & _). by apply act_same_store. Qed.

Lemma shutdown_is_set_act W : runs (act W) shutdown_is_set.
Proof.
  intros w r w' H. apply shutdown_is_set_inv in H as (Hs & _). by apply act_same_store.
Qed.

Lemma rmtree_act W dir : runs (act W) (rmtree dir).
Proof. intros w r w' H. rewrite rmtree_inv in H. simplify_eq. by apply act_same. Qed.

Lemma upload_to_fal_inv env bytes w r w' :
  upload_to_fal env bytes w = (r, w') ->
  same_store w w' /\ scratch w' = scratch w /\ fal_calls w' = fal_calls w /\
  output w' = output w /\
  ((exists e, r = Raise e /\ uploads w' = uploads w) \/
   (exists url, r = Ok url /\ env_upload env (length (uploads w)) bytes = Ok url /\
                uploads w' = uploads w ++ [(bytes, url)])).
Proof.
  unfold upload_to_fal, bind, get_world, lift, modify, ret.
  destruct (env_upload env (length (uploads w)) bytes) as [url|e];
    intros; simplify_eq/=; unfold same_store; eauto 15.
Qed.

Lemma fal_subscribe_inv env args w r w' :
  fal_subscribe env args w = (r, w') ->
  same_store w w' /\ scratch w' = scratch w /\ uploads w' = uploads w /\
  output w' = output w /\ clock w' = clock w /\
  fal_calls w' = fal_calls w ++ [args] /\ r = env_subscribe env args.
Proof.
  unfold fal_subscribe, bind, lift, modify.
  intros; simplify_eq/=; unfold same_store; eauto 15.
Qed.

Lemma upload_to_fal_act W env bytes : runs (act W) (upload_to_fal env bytes).
Proof.
  intros w r w' H. apply upload_to_fal_inv in H as (Hs & _). by apply act_same_store.
Qed.

Lemma fal_subscribe_act W env args : runs (act W) (fal_subscribe env args).
Proof.
  intros w r w' H. apply fal_subscribe_inv in H as (Hs & _). by apply act_same_store.
Qed.

Lemma same_fs_trans w1 w2 w3 : same_fs w1 w2 -> same_fs w2 w3 -> same_fs w1 w3.
Proof.
  unfold same_fs. intros (?&?&?&?&?&?&?&?) (?&?&?&?&?&?&?&?).
  repeat split; congruence.
Qed.

(** What [update_job_status] does and when. *)
Lemma update_job_status_inv job_id st extra w r w' :
  update_job_status job_id st extra w = (r, w') ->
  let key := ("job:" ++ job_id)%string in
  same_fs w w' /\ job_queue w' = job_queue w /\
  ((status_log w' = status_log w /\
    (kv w' = kv w \/ kv w' = delete key (kv w)) /\
    ((exists m, r = Raise (ConnectionError m)) \/
     (r = Ok tt /\ kv w' !! key = None))) \/
   (exists j ttl, r = Ok tt /\ kv w !! key = Some (j, ttl) /\
      kv w' = <[key := (job_update extra (job_set_status st j), None)]> (kv w) /\
      status_log w' = status_log w ++ [(key, st)])).
Proof.
  intros H key. unfold update_job_status, bind in H. fold key in H.
  destruct (redis_get key w) as [rg w0] eqn:Eg.
  apply redis_get_inv in Eg
    as (Hfs & Hq & Hl & [(m & -> & Hk)|[[-> Hk]|[-> Hk]]]).
  - simplify_eq. split; [done|]. split; [done|]. left. eauto 10.
  - destruct (kv w !! key) as [[j ttl]|] eqn:Ej; simpl in H.
    + apply redis_set_inv in H as (Hfs2 & Hq2 & [(m & -> & Hk2 & Hl2)|(-> & Hk2 & Hl2)]).
      * split; [by eapply same_fs_trans|].
        split; [congruence|]. left. split; [congruence|].
        split; [left; congruence|]. eauto.
      * split; [by eapply same_fs_trans|].
        split; [congruence|]. right. exists j, ttl.
        rewrite Hk2, Hk, Hl2, Hl, job_update_status. done.
    + unfold ret in H. simplify_eq. split; [done|]. split; [done|]. left.
      split; [done|]. split; [by left|]. right. by rewrite Hk.
  - simpl in H. unfold ret in H. simplify_eq. split; [done|]. split; [done|]. left.
    split; [done|]. split; [by right|]. right. by rewrite Hk, lookup_delete_eq.
Qed.

Lemma update_job_status_act job_id st extra :
  runs (act (fun k s => k = ("job:" ++ job_id)%string /\ s = st))
       (update_job_status job_id st extra).
Proof.
  intros w r w' H. apply update_job_status_inv in H
    as (_ & Hq & [(Hl & [Hk|Hk] & _)|(j & ttl & _ & Hj & Hk & Hl)]).
  - by apply act_same.
  - by eapply act_delete.
  - eapply act_write with (j := j) (j' := job_update extra (job_set_status st j)).
    + unfold records. by rewrite lookup_fmap, Hj.
    + by rewrite job_update_status.
    + unfold records. by rewrite Hk, fmap_insert.
    + done.
    + by rewrite job_update_status.
Qed.


(** ** [process_job] and the history of its record *)

Lemma job_key_inj a b : ("job:" ++ a)%string = ("job:" ++ b)%string -> a = b.
Proof. simpl. intros H. by simplify_eq. Qed.

Lemma update_processing_acts job_id extra :
  runs (acts (Wp ("job:" ++ job_id))) (update_job_status job_id "processing" extra).
Proof.
  eapply runs_weaken; [|apply update_job_status_act]. intros w w'. apply act_acts.
Qed.

Lemma lift_acts W {A} (x : res A) : runs (acts W) (lift x).
Proof. apply runs_lift, _. Qed.

Lemma optimize_loop_acts env job_id n paths acc :
  runs (acts (Wp ("job:" ++ job_id))) (optimize_loop env job_id n paths acc).
Proof.
  revert acc. induction paths as [|[i p] paths IH]; intros acc; simpl.
  - apply runs_ret, _.
  - apply runs_bind; [apply _|apply update_processing_acts|intros _].
    apply runs_bind; [apply _| |intros data_url].
    { eapply runs_weaken; [|apply read_file_act]. intros w w'. apply act_acts. }
    apply runs_bind; [apply _|apply lift_acts|intros raw].
    apply runs_bind; [apply _|apply lift_acts|intros opt]. apply IH.
Qed.

Lemma upload_loop_acts env job_id n imgs acc :
  runs (acts (Wp ("job:" ++ job_id))) (upload_loop env job_id n imgs acc).
Proof.
  revert acc. induction imgs as [|[i b] imgs IH]; intros acc; simpl.
  - apply runs_ret, _.
  - apply runs_bind; [apply _|apply update_processing_acts|intros _].
    apply runs_bind; [apply _| |intros url; apply IH].
    eapply runs_weaken; [|apply upload_to_fal_act]. intros w w'. apply act_acts.
Qed.

(** The last update of the pipeline: the record is written [completed], or
    nothing is written. *)
Lemma update_completed_runs2 job_id extra :
  let key := ("job:" ++ job_id)%string in
  runs2 (then_rel (acts (Wp key)) (act (Wt key))) (acts (Wp key))
        (update_job_status job_id "completed" extra).
Proof.
  intros key w r w' H. pose proof (update_job_status_act _ _ _ _ _ _ H) as Ha.
  destruct r as [[]|e].
  - exists w. split; [apply rtc_refl|].
    eapply act_mono; [|exact Ha]. intros k s [-> ->]. split; [done|by left].
  - apply update_job_status_inv in H
      as (_ & Hq & [(Hl & [Hk|Hk] & _)|(j & ttl & ? & _)]); [| |done].
    + by apply act_acts, act_same.
    + by eapply act_acts, act_delete.
Qed.

Lemma pipeline_runs2 cfg env job_id job :
  let key := ("job:" ++ job_id)%string in
  runs2 (then_rel (acts (Wp key)) (act (Wt key))) (acts (Wp key))
        (pipeline cfg env job_id job).
Proof.
  intros key. unfold pipeline.
  apply runs2_bind; [apply _|apply optimize_loop_acts|intros opts].
  apply runs2_bind; [apply _|apply update_processing_acts|intros _].
  apply runs2_bind; [apply _|apply upload_loop_acts|intros urls].
  apply runs2_bind; [apply _|apply update_processing_acts|intros _].
  apply runs2_bind; [apply _| |intros [|result_url imgs]].
  { eapply runs_weaken; [|apply fal_subscribe_act]. intros w w'. apply act_acts. }
  { apply runs2_raise, _. }
  apply runs2_bind; [apply _|apply update_processing_acts|intros _].
  apply runs2_bind; [apply _|apply lift_acts|intros bytes].
  apply runs2_bind; [apply _| |intros _].
  { eapply runs_weaken; [|apply write_output_act]. intros w w'. apply act_acts. }
  apply runs2_bind; [apply _|apply runs_get_world, _|intros w0].
  apply update_completed_runs2.
Qed.

(** The [try ... except] of [process_job]: progress notes, then at most one
    last write, [completed] or [failed]. *)
Lemma guarded_pipeline_runs cfg env job_id job :
  let key := ("job:" ++ job_id)%string in
  runs (then_rel (acts (Wp key)) (act (Wt key)))
    (try_except (pipeline cfg env job_id job)
       (fun e => update_job_status job_id "failed"
                   [("error", Some (exn_str e)); ("status_detail", None)])).
Proof.
  intros key w r w' H. unfold try_except in H.
  destruct (pipeline cfg env job_id job w) as [[[]|e] w1] eqn:E;
    pose proof (pipeline_runs2 cfg env job_id job _ _ _ E) as Hp; simpl in Hp.
  - by simplify_eq.
  - exists w1. split; [done|].
    eapply act_mono; [|eapply update_job_status_act, H].
    intros k s [-> ->]. split; [done|by right].
Qed.

Lemma Wp_Wkey key k s : Wp key k s -> Wkey key k s.
Proof. by intros [-> _]. Qed.

Lemma Wt_Wkey key k s : Wt key k s -> Wkey key k s.
Proof. by intros [-> _]. Qed.

(** Whatever happens, [process_job] writes to its own record only. *)
Lemma process_job_acts cfg env job_id :
  runs (acts (Wkey ("job:" ++ job_id))) (process_job cfg env job_id).
Proof.
  unfold process_job.
  apply runs_bind; [apply _| |intros [job|]]; [|simpl|apply runs_ret, _].
  { eapply runs_weaken; [|apply redis_get_act]. intros w w'. apply act_acts. }
  apply runs_bind; [apply _| |intros _].
  { eapply runs_weaken; [|apply update_processing_acts].
    intros w w'. apply acts_mono, Wp_Wkey. }
  apply runs_try_finally; [apply _| |].
  - eapply runs_weaken; [|apply guarded_pipeline_runs].
    intros w w' (w1 & H1 & H2). etrans.
    + eapply acts_mono; [apply Wp_Wkey|exact H1].
    + apply act_acts. eapply act_mono; [apply Wt_Wkey|exact H2].
  - destruct (String.eqb (image_dir job) ""); [apply runs_ret, _|].
    eapply runs_weaken; [|apply rmtree_act]. intros w w'. apply act_acts.
Qed.


Lemma in_flight_shaped h : in_flight h -> shaped h.
Proof. intros H. right. by left. Qed.

(** The history of the record [process_job] works on, from [queued] on. *)
Lemma process_job_shape cfg env job_id w r w' :
  let key := ("job:" ++ job_id)%string in
  history key w = ["queued"%string] ->
  process_job cfg env job_id w = (r, w') ->
  shaped (history key w').
Proof.
  intros key Hh H. subst key. unfold process_job, bind in H.
  set (key := ("job:" ++ job_id)%string) in *.
  destruct (redis_get key w) as [rg w0] eqn:Eg.
  assert (history key w0 = ["queued"%string]) as Hh0.
  { apply redis_get_inv in Eg as (_ & _ & Hl & _). by rewrite (history_same _ _ _ Hl). }
  destruct rg as [[job|]|e]; [| |].
  2:{ unfold ret in H. simplify_eq. apply in_flight_shaped. by exists 0%nat. }
  2:{ simplify_eq. apply in_flight_shaped. by exists 0%nat. }
  destruct (update_job_status job_id "processing" _ w0) as [r1 w1] eqn:E1.
  assert (flying key w1 \/ (exists e, r1 = Raise e) /\ in_flight (history key w1)) as Hf.
  { apply update_job_status_inv in E1; fold key in E1; destruct E1 as (_ & _ & [(Hl & Hk & Hr)|(j & ttl & -> & _ & Hk & Hl)]).
    - rewrite <- (history_same key _ _ Hl) in Hh0.
      destruct Hr as [[m ->]|[-> Hn]].
      + right. split; [eauto|]. rewrite Hh0. by exists 0%nat.
      + left. split; [rewrite Hh0; by exists 0%nat|].
        intros _. unfold records. by rewrite lookup_fmap, Hn.
    - left. unfold flying. rewrite (history_snoc_eq _ _ _ _ Hl), Hh0. split.
      + by exists 1%nat.
      + simpl. intros; simplify_eq. }
  destruct Hf as [Hf|[[e ->] Hf]]; [|simplify_eq; by apply in_flight_shaped].
  destruct r1 as [[]|e]; [|simplify_eq; apply in_flight_shaped, Hf].
  unfold try_finally in H.
  destruct (try_except (pipeline cfg env job_id job) _ w1) as [r2 w2] eqn:E2.
  apply guarded_pipeline_runs in E2 as (wm & Hm & Ht).
  assert (shaped (history key w2)) as Hs.
  { eapply act_flying_end; [|exact Ht]. by eapply acts_flying. }
  destruct (String.eqb (image_dir job) "").
  - unfold ret in H. by simplify_eq.
  - rewrite rmtree_inv in H. by simplify_eq.
Qed.

(** A job taken from the queue and processed leaves the store in order. *)
Lemma process_job_Inv cfg env job_id w r w' :
  Inv w -> job_id ∉ job_queue w ->
  history ("job:" ++ job_id) w = ["queued"%string] ->
  process_job cfg env job_id w = (r, w') ->
  Inv w'.
Proof.
  intros (Hsh & [Hnd Hw] & Hc) Hnq Hh H.
  pose proof (process_job_acts cfg env job_id _ _ _ H) as Ha.
  split; [|split].
  - intros key. destruct (decide (key = ("job:" ++ job_id)%string)) as [->|Hne].
    + by eapply process_job_shape.
    + by rewrite (acts_history_other _ _ _ _ Hne Ha).
  - unfold waiting. rewrite (acts_queue _ _ _ Ha). split; [done|]. intros id Hid.
    assert (("job:" ++ id)%string <> ("job:" ++ job_id)%string) as Hne.
    { intros Heq. apply job_key_inj in Heq. by subst. }
    rewrite (acts_history_other _ _ _ _ Hne Ha). by apply Hw.
  - by eapply acts_consistent.
Qed.

(** Steps that write no status keep the store in order. *)
Lemma act_none_Inv w w' : Inv w -> act Wnone w w' -> Inv w'.
Proof.
  intros (Hsh & [Hnd Hw] & Hc) Ha.
  assert (status_log w' = status_log w) as Hl
    by (destruct Ha as [? ? ?|? ? ? ? []]; done).
  split; [|split].
  - intros key. by rewrite (history_same _ _ _ Hl).
  - unfold waiting. rewrite (act_queue _ _ _ Ha). split; [done|]. intros id Hid.
    rewrite (history_same _ _ _ Hl). by apply Hw.
  - by eapply act_consistent.
Qed.

Lemma acts_none_Inv w w' : Inv w -> acts Wnone w w' -> Inv w'.
Proof.
  intros Hi H. induction H as [|w1 w2 w3 H12 _ IH]; [done|].
  apply IH. by eapply act_none_Inv.
Qed.

Lemma tick_act W d w : act W w (tick d w).
Proof.
  apply act_shrink; [|done..]. unfold records. simpl.
  apply map_subseteq_spec. intros key j.
  rewrite !lookup_fmap, lookup_omap.
  destruct (kv w !! key) as [[j0 [t|]]|]; simpl; [|done..].
  by destruct (t <=? d).
Qed.

Lemma sleep_act W d : runs (act W) (sleep d).
Proof. intros w r w' H. unfold sleep, modify in H. simplify_eq. apply tick_act. Qed.


(** ** The worker loop, turn by turn *)

Lemma acts_none_same w w' :
  acts Wnone w w' -> status_log w' = status_log w /\ job_queue w' = job_queue w.
Proof.
  intros H. induction H as [|w1 w2 w3 H12 _ [IH1 IH2]]; [done|].
  rewrite IH1, IH2. destruct H12 as [? ? ?|? ? ? ? []]. done.
Qed.

(** The [except] clauses of [main]: a look at the flag and a sleep. *)
Lemma main_handler_acts e :
  runs (acts Wnone)
    (do sd <- shutdown_is_set;
     if (sd : bool) then ret tt
     else match e with ConnectionError _ => sleep 5 | _ => sleep 1 end).
Proof.
  apply runs_bind; [apply _| |intros [|]].
  - eapply runs_weaken; [|apply shutdown_is_set_act]. intros w w'. apply act_acts.
  - apply runs_ret, _.
  - destruct e; (eapply runs_weaken; [|apply sleep_act]); intros w w'; apply act_acts.
Qed.

(** One turn of the loop: the [brpop], then either nothing more, or the id
    that was taken is dropped, or it is processed. *)
Lemma main_iteration_inv cfg env w r w' :
  main_iteration cfg env w = (r, w') ->
  exists w1, kv w1 = kv w /\ status_log w1 = status_log w /\
    ((job_queue w1 = job_queue w /\ acts Wnone w1 w') \/
     (exists id, last (job_queue w) = Some id /\
        job_queue w1 = removelast (job_queue w) /\
        (acts Wnone w1 w' \/
         exists wa rp w2, acts Wnone w1 wa /\
           process_job cfg env id wa = (rp, w2) /\ acts Wnone w2 w'))).
Proof.
  intros H. unfold main_iteration, try_except in H.
  match type of H with
  | context [bind redis_brpop ?k] => set (body := k) in *
  end.
  unfold bind in H at 1.
  destruct (redis_brpop w) as [rb wb] eqn:Eb.
  apply redis_brpop_inv in Eb
    as (_ & Hk & Hl & [(id & -> & Hlast & Hq)|([->|[m ->]] & Hq)]);
    exists wb; (split; [done|]); (split; [done|]).
  - right. exists id. split; [done|]. split; [done|].
    subst body. cbv beta iota in H. unfold bind in H at 1.
    destruct (shutdown_is_set wb) as [rs ws] eqn:Es.
    pose proof (shutdown_is_set_act Wnone _ _ _ Es) as Has.
    apply shutdown_is_set_inv in Es as (_ & _ & _ & _ & _ & _ & sd & ->).
    destruct sd.
    + unfold ret in H. simplify_eq. left. by apply act_acts.
    + destruct (process_job cfg env id ws) as [[[]|e] w2] eqn:Ep.
      * simplify_eq. right. exists ws, (Ok tt), w'.
        split; [by apply act_acts|]. split; [done|apply rtc_refl].
      * right. exists ws, (Raise e), w2.
        split; [by apply act_acts|]. split; [done|].
        eapply main_handler_acts, H.
  - left. split; [done|]. subst body. cbv beta iota in H. unfold ret in H.
    simplify_eq. apply rtc_refl.
  - left. split; [done|]. exact (main_handler_acts (ConnectionError m) _ _ _ H).
Qed.

Lemma removelast_last_app {A} (q : list A) x :
  last q = Some x -> q = removelast q ++ [x].
Proof.
  intros H. apply last_snoc_rev in H.
  apply (f_equal (@rev A)) in H. rewrite rev_involutive in H.
  rewrite H at 1. simpl. by rewrite rev_involutive.
Qed.

(** Taking the oldest id from the queue. *)
Lemma pop_Inv w w1 id :
  Inv w -> kv w1 = kv w -> status_log w1 = status_log w ->
  last (job_queue w) = Some id -> job_queue w1 = removelast (job_queue w) ->
  Inv w1 /\ (id ∉ job_queue w1) /\ history ("job:" ++ id) w1 = ["queued"%string].
Proof.
  intros (Hsh & [Hnd Hw] & Hc) Hk Hl Hlast Hq.
  pose proof (removelast_last_app _ _ Hlast) as Hsplit.
  rewrite Hsplit in Hnd. apply NoDup_app in Hnd as (Hnd1 & Hdisj & _).
  assert (forall id', id' ∈ removelast (job_queue w) -> id' ∈ job_queue w) as Hsub.
  { intros id' Hin. rewrite Hsplit. apply elem_of_app. by left. }
  assert (id ∈ job_queue w) as Hin.
  { rewrite Hsplit. apply elem_of_app. right. by apply list_elem_of_singleton. }
  split; [split; [|split]|split].
  - intros key. by rewrite (history_same _ _ _ Hl).
  - unfold waiting. rewrite Hq. split; [done|]. intros id' Hid'.
    rewrite (history_same _ _ _ Hl). by apply Hw, Hsub.
  - intros key j. unfold records. rewrite Hk, (history_same _ _ _ Hl). apply Hc.
  - rewrite Hq. intros Hid. apply (Hdisj id Hid). by apply list_elem_of_singleton.
  - rewrite (history_same _ _ _ Hl). by apply Hw.
Qed.

Lemma main_iteration_Inv cfg env w r w' :
  Inv w -> main_iteration cfg env w = (r, w') -> Inv w'.
Proof.
  intros Hi H. apply main_iteration_inv in H
    as (w1 & Hk & Hl & [[Hq Ha]|(id & Hlast & Hq & Hrest)]).
  - eapply acts_none_Inv; [|exact Ha].
    eapply act_none_Inv; [exact Hi|]. by apply act_same.
  - destruct (pop_Inv _ _ _ Hi Hk Hl Hlast Hq) as (Hi1 & Hnq & Hh).
    destruct Hrest as [Ha|(wa & rp & w2 & Ha & Hp & Ha2)].
    + by eapply acts_none_Inv.
    + eapply acts_none_Inv; [|exact Ha2].
      destruct (acts_none_same _ _ Ha) as [Hla Hqa].
      eapply process_job_Inv; [by eapply acts_none_Inv| | |exact Hp].
      * by rewrite Hqa.
      * by rewrite (history_same _ _ _ Hla).
Qed.

Lemma main_loop_Inv cfg env fuel w r w' :
  Inv w -> main_loop cfg fuel env w = (r, w') -> Inv w'.
Proof.
  revert w. induction fuel as [|fuel IH]; intros w Hi H; simpl in H.
  - unfold ret in H. by simplify_eq.
  - unfold bind in H at 1. destruct (shutdown_is_set w) as [rs ws] eqn:Es.
    pose proof (shutdown_is_set_act Wnone _ _ _ Es) as Has.
    apply shutdown_is_set_inv in Es as (_ & _ & _ & _ & _ & _ & sd & ->).
    destruct sd.
    + unfold ret in H. simplify_eq. by eapply act_none_Inv.
    + unfold bind in H. destruct (main_iteration cfg env ws) as [[[]|e] w2] eqn:Em.
      * eapply IH; [|exact H]. eapply main_iteration_Inv; [|exact Em].
        by eapply act_none_Inv.
      * simplify_eq. eapply main_iteration_Inv; [|exact Em].
        by eapply act_none_Inv.
Qed.


(** ** Submissions *)

#[local] Instance same3_preorder : PreOrder same3.
Proof.
  split; [by intros w|]. intros w1 w2 w3 (?&?&?) (?&?&?).
  unfold same3. repeat split; congruence.
Qed.

Lemma same_store_same3 w w' : same_store w w' -> same3 w w'.
Proof. by intros (?&?&?&_). Qed.

Lemma write_images_same3 dir imgs acc : runs same3 (write_images dir imgs acc).
Proof.
  revert acc. induction imgs as [|[i img] imgs IH]; intros acc; simpl.
  - apply runs_ret, _.
  - apply runs_bind; [apply _| |intros _; apply IH].
    intros w r w' H. apply write_file_inv in H as (Hs & _). by apply same_store_same3.
Qed.

Lemma staging_same3 dir imgs :
  runs same3
    (try_except (write_images dir imgs [])
       (fun e => rmtree dir ;;
                 raise (HTTPException 500 ("Failed to save images: " ++ exn_str e)))).
Proof.
  apply runs_try_except; [apply _|apply write_images_same3|intros e].
  apply runs_bind; [apply _| |intros _; apply runs_raise, _].
  intros w r w' H. rewrite rmtree_inv in H. by simplify_eq.
Qed.

(** What a submission does to records, queue and history: nothing, or it
    stores the new record, [queued], and then pushes its id unless Redis
    refuses the push. *)
Lemma create_job_store cfg uuid request w r w' :
  create_job cfg uuid request w = (r, w') ->
  let key := ("job:" ++ uuid)%string in
  same3 w w' \/
  (exists job ttl, status job = "queued"%string /\
     kv w' = <[key := (job, Some ttl)]> (kv w) /\
     status_log w' = status_log w ++ [(key, "queued"%string)] /\
     (job_queue w' = job_queue w \/ job_queue w' = uuid :: job_queue w)).
Proof.
  intros H key. unfold create_job in H. unfold bind in H at 1.
  destruct (redis_llen w) as [rl w0] eqn:El.
  apply redis_llen_inv in El as (_ & Hk0 & Hq0 & Hl0 & Hrl).
  assert (same3 w w0) as H0 by done.
  destruct Hrl as [->|[m ->]]; [|simplify_eq; by left].
  cbv beta iota in H.
  destruct (MAX_QUEUED_JOBS <=? length (job_queue w))%nat;
    [unfold raise in H; simplify_eq; by left|].
  destruct (length (images request) <? MIN_IMAGES)%nat;
    [unfold raise in H; simplify_eq; by left|].
  destruct (MAX_IMAGES <? length (images request))%nat;
    [unfold raise in H; simplify_eq; by left|].
  unfold bind in H at 1.
  destruct (check_sizes (enumerate (images request)) 0 w0) as [rc w1] eqn:Ec.
  apply check_sizes_spec in Ec as [-> [[t ->]|[d ->]]]; [|simplify_eq; by left].
  cbv beta iota in H.
  destruct (MAX_TOTAL_SIZE <? t); [unfold raise in H; simplify_eq; by left|].
  destruct (negb (str_in (req_style request) (map fst STYLE_PRESETS)));
    [unfold raise in H; simplify_eq; by left|].
  destruct (negb (str_in (req_aspect_ratio request) ASPECT_RATIOS));
    [unfold raise in H; simplify_eq; by left|].
  cbv zeta in H. unfold bind in H at 1.
  destruct (makedirs _ w0) as [rm w2] eqn:Em.
  apply makedirs_inv in Em as (Hs2 & _). apply same_store_same3 in Hs2.
  assert (same3 w w2) as H2 by (by etrans).
  destruct rm as [[]|e]; [|simplify_eq; by left].
  unfold bind in H at 1.
  destruct (try_except _ _ w2) as [rt w3] eqn:Et.
  apply staging_same3 in Et.
  assert (same3 w w3) as H3 by (by etrans).
  destruct rt as [paths|e]; [|simplify_eq; by left].
  unfold bind in H at 1. unfold get_world in H at 1. cbv beta iota in H.
  unfold bind in H at 1.
  destruct (redis_setex _ _ _ w3) as [rs w4] eqn:Es.
  fold key in Es.
  apply redis_setex_inv in Es as (_ & Hq4 & [(m & -> & Hk4 & Hl4)|(-> & Hk4 & Hl4)]).
  { simplify_eq. left. etrans; [exact H3|]. done. }
  unfold bind in H.
  destruct (redis_lpush uuid w4) as [rp w5] eqn:Ep.
  apply redis_lpush_inv in Ep as (_ & Hk5 & Hl5 & Hq5).
  destruct H3 as (Hk3 & Hq3 & Hl3). right.
  assert (w' = w5) as -> by (destruct rp; unfold ret in H; by simplify_eq).
  eexists _, _. split; [|split; [rewrite Hk5, Hk4, Hk3; reflexivity|split]].
  - reflexivity.
  - by rewrite Hl5, Hl4, Hl3.
  - destruct Hq5 as [[_ Hq5]|(m & _ & Hq5)]; rewrite Hq5, Hq4, Hq3; eauto.
Qed.


Lemma create_job_Inv cfg uuid request w r w' :
  Inv w -> fresh uuid w -> create_job cfg uuid request w = (r, w') -> Inv w'.
Proof.
  intros Hi Hf H. apply create_job_store in H
    as [(Hk & Hq & Hl)|(job & ttl & Hst & Hk & Hl & Hq)].
  { eapply act_none_Inv; [exact Hi|]. by apply act_same. }
  destruct Hi as (Hsh & [Hnd Hw] & Hc). unfold fresh in Hf.
  set (key := ("job:" ++ uuid)%string) in *.
  assert (forall id, id ∈ job_queue w -> ("job:" ++ id)%string <> key) as Hother.
  { intros id Hid Heq. apply Hw in Hid. rewrite Heq, Hf in Hid. done. }
  assert (uuid ∉ job_queue w) as Hnew.
  { intros Hin. by apply (Hother _ Hin). }
  split; [|split].
  - intros key'. rewrite (history_snoc _ _ _ _ _ Hl).
    destruct (String.eqb_spec key key') as [<-|Hne]; [|apply Hsh].
    rewrite Hf. right. left. by exists 0%nat.
  - split.
    + destruct Hq as [->| ->]; [done|]. by apply NoDup_cons.
    + intros id Hid. rewrite (history_snoc _ _ _ _ _ Hl).
      destruct (String.eqb_spec key ("job:" ++ id)) as [Heq|Hne].
      * rewrite <- Heq, Hf. done.
      * apply Hw. destruct Hq as [Hq|Hq]; rewrite Hq in Hid; [done|].
        apply elem_of_cons in Hid as [->|Hid]; [done|done].
  - intros key' j. unfold records. rewrite Hk, fmap_insert, (history_snoc _ _ _ _ _ Hl).
    destruct (String.eqb_spec key key') as [<-|Hne].
    + rewrite lookup_insert_eq, Hf. intros; simplify_eq. simpl. by rewrite Hst.
    + rewrite lookup_insert_ne by done. apply Hc.
Qed.

(** ** The reaper writes no status *)

Lemma reap_file_acts now expiry name : runs (acts Wnone) (reap_file now expiry name).
Proof.
  unfold reap_file. apply runs_bind; [apply _| |intros mtime].
  { eapply runs_weaken; [|apply stat_mtime_act]. intros w w'. apply act_acts. }
  destruct (expiry <? now - mtime); [|apply runs_ret, _].
  apply runs_bind; [apply _| |intros _].
  - eapply runs_weaken; [|apply unlink_act]. intros w w'. apply act_acts.
  - eapply runs_weaken; [|apply redis_delete_act]. intros w w'. apply act_acts.
Qed.

Lemma cleanup_expired_images_acts cfg : runs (acts Wnone) (cleanup_expired_images cfg).
Proof.
  unfold cleanup_expired_images.
  apply runs_try_except; [apply _| |intros e; apply runs_ret, _].
  apply runs_bind; [apply _|apply runs_get_world, _|intros w0].
  apply runs_for_each; [apply _|]. intros name. apply reap_file_acts.
Qed.

Lemma cleanup_worker_iteration_acts cfg :
  runs (acts Wnone) (cleanup_worker_iteration cfg).
Proof.
  unfold cleanup_worker_iteration. apply runs_bind; [apply _| |intros [|]].
  - eapply runs_weaken; [|apply shutdown_is_set_act]. intros w w'. apply act_acts.
  - apply runs_ret, _.
  - apply cleanup_expired_images_acts.
Qed.

(** ** The invariant of the system (C5) *)

Lemma step_Inv cfg w w' : Inv w -> step cfg w w' -> Inv w'.
Proof.
  intros Hi Hs. revert Hi.
  destruct Hs as [uuid request w0 Hf|fuel env w0|w0|d w0 Hd|st fs sg w0]; intros Hi.
  - unfold exec. destruct (create_job cfg uuid request w0) as [r w1] eqn:E.
    simpl. eapply create_job_Inv; eauto.
  - unfold exec. destruct (main_loop cfg fuel env w0) as [r w1] eqn:E.
    simpl. eapply main_loop_Inv; eauto.
  - eapply acts_none_Inv; [exact Hi|].
    apply runs_exec; first [apply _|apply cleanup_worker_iteration_acts].
  - eapply act_none_Inv; [exact Hi|apply tick_act].
  - eapply act_none_Inv; [exact Hi|]. by apply act_same.
Qed.

Lemma initial_Inv w : initial w -> Inv w.
Proof.
  intros (Hk & Hq & Hl). split; [|split].
  - intros key. left. unfold history. by rewrite Hl.
  - unfold waiting. rewrite Hq. split; [apply NoDup_nil_2|]. intros id Hid.
    by apply elem_of_nil in Hid.
  - intros key j. unfold records. by rewrite Hk, fmap_empty, lookup_empty.
Qed.

Lemma reachable_Inv cfg w : reachable cfg w -> Inv w.
Proof.
  induction 1 as [w Hi|w w' _ IH Hs]; [by apply initial_Inv|by eapply step_Inv].
Qed.

Lemma chain_processing k tl :
  tl = [] \/ tl = ["completed"%string] \/ tl = ["failed"%string] ->
  chain "processing" (repeat "processing"%string k ++ tl) = true.
Proof.
  intros Htl. induction k as [|k IH]; simpl.
  - by destruct Htl as [->|[->| ->]].
  - exact IH.
Qed.

Lemma shaped_valid h : shaped h -> valid_history h = true.
Proof.
  intros [->|[[k ->]|(k & t & -> & Ht)]]; [done| |].
  - destruct k as [|k]; [done|]. simpl.
    rewrite <- (app_nil_r (repeat _ k)). apply chain_processing. by left.
  - simpl. apply chain_processing. destruct Ht as [->| ->]; eauto.
Qed.

Lemma shaped_last h s : shaped h -> last h = Some s -> is_status s.
Proof.
  intros [->|[[k ->]|(k & t & -> & Ht)]] Hl; [done| |].
  - destruct k as [|k]; [simpl in Hl; simplify_eq; by left|].
    rewrite <- repeat_snoc, app_comm_cons, last_snoc in Hl. simplify_eq.
    right. by left.
  - rewrite app_comm_cons, last_snoc in Hl. simplify_eq.
    right. right. done.
Qed.

(** C5: in every reachable world, the statuses ever written to a record
    start at [queued] and only move along
    [queued -> processing -> (completed | failed)], a progress note
    rewriting [processing] over itself; nothing is written after
    [completed] or [failed].  A record in the store carries the status
    written last, which is one of the four. *)
Theorem C5_status_moves_forward cfg w :
  reachable cfg w ->
  (forall key, valid_history (history key w) = true) /\
  (forall key j ttl, kv w !! key = Some (j, ttl) ->
     is_status (status j) /\ last (history key w) = Some (status j)).
Proof.
  intros Hr. destruct (reachable_Inv _ _ Hr) as (Hsh & _ & Hc). split.
  - intros key. apply shaped_valid, Hsh.
  - intros key j ttl Hk.
    assert (last (history key w) = Some (status j)) as Hl.
    { apply Hc. unfold records. by rewrite lookup_fmap, Hk. }
    split; [|done]. eapply shaped_last; [apply Hsh|exact Hl].
Qed.


(** ** An id taken from the queue and dropped (C10) *)

Lemma steps_Inv cfg w w' : Inv w -> steps cfg w w' -> Inv w'.
Proof.
  intros Hi H. induction H as [|w1 w2 w3 H12 _ IH]; [done|].
  apply IH. by eapply step_Inv.
Qed.

Lemma same3_parked id w w' :
  job_queue w' = job_queue w -> status_log w' = status_log w ->
  parked id w -> parked id w'.
Proof.
  intros Hq Hl [Hn Hh]. split; [by rewrite Hq|]. by rewrite (history_same _ _ _ Hl).
Qed.

Lemma acts_none_parked id w w' : acts Wnone w w' -> parked id w -> parked id w'.
Proof. intros Ha. destruct (acts_none_same _ _ Ha). by apply same3_parked. Qed.

Lemma main_iteration_parked cfg env id w r w' :
  parked id w -> main_iteration cfg env w = (r, w') -> parked id w'.
Proof.
  intros [Hn Hh] H. apply main_iteration_inv in H
    as (w1 & Hk & Hl & [[Hq Ha]|(id' & Hlast & Hq & Hrest)]).
  - eapply acts_none_parked; [exact Ha|]. by apply (same3_parked id w).
  - pose proof (removelast_last_app _ _ Hlast) as Hsplit.
    assert (id' <> id) as Hne.
    { intros ->. apply Hn. rewrite Hsplit. apply elem_of_app. right.
      by apply list_elem_of_singleton. }
    assert (parked id w1) as Hp1.
    { split; [|by rewrite (history_same _ _ _ Hl)].
      rewrite Hq. intros Hin. apply Hn. rewrite Hsplit. apply elem_of_app. by left. }
    destruct Hrest as [Ha|(wa & rp & w2 & Ha & Hp & Ha2)].
    + by eapply acts_none_parked.
    + eapply acts_none_parked; [exact Ha2|].
      apply (acts_none_parked id) in Ha; [|done]. destruct Ha as [Hna Hha].
      pose proof (process_job_acts cfg env id' _ _ _ Hp) as Hacts.
      assert (("job:" ++ id)%string <> ("job:" ++ id')%string) as Hkne.
      { intros Heq. apply job_key_inj in Heq. by subst. }
      split; [by rewrite (acts_queue _ _ _ Hacts)|].
      by rewrite (acts_history_other _ _ _ _ Hkne Hacts).
Qed.

Lemma main_loop_parked cfg env fuel id w r w' :
  parked id w -> main_loop cfg fuel env w = (r, w') -> parked id w'.
Proof.
  revert w. induction fuel as [|fuel IH]; intros w Hp H; simpl in H.
  - unfold ret in H. by simplify_eq.
  - unfold bind in H at 1. destruct (shutdown_is_set w) as [rs ws] eqn:Es.
    apply shutdown_is_set_inv in Es as ((_ & Hq & Hl & _) & _ & _ & _ & _ & _ & sd & ->).
    apply (same3_parked id w ws Hq Hl) in Hp.
    destruct sd.
    + unfold ret in H. by simplify_eq.
    + unfold bind in H. destruct (main_iteration cfg env ws) as [[[]|e] w2] eqn:Em.
      * eapply IH; [|exact H]. by eapply main_iteration_parked.
      * simplify_eq. by eapply main_iteration_parked.
Qed.

Lemma step_parked cfg id w w' : parked id w -> step cfg w w' -> parked id w'.
Proof.
  intros Hp Hs. revert Hp.
  destruct Hs as [uuid request w0 Hf|fuel env w0|w0|d w0 Hd|st fs sg w0]; intros Hp.
  - unfold exec. destruct (create_job cfg uuid request w0) as [r w1] eqn:E. simpl.
    apply create_job_store in E as [(Hk & Hq & Hl)|(job & ttl & Hst & Hk & Hl & Hq)].
    { by apply (same3_parked id w0). }
    destruct Hp as [Hn Hh]. unfold fresh in Hf.
    assert (uuid <> id) as Hne by (intros ->; rewrite Hf in Hh; done).
    split.
    + destruct Hq as [->| ->]; [done|]. by apply not_elem_of_cons.
    + assert (("job:" ++ uuid)%string <> ("job:" ++ id)%string) as Hkne.
      { intros Heq. apply job_key_inj in Heq. done. }
      by rewrite (history_snoc_ne _ _ _ _ _ Hkne Hl).
  - unfold exec. destruct (main_loop cfg fuel env w0) as [r w1] eqn:E. simpl.
    by eapply main_loop_parked.
  - eapply acts_none_parked; [|exact Hp].
    apply runs_exec; first [apply _|apply cleanup_worker_iteration_acts].
  - by apply (same3_parked id w0).
  - by apply (same3_parked id w0).
Qed.

Lemma steps_parked cfg id w w' : parked id w -> steps cfg w w' -> parked id w'.
Proof.
  intros Hp H. induction H as [|w1 w2 w3 H12 _ IH]; [done|].
  apply IH. by eapply step_parked.
Qed.

(** C10: when the blocking dequeue has returned an id and the flag is
    found set before processing begins, the turn of the loop ends there:
    nothing is written to the store (the job is not processed), the id is
    no longer in the queue (it is not pushed back), and in every later
    world the id is still out of the queue, no status has been written to
    its record since the [queued] of the submission, and the record, as
    long as it is in the store, is [queued]. *)
Theorem C10_dropped_id_stays_queued cfg env w id w1 w2 :
  let key := ("job:" ++ id)%string in
  reachable cfg w ->
  redis_brpop w = (Ok (Some id), w1) ->
  shutdown_is_set w1 = (Ok true, w2) ->
  main_iteration cfg env w = (Ok tt, w2) /\
  kv w2 = kv w /\ status_log w2 = status_log w /\ (id ∉ job_queue w2) /\
  forall w', steps cfg w2 w' ->
    (id ∉ job_queue w') /\ history key w' = ["queued"%string] /\
    forall j ttl, kv w' !! key = Some (j, ttl) -> status j = "queued"%string.
Proof.
  intros key Hr Hb Hs.
  assert (main_iteration cfg env w = (Ok tt, w2)) as Hm.
  { unfold main_iteration, try_except, bind. by rewrite Hb, Hs. }
  pose proof (reachable_Inv _ _ Hr) as Hi.
  pose proof (main_iteration_Inv _ _ _ _ _ Hi Hm) as Hi2.
  apply redis_brpop_inv in Hb
    as (_ & Hk1 & Hl1 & [(x & Hx & Hlast & Hq1)|([?|[m ?]] & _)]); [|done..].
  simplify_eq.
  destruct (pop_Inv _ _ _ Hi Hk1 Hl1 Hlast Hq1) as (_ & Hn1 & Hh1).
  apply shutdown_is_set_inv in Hs as ((Hk2 & Hq2 & Hl2 & _) & _).
  assert (parked x w2) as Hp2.
  { apply (same3_parked x w1); [done..|]. by split. }
  split; [done|]. split; [congruence|]. split; [congruence|].
  split; [apply Hp2|].
  intros w' Hsteps.
  destruct (steps_parked _ _ _ _ Hp2 Hsteps) as [Hn' Hh'].
  split; [done|]. split; [done|].
  intros j ttl Hj. destruct (steps_Inv _ _ _ Hi2 Hsteps) as (_ & _ & Hc).
  specialize (Hc key j). unfold records in Hc. rewrite lookup_fmap, Hj in Hc.
  specialize (Hc eq_refl). fold key in Hh'. rewrite Hh' in Hc. simpl in Hc.
  by simplify_eq.
Qed.


(** ** The order of the images (C7) *)

(** Up to [MAX_IMAGES] images, no two share a scratch file name. *)
Lemma img_name_inj_small i j :
  (i < 6)%nat -> (j < 6)%nat -> img_name i = img_name j -> i = j.
Proof.
  intros Hi Hj H.
  do 6 (destruct i as [|i];
        [do 6 (destruct j as [|j];
               [first [reflexivity | vm_compute in H; discriminate]|]); lia|]).
  lia.
Qed.

Lemma write_images_ok dir imgs : forall k acc w paths w' files0,
  write_images dir (enumerate_from k imgs) acc w = (Ok paths, w') ->
  scratch w !! dir = Some files0 ->
  (k + length imgs <= 6)%nat ->
  same3 w w' /\
  paths = acc ++ scratch_paths dir k (length imgs) /\
  exists files, scratch w' !! dir = Some files /\
    (forall i img, imgs !! i = Some img -> files !! img_name (k + i) = Some img) /\
    (forall j, (j < k)%nat -> files !! img_name j = files0 !! img_name j).
Proof.
  induction imgs as [|img imgs IH]; intros k acc w paths w' files0 H Hd Hk; simpl in *.
  - unfold ret in H. simplify_eq. split; [done|]. split; [by rewrite app_nil_r|].
    exists files0. split; [done|]. split; [|done]. intros i x Hx. done.
  - unfold bind in H at 1.
    destruct (write_file (dir, img_name k) img w) as [[[]|e] w1] eqn:E; [|done].
    apply write_file_inv in E
      as (Hs & _ & _ & _ & [(m & ? & _)|(files & _ & Hf & Hsc)]); [done|].
    simpl in Hf, Hsc. rewrite Hd in Hf. simplify_eq.
    assert (scratch w1 !! dir = Some (<[img_name k := img]> files)) as Hd1.
    { by rewrite Hsc, lookup_insert_eq. }
    destruct (IH (S k) _ _ _ _ _ H Hd1 ltac:(lia))
      as (H3 & -> & files' & Hd' & Hnew & Hold).
    split; [etrans; [by apply same_store_same3|exact H3]|].
    split; [by rewrite <- app_assoc|].
    exists files'. split; [done|]. split.
    + intros [|i] x Hx; simpl in Hx.
      * simplify_eq. rewrite Nat.add_0_r, Hold by lia. by rewrite lookup_insert_eq.
      * rewrite <- Nat.add_succ_comm. by apply Hnew.
    + intros j Hj. rewrite Hold by lia. apply lookup_insert_ne.
      intros Heq. apply img_name_inj_small in Heq; lia.
Qed.




#[local] Instance quiet_preorder : PreOrder quiet.
Proof.
  split; [by intros w|]. intros w1 w2 w3 (?&?&?) (?&?&?).
  unfold quiet. repeat split; congruence.
Qed.

#[local] Instance calm_preorder : PreOrder calm.
Proof.
  split; [by intros w|]. intros w1 w2 w3 (?&?) (?&?).
  unfold calm. split; congruence.
Qed.

#[local] Instance silent_preorder : PreOrder silent.
Proof. split; [by intros w|]. intros w1 w2 w3 ? ?. unfold silent in *. congruence. Qed.





















(** ** The allow list of addresses (settings.py) *)

Lemma lstrip_length s : (String.length (lstrip s) <= String.length s)%nat.
Proof.
  induction s as [|c s IH]; simpl; [done|]. destruct (is_space c); simpl; lia.
Qed.

Lemma lstrip_fixed c s : lstrip (String c s) = String c s -> is_space c = false.
Proof.
  simpl. destruct (is_space c); [|done]. intros H.
  pose proof (lstrip_length s) as Hl. rewrite H in Hl. simpl in Hl. lia.
Qed.

Lemma lstrip_idem s : lstrip (lstrip s) = lstrip s.
Proof.
  induction s as [|c s IH]; simpl; [done|].
  destruct (is_space c) eqn:E; [done|]. simpl. by rewrite E.
Qed.

Lemma rstrip_idem s : rstrip (rstrip s) = rstrip s.
Proof.
  induction s as [|c s IH]; simpl; [done|].
  destruct (rstrip s) as [|c' r] eqn:E.
  - destruct (is_space c) eqn:Ec; simpl; [done|]. by rewrite Ec.
  - simpl in *. by rewrite IH.
Qed.

Lemma lstrip_rstrip_clean s : lstrip s = s -> lstrip (rstrip s) = rstrip s.
Proof.
  destruct s as [|c s]; [done|]. intros H. apply lstrip_fixed in H.
  simpl. destruct (rstrip s); rewrite ?H; simpl; by rewrite H.
Qed.

Lemma str_has_lstrip c s : str_has c s = false -> str_has c (lstrip s) = false.
Proof.
  induction s as [|c' s IH]; simpl; [done|]. intros H.
  apply orb_false_iff in H as [H1 H2].
  destruct (is_space c'); [by apply IH|]. simpl. by rewrite H1, H2.
Qed.

Lemma str_has_rstrip c s : str_has c s = false -> str_has c (rstrip s) = false.
Proof.
  induction s as [|c' s IH]; simpl; [done|]. intros H.
  apply orb_false_iff in H as [H1 H2]. specialize (IH H2).
  destruct (rstrip s) as [|c'' r].
  - destruct (is_space c'); simpl; [done|]. by rewrite H1.
  - simpl in *. by rewrite H1, IH.
Qed.

Lemma split_on_no_sep sep s p : p ∈ split_on sep s -> str_has sep p = false.
Proof.
  revert p. induction s as [|c s IH]; intros p; simpl.
  - intros H. apply list_elem_of_singleton in H. by subst.
  - destruct (Ascii.eqb c sep) eqn:E.
    + intros H. apply elem_of_cons in H as [->|H]; [done|by apply IH].
    + destruct (split_on sep s) as [|h t].
      * intros H. apply list_elem_of_singleton in H. subst. simpl. by rewrite E.
      * intros H. apply elem_of_cons in H as [->|H].
        -- simpl. rewrite E. simpl. apply IH. by left.
        -- apply IH. by right.
Qed.

(** Every address of the allow list is a non-empty, comma-free piece of
    the setting with no white space left at either end. *)
Theorem allowed_ips_list_entries api_allowed_ips ip :
  ip ∈ allowed_ips_list api_allowed_ips ->
  ip <> ""%string /\ lstrip ip = ip /\ rstrip ip = ip /\ str_has comma ip = false.
Proof.
  unfold allowed_ips_list. intros H.
  apply list_elem_of_fmap in H as (p & -> & Hp).
  apply list_elem_of_In, List.filter_In in Hp as [Hin Hne].
  apply list_elem_of_In in Hin.
  split; [|split; [|split]].
  - unfold nonempty in Hne. apply negb_true_iff, String.eqb_neq in Hne. done.
  - unfold strip. apply lstrip_rstrip_clean, lstrip_idem.
  - unfold strip. apply rstrip_idem.
  - unfold strip. apply str_has_rstrip, str_has_lstrip. by eapply split_on_no_sep.
Qed.

(** ** The address check of the middleware (main.py) *)

Lemma str_in_spec s l : str_in s l = true <-> s ∈ l.
Proof.
  unfold str_in. rewrite existsb_exists. split.
  - intros (x & Hx & He). apply String.eqb_eq in He. subst. by apply list_elem_of_In.
  - intros H. exists s. split; [by apply list_elem_of_In|apply String.eqb_refl].
Qed.

(** The middleware answers by itself only outside local mode, with a
    non-empty allow list, for an address that is not on it; the answer is
    then a 403 naming the address, and the rest of the application has not
    run. *)
Theorem dispatch_denies_only_unlisted {A} ENVIRONMENT API_ALLOWED_IPS request
    (call_next : Request -> M A) w code detail w' :
  dispatch ENVIRONMENT API_ALLOWED_IPS request call_next w
    = (Ok (JSONResponse code detail), w') ->
  ENVIRONMENT <> "local"%string /\ API_ALLOWED_IPS <> [] /\
  (get_client_ip request ∉ API_ALLOWED_IPS) /\
  code = 403 /\ detail = ("Access denied for IP: " ++ get_client_ip request)%string /\
  w' = w.
Proof.
  unfold dispatch.
  assert (forall w0 r w1,
            (do a <- call_next request; ret (Passed a)) w0 = (r, w1) ->
            r <> Ok (JSONResponse code detail)) as Hpass.
  { intros w0 r w1. unfold bind, ret.
    destruct (call_next request w0) as [[a|e] w2]; intros; by simplify_eq. }
  destruct (String.eqb_spec ENVIRONMENT "local") as [->|Hne].
  { intros H. by apply Hpass in H. }
  destruct API_ALLOWED_IPS as [|ip0 ips].
  { intros H. by apply Hpass in H. }
  destruct (str_in (get_client_ip request) (ip0 :: ips)) eqn:E; simpl.
  { intros H. by apply Hpass in H. }
  unfold ret. intros H. simplify_eq.
  split; [done|]. split; [done|]. split; [|done].
  intros Hin. apply str_in_spec in Hin. congruence.
Qed.

(** In local mode, with an empty allow list, or for an address on the
    list, the request goes on to the rest of the application and its
    outcome comes back unchanged. *)
Theorem dispatch_passes_listed {A} ENVIRONMENT API_ALLOWED_IPS request
    (call_next : Request -> M A) w :
  ENVIRONMENT = "local"%string \/ API_ALLOWED_IPS = [] \/
  get_client_ip request ∈ API_ALLOWED_IPS ->
  dispatch ENVIRONMENT API_ALLOWED_IPS request call_next w
  = match call_next request w with
    | (Ok a, w') => (Ok (Passed a), w')
    | (Raise e, w') => (Raise e, w')
    end.
Proof.
  intros H. unfold dispatch.
  assert ((do a <- call_next request; ret (Passed a)) w
          = match call_next request w with
            | (Ok a, w') => (Ok (Passed a), w')
            | (Raise e, w') => (Raise e, w')
            end) as Hpass.
  { unfold bind, ret. by destruct (call_next request w) as [[a|e] w2]. }
  destruct (String.eqb_spec ENVIRONMENT "local") as [->|Hne]; [done|].
  destruct H as [H|[->|H]]; [done|done|].
  destruct API_ALLOWED_IPS as [|ip0 ips]; [done|].
  apply str_in_spec in H. by rewrite H.
Qed.


(** ** The size limits of a submission (main.py) *)

Lemma check_sizes_inv imgs : forall k total w r w',
  check_sizes (enumerate_from k imgs) total w = (r, w') ->
  w' = w /\
  ((Forall (fun img => len img <= MAX_IMAGE_SIZE) imgs /\
    r = Ok (total + total_len imgs)) \/
   (exists i img, imgs !! i = Some img /\ MAX_IMAGE_SIZE < len img /\
      Forall (fun x => len x <= MAX_IMAGE_SIZE) (take i imgs) /\
      r = Raise (HTTPException 413 (too_large_detail (k + i) img)))).
Proof.
  induction imgs as [|img imgs IH]; intros k total w r w' H; simpl in H.
  - unfold ret in H. simplify_eq. split; [done|]. left. split; [constructor|].
    simpl. f_equal. lia.
  - destruct (MAX_IMAGE_SIZE <? len img) eqn:E.
    + unfold raise in H. simplify_eq. split; [done|]. right.
      exists 0%nat, img. apply Z.ltb_lt in E. rewrite Nat.add_0_r.
      split; [done|]. split; [done|]. split; [constructor|done].
    + apply Z.ltb_ge in E. apply IH in H as [-> [[Hall ->]|(i & x & Hi & Hx & Hbefore & ->)]].
      * split; [done|]. left. split; [by constructor|]. simpl. f_equal. lia.
      * split; [done|]. right. exists (S i), x.
        split; [done|]. split; [done|]. split; [by constructor|].
        by rewrite Nat.add_succ_r.
Qed.

(** The size loop of [create_job] accepts exactly the submissions in which
    no image exceeds the cap, and returns the sum of the sizes; otherwise it
    raises the 413 that names, counting from 1, the first image above the
    cap.  It changes nothing. *)
Theorem check_sizes_first_offender imgs w r w' :
  check_sizes (enumerate imgs) 0 w = (r, w') ->
  w' = w /\
  ((Forall (fun img => len img <= MAX_IMAGE_SIZE) imgs /\
    r = Ok (total_len imgs)) \/
   (exists i img, imgs !! i = Some img /\ MAX_IMAGE_SIZE < len img /\
      Forall (fun x => len x <= MAX_IMAGE_SIZE) (take i imgs) /\
      r = Raise (HTTPException 413 (too_large_detail i img)))).
Proof. intros H. by apply check_sizes_inv in H. Qed.


(** ** Accepted submissions (main.py) *)

(** Everything an accepted submission tells: the checks it passed and what
    it left in the store. *)
Lemma create_job_ok_inv cfg uuid request w id st w1 :
  create_job cfg uuid request w = (Ok (id, st), w1) ->
  let key := ("job:" ++ uuid)%string in
  let dir := (JOB_IMAGES_DIR cfg ++ "/" ++ uuid)%string in
  id = uuid /\ st = "queued"%string /\
  ((length (job_queue w) < MAX_QUEUED_JOBS)%nat /\
   (MIN_IMAGES <= length (images request) <= MAX_IMAGES)%nat /\
   Forall (fun img => len img <= MAX_IMAGE_SIZE) (images request) /\
   total_len (images request) <= MAX_TOTAL_SIZE /\
   req_style request ∈ map fst STYLE_PRESETS /\
   req_aspect_ratio request ∈ ASPECT_RATIOS) /\
  job_queue w1 = uuid :: job_queue w /\
  status_log w1 = status_log w ++ [(key, "queued"%string)] /\
  exists created,
    kv w1 = <[key := ({| job_id := uuid; status := "queued";
                         image_paths := scratch_paths dir 0 (length (images request));
                         image_dir := dir; style := req_style request;
                         aspect_ratio := req_aspect_ratio request;
                         created_at := created; status_detail := None;
                         image_url := None; expires_at := None; error := None |},
                      Some (IMAGE_EXPIRY_MINUTES cfg * 2 * 60))]> (kv w).
Proof.
  intros H key dir. unfold create_job in H. unfold bind in H at 1.
  destruct (redis_llen w) as [rl w0] eqn:El.
  apply redis_llen_inv in El as (_ & Hk0 & Hq0 & Hl0 & [->|[m ->]]); [|done].
  cbv beta iota in H.
  destruct (MAX_QUEUED_JOBS <=? length (job_queue w))%nat eqn:Eq; [done|].
  apply Nat.leb_gt in Eq.
  destruct (length (images request) <? MIN_IMAGES)%nat eqn:Emin; [done|].
  apply Nat.ltb_ge in Emin.
  destruct (MAX_IMAGES <? length (images request))%nat eqn:Emax; [done|].
  apply Nat.ltb_ge in Emax.
  unfold bind in H at 1.
  destruct (check_sizes (enumerate (images request)) 0 w0) as [rc wc] eqn:Ec.
  apply check_sizes_inv in Ec as [-> [[Hsizes ->]|(i & x & _ & _ & _ & ->)]]; [|done].
  cbv beta iota in H. rewrite Z.add_0_l in H.
  destruct (MAX_TOTAL_SIZE <? total_len (images request)) eqn:Et; [done|].
  apply Z.ltb_ge in Et.
  destruct (str_in (req_style request) (map fst STYLE_PRESETS)) eqn:Es; [|done].
  destruct (str_in (req_aspect_ratio request) ASPECT_RATIOS) eqn:Ea; [|done].
  apply str_in_spec in Es, Ea.
  cbv [negb] in H. cbv zeta in H. fold dir in H. unfold bind in H at 1.
  destruct (makedirs dir w0) as [[[]|e] w2] eqn:Em; [|done].
  pose proof Em as Em'.
  apply makedirs_inv in Em as ((Hk2 & Hq2 & Hl2 & _) & _).
  assert (exists files0, scratch w2 !! dir = Some files0) as [files0 Hd2].
  { apply makedirs_inv in Em'
      as (_ & _ & _ & _ & [(m & ? & _)|[(_ & -> & Hs)|(_ & -> & _)]]); [done|done|].
    rewrite lookup_insert_eq. eauto. }
  unfold bind in H at 1. unfold try_except in H at 1.
  destruct (write_images dir (enumerate (images request)) [] w2) as [[paths|e] w3] eqn:Ew.
  2:{ unfold bind in H. rewrite rmtree_inv in H. done. }
  apply (write_images_ok dir (images request) 0 [] w2 paths w3 files0) in Ew;
    [|done|unfold MAX_IMAGES in Emax; simpl; lia].
  destruct Ew as ((Hk3 & Hq3 & Hl3) & -> & _). simpl app in H.
  unfold bind in H at 1. unfold get_world in H at 1. cbv beta iota in H.
  unfold bind in H at 1.
  destruct (redis_setex _ _ _ w3) as [[[]|e] w4] eqn:Esx; [|done].
  fold key in Esx.
  apply redis_setex_inv in Esx as (_ & Hq4 & [(m & ? & _)|(_ & Hk4 & Hl4)]); [done|].
  unfold bind in H.
  destruct (redis_lpush uuid w4) as [[[]|e] w5] eqn:Ep; [|done].
  apply redis_lpush_inv in Ep as (_ & Hk5 & Hl5 & [[_ Hq5]|(m & ? & _)]); [|done].
  unfold ret in H. simplify_eq.
  split; [done|]. split; [done|]. split; [by repeat split|].
  split; [by rewrite Hq5, Hq4, Hq3, Hq2, Hq0|].
  split; [by rewrite Hl5, Hl4, Hl3, Hl2, Hl0|].
  exists (clock w3). by rewrite Hk5, Hk4, Hk3, Hk2, Hk0.
Qed.


(** An accepted submission has passed every check of [create_job], is
    answered with its id and [queued], has its id at the left end of the
    queue, which grew by one, and has its record in the store, [queued],
    with a time to live of twice the expiry window and one scratch path per
    image; no other record is touched. *)
Theorem create_job_accepted_effects cfg uuid request w id st w1 :
  create_job cfg uuid request w = (Ok (id, st), w1) ->
  let key := ("job:" ++ uuid)%string in
  (id, st) = (uuid, "queued"%string) /\
  ((length (job_queue w) < MAX_QUEUED_JOBS)%nat /\
   (MIN_IMAGES <= length (images request) <= MAX_IMAGES)%nat /\
   Forall (fun img => len img <= MAX_IMAGE_SIZE) (images request) /\
   total_len (images request) <= MAX_TOTAL_SIZE /\
   req_style request ∈ map fst STYLE_PRESETS /\
   req_aspect_ratio request ∈ ASPECT_RATIOS) /\
  job_queue w1 = uuid :: job_queue w /\
  length (job_queue w1) = S (length (job_queue w)) /\
  (exists job, kv w1 !! key = Some (job, Some (IMAGE_EXPIRY_MINUTES cfg * 2 * 60)) /\
     job_id job = uuid /\ status job = "queued"%string /\
     length (image_paths job) = length (images request) /\
     style job = req_style request /\ aspect_ratio job = req_aspect_ratio request) /\
  (forall k, k <> key -> kv w1 !! k = kv w !! k).
Proof.
  intros H key. apply create_job_ok_inv in H
    as (-> & -> & Hchecks & Hq & _ & created & Hk).
  fold key in Hk. split; [done|]. split; [done|]. split; [done|].
  split; [by rewrite Hq|]. split.
  - eexists. rewrite Hk, lookup_insert_eq. split; [done|]. simpl.
    repeat split. unfold scratch_paths. by rewrite length_map, length_seq.
  - intros k Hne. by rewrite Hk, lookup_insert_ne.
Qed.

(** Whatever the outcome of a submission, the queue is what it was or has
    the new id at its left end, and in that case the record of the id is
    in the store, [queued]: an id is never pushed without its record. *)
Theorem create_job_pushes_only_stored cfg uuid request w r w' :
  create_job cfg uuid request w = (r, w') ->
  job_queue w' = job_queue w \/
  (job_queue w' = uuid :: job_queue w /\
   exists job ttl, kv w' !! ("job:" ++ uuid)%string = Some (job, ttl) /\
                   status job = "queued"%string).
Proof.
  intros H. apply create_job_store in H
    as [(_ & Hq & _)|(job & ttl & Hst & Hk & _ & [Hq|Hq])]; [by left|by left|].
  right. split; [done|]. exists job, (Some ttl). by rewrite Hk, lookup_insert_eq.
Qed.


Lemma redis_get_served key w :
  store_serves 1 w -> outcome (redis_get key) w = Ok (fst <$> kv w !! key).
Proof.
  unfold store_serves, outcome, redis_get, redis_key_cmd, bind, next_store_event.
  destruct (store_tape w) as [|ev tape]; [done|]. simpl.
  intros H. apply Forall_cons in H as [-> _]. done.
Qed.

(** A client that polls a job nobody has worked on is told [queued], with
    no result and no error, until twice the expiry window has passed since
    the submission; from then on it is told 404. *)
Theorem submitted_job_poll cfg uuid request w id st w1 d :
  create_job cfg uuid request w = (Ok (id, st), w1) ->
  store_serves 1 w1 ->
  outcome (get_job_status id) (tick d w1)
  = if d <? IMAGE_EXPIRY_MINUTES cfg * 2 * 60
    then Ok {| js_job_id := id; js_status := "queued"; js_status_detail := None;
               js_image_url := None; js_expires_at := None; js_error := None |}
    else Raise (HTTPException 404 "Job not found").
Proof.
  intros H Hs. apply create_job_ok_inv in H as (-> & -> & _ & _ & _ & created & Hk).
  assert (store_serves 1 (tick d w1)) as Hs' by done.
  pose proof (redis_get_served ("job:" ++ uuid) _ Hs') as Hg.
  unfold outcome in *. unfold get_job_status, bind.
  destruct (redis_get ("job:" ++ uuid) (tick d w1)) as [rg wg]. simpl in Hg. subst rg.
  replace (kv (tick d w1)) with (omap (expire_entry d) (kv w1)) by done.
  rewrite lookup_omap, Hk, lookup_insert_eq. simpl.
  destruct (Z.leb_spec (IMAGE_EXPIRY_MINUTES cfg * 2 * 60) d) as [Hle|Hlt]; simpl.
  - by rewrite (proj2 (Z.ltb_ge _ _) Hle).
  - by rewrite (proj2 (Z.ltb_lt _ _) Hlt).
Qed.


(** ** Status updates (worker.py) *)

Lemma job_set_key_identity kw j :
  let j' := job_set_key kw j in
  job_id j' = job_id j /\ image_paths j' = image_paths j /\
  image_dir j' = image_dir j /\ style j' = style j /\
  aspect_ratio j' = aspect_ratio j /\ created_at j' = created_at j.
Proof. by destruct kw. Qed.

Lemma job_update_identity extra : forall j,
  let j' := job_update extra j in
  job_id j' = job_id j /\ image_paths j' = image_paths j /\
  image_dir j' = image_dir j /\ style j' = style j /\
  aspect_ratio j' = aspect_ratio j /\ created_at j' = created_at j.
Proof.
  unfold job_update. induction extra as [|kw extra IH]; intros j; simpl; [done|].
  destruct (IH (job_set_key kw j)) as (?&?&?&?&?&?).
  destruct (job_set_key_identity kw j) as (?&?&?&?&?&?).
  repeat split; congruence.
Qed.


(** ** A job whose record is gone (worker.py) *)

(** When the record of a job is no longer in the store, [process_job]
    does nothing: it returns, or raises the connection error of its one
    query, without writing a status, touching the scratch root or the
    output directory, or calling the synthesis service. *)
Theorem process_job_without_record cfg env job_id0 w r w' :
  kv w !! ("job:" ++ job_id0)%string = None ->
  process_job cfg env job_id0 w = (r, w') ->
  (r = Ok tt \/ exists m, r = Raise (ConnectionError m)) /\
  kv w' !! ("job:" ++ job_id0)%string = None /\
  status_log w' = status_log w /\ job_queue w' = job_queue w /\
  scratch w' = scratch w /\ output w' = output w /\
  uploads w' = uploads w /\ fal_calls w' = fal_calls w.
Proof.
  intros Hn H. unfold process_job, bind in H.
  destruct (redis_get _ w) as [rg w0] eqn:Eg.
  apply redis_get_inv in Eg
    as ((Hs & Ho & _ & _ & Hu & Hf & _) & Hq & Hl & Hr).
  assert (kv w0 !! ("job:" ++ job_id0)%string = None /\
          (rg = Ok None \/ exists m, rg = Raise (ConnectionError m))) as [Hn0 Hrg].
  { destruct Hr as [(m & -> & ->)|[[-> ->]|[-> ->]]].
    - split; [done|eauto].
    - rewrite Hn. split; [done|by left].
    - rewrite lookup_delete_eq. split; [done|by left]. }
  destruct Hrg as [->|[m ->]].
  - unfold ret in H. simplify_eq. split; [by left|done].
  - simplify_eq. split; [eauto|done].
Qed.


(** ** A completed job has its artifact (worker.py) *)

Lemma output_get_put name f l : output_get name (output_put name f l) = Some f.
Proof.
  induction l as [|[n g] l IH]; simpl; [by rewrite String.eqb_refl|].
  destruct (String.eqb n name) eqn:E; simpl; by rewrite E.
Qed.

(** The statuses a run writes are among those its [act]s allow. *)
Lemma acts_log W w w' :
  acts W w w' ->
  exists l, status_log w' = status_log w ++ l /\ Forall (fun e => W e.1 e.2) l.
Proof.
  intros H. induction H as [w|w1 w2 w3 H12 _ (l & Hl & Hall)].
  - exists []. by rewrite app_nil_r.
  - destruct H12 as [_ _ Hlog|key j j' _ HW _ _ Hlog].
    + exists l. by rewrite Hl, Hlog.
    + exists ((key, status j') :: l). rewrite Hl, Hlog, <- app_assoc.
      split; [done|]. by constructor.
Qed.

(** A pipeline that returns has fetched the result and written it to the
    output directory under the name of the job. *)
Lemma pipeline_ok_artifact cfg env job_id0 job w w' :
  pipeline cfg env job_id0 job w = (Ok tt, w') ->
  exists url bytes, env_http_get env url = Ok bytes /\
    output_get (job_id0 ++ ".png")%string (output w')
    = Some {| out_bytes := bytes; out_mtime := clock w' |}.
Proof.
  intros H. unfold pipeline in H. unfold bind in H at 1.
  destruct (optimize_loop env job_id0 _ _ [] w) as [[opts|e] w1]; [|done].
  unfold bind in H at 1.
  destruct (update_job_status job_id0 "processing" _ w1) as [[[]|e] w2]; [|done].
  unfold bind in H at 1.
  destruct (upload_loop env job_id0 _ _ [] w2) as [[urls|e] w3]; [|done].
  unfold bind in H at 1.
  destruct (update_job_status job_id0 "processing" _ w3) as [[[]|e] w4]; [|done].
  unfold bind in H at 1.
  destruct (fal_subscribe env _ w4) as [[[|url imgs]|e] w5]; [done| |done].
  unfold bind in H at 1.
  destruct (update_job_status job_id0 "processing" _ w5) as [[[]|e] w6]; [|done].
  unfold bind in H at 1. unfold lift in H at 1.
  destruct (env_http_get env url) as [bytes|e] eqn:Eh; [|done].
  cbv beta iota in H. unfold bind in H at 1.
  destruct (write_output _ bytes w6) as [[[]|e] w7] eqn:Ew; [|done].
  apply write_output_inv in Ew
    as (_ & _ & _ & _ & Hc7 & [(m & ? & _)|[_ Ho7]]); [done|].
  unfold bind in H. unfold get_world in H. cbv beta iota in H.
  apply update_job_status_inv in H as ((_ & Ho & Hc & _) & _).
  exists url, bytes. split; [done|].
  by rewrite Ho, Ho7, output_get_put, Hc, Hc7.
Qed.

(** Whenever a run of [process_job] writes [completed] to the record of
    its job, it has returned normally and the artifact of the job is in the
    output directory, holding the bytes fetched from the result url. *)
Theorem completed_job_has_artifact cfg env job_id0 w r w' l :
  process_job cfg env job_id0 w = (r, w') ->
  status_log w' = status_log w ++ l ->
  (("job:" ++ job_id0)%string, "completed"%string) ∈ l ->
  r = Ok tt /\
  exists url bytes mtime, env_http_get env url = Ok bytes /\
    output_get (job_id0 ++ ".png")%string (output w')
    = Some {| out_bytes := bytes; out_mtime := mtime |}.
Proof.
  intros H Hlog Hin. set (key := ("job:" ++ job_id0)%string) in *.
  assert (forall u u' l', acts (Wp key) u u' -> status_log u' = status_log u ++ l' ->
            (key, "completed"%string) ∉ l') as Hno.
  { intros u u' l' Ha Hl' Hc. apply acts_log in Ha as (l0 & Hl0 & Hall).
    rewrite Hl0 in Hl'. apply app_inv_head in Hl'. subst l0.
    rewrite Forall_forall in Hall. apply Hall in Hc as [_ Hc]. done. }
  unfold process_job in H. unfold bind in H at 1. fold key in H.
  destruct (redis_get key w) as [rg w0] eqn:Eg.
  apply redis_get_inv in Eg as (_ & _ & Hl0 & _).
  assert (forall u, status_log u = status_log w0 -> u = w' -> False) as Hstop.
  { intros u Hu ->. rewrite Hu, Hl0 in Hlog.
    rewrite <- (app_nil_r (status_log w)) in Hlog at 1.
    apply app_inv_head in Hlog. subst l. by apply elem_of_nil in Hin. }
  destruct rg as [[job|]|e];
    [|unfold ret in H; simplify_eq; by destruct (Hstop w' eq_refl eq_refl)
     |simplify_eq; by destruct (Hstop w' eq_refl eq_refl)].
  clear Hstop. unfold bind in H.
  destruct (update_job_status job_id0 "processing" _ w0) as [r1 w1] eqn:E1.
  pose proof (update_processing_acts _ _ _ _ _ E1) as Ha1. fold key in Ha1.
  destruct r1 as [[]|e].
  2:{ simplify_eq. exfalso. rewrite <- Hl0 in Hlog. by eapply Hno. }
  unfold try_finally in H.
  destruct (try_except (pipeline cfg env job_id0 job) _ w1) as [r2 w2] eqn:E2.
  assert (status_log w' = status_log w2 /\ output w' = output w2 /\ r = r2)
    as (Hl2 & Ho2 & ->).
  { destruct (String.eqb (image_dir job) "").
    - unfold ret in H. by simplify_eq.
    - rewrite rmtree_inv in H. by simplify_eq. }
  unfold try_except in E2.
  destruct (pipeline cfg env job_id0 job w1) as [rp wp] eqn:Ep.
  pose proof (pipeline_runs2 _ _ _ _ _ _ _ Ep) as Hp. fold key in Hp.
  destruct rp as [[]|e].
  - simplify_eq. split; [done|].
    apply pipeline_ok_artifact in Ep as (url & bytes & Hget & Hout).
    exists url, bytes, (clock w2). by rewrite Ho2.
  - exfalso. simpl in Hp.
    assert (acts (Wp key) w0 wp) as Ha by (by etrans).
    apply acts_log in Ha as (l0 & Hl0' & Hall).
    apply update_job_status_inv in E2
      as (_ & _ & [(Hlf & _)|(j & t & _ & _ & _ & Hlf)]); fold key in Hlf.
    + rewrite Hl2, Hlf, Hl0', Hl0 in Hlog. apply app_inv_head in Hlog. subst l.
      rewrite Forall_forall in Hall. apply Hall in Hin as [_ Hc]. done.
    + rewrite Hl2, Hlf, Hl0', Hl0, <- app_assoc in Hlog.
      apply app_inv_head in Hlog. subst l.
      apply elem_of_app in Hin as [Hin|Hin].
      * rewrite Forall_forall in Hall. apply Hall in Hin as [_ Hc]. done.
      * apply list_elem_of_singleton in Hin. by simplify_eq.
Qed.


(** ** The reaper without faults (worker.py, cleanup_expired_images) *)

Lemma stem_png (id : string) : stem (id ++ ".png") = id /\ is_png (id ++ ".png") = true.
Proof.
  unfold stem, is_png. induction id as [|c id [IH1 IH2]]; [done|].
  assert (forall s, String.length (s ++ ".png") = S (S (S (S (String.length s)))))
    as Hlen by (intros s; induction s as [|? ? IHs]; simpl; [done|by rewrite IHs]).
  rewrite Hlen in *. simpl String.length in *.
  replace (S (S (S (S (S (String.length id))))) - 4)%nat
    with (S (String.length id)) by lia.
  replace (S (S (S (S (String.length id)))) - 4)%nat
    with (String.length id) in * by lia.
  split.
  - change (String c id ++ ".png")%string with (String c (id ++ ".png")).
    simpl. by rewrite IH1.
  - change (String c id ++ ".png")%string with (String c (id ++ ".png")).
    simpl. simpl in IH2. exact IH2.
Qed.

Lemma output_get_remove name n l :
  output_get name (output_remove n l)
  = if String.eqb n name then None else output_get name l.
Proof.
  unfold output_remove. induction l as [|[m g] l IH]; simpl.
  - by destruct (String.eqb n name).
  - destruct (String.eqb m n) eqn:Emn; simpl.
    + apply String.eqb_eq in Emn as ->. rewrite IH.
      by destruct (String.eqb n name).
    + destruct (String.eqb m name) eqn:Em; [|done].
      apply String.eqb_eq in Em as ->.
      rewrite String.eqb_sym in Emn. by rewrite Emn.
Qed.

Lemma output_get_listed name l :
  name ∈ map fst l -> is_Some (output_get name l).
Proof.
  induction l as [|[m g] l IH]; simpl; [by intros ?%elem_of_nil|].
  intros [->|Hin]%elem_of_cons.
  - by rewrite String.eqb_refl.
  - destruct (String.eqb m name); [done|auto].
Qed.

(** With the file system and Redis at rest, one artifact is either too
    young and left alone, or removed together with the record of its job. *)
Lemma reap_file_at_rest now expiry name f w :
  fs_tape w = [] -> store_tape w = [] ->
  output_get name (output w) = Some f ->
  reap_file now expiry name w
  = (Ok tt, if expiry <? now - out_mtime f
            then set_kv (delete ("job:" ++ stem name)%string)
                   (set_output (output_remove name) w)
            else w).
Proof.
  intros Hf Hs Hg. destruct w. simpl in *. subst.
  unfold reap_file, stat_mtime, unlink, redis_delete, redis_key_cmd, fs_cmd,
    next_fs_fault, next_store_event, bind, modify, ret; simpl.
  rewrite Hg. destruct (expiry <? now - out_mtime f); simpl; [|done].
  by rewrite Hg.
Qed.

Lemma reap_sweep_at_rest now expiry names : forall w r w',
  fs_tape w = [] -> store_tape w = [] -> NoDup names ->
  (forall n, n ∈ names -> is_Some (output_get n (output w))) ->
  for_each names (reap_file now expiry) w = (r, w') ->
  r = Ok tt /\
  (forall name, output_get name (output w') =
     match output_get name (output w) with
     | Some f => if bool_decide (name ∈ names) && (expiry <? now - out_mtime f)
                 then None else Some f
     | None => None
     end) /\
  (forall key, kv w !! key = None -> kv w' !! key = None) /\
  (forall name f, name ∈ names -> output_get name (output w) = Some f ->
     (expiry <? now - out_mtime f) = true ->
     kv w' !! ("job:" ++ stem name)%string = None) /\
  (forall key,
     (forall name f, name ∈ names -> output_get name (output w) = Some f ->
        (expiry <? now - out_mtime f) = true -> key <> ("job:" ++ stem name)%string) ->
     kv w' !! key = kv w !! key).
Proof.
  induction names as [|n names IH]; intros w r w' Hf Hs Hnd Hall H.
  - unfold for_each, ret in H. simplify_eq. split; [done|].
    split; [|by repeat split; try done; intros ? ? ?%elem_of_nil].
    intros name. by destruct (output_get name (output w')).
  - apply NoDup_cons in Hnd as [Hn Hnd].
    destruct (Hall n) as [f Hg]; [by left|].
    cbn [for_each] in H. unfold bind in H.
    rewrite (reap_file_at_rest _ _ _ _ _ Hf Hs Hg) in H.
    match type of H with for_each _ _ ?u = _ => set (w1 := u) in * end.
    assert (fs_tape w1 = [] /\ store_tape w1 = []) as [Hf1 Hs1]
      by (subst w1; destruct (expiry <? now - out_mtime f); by destruct w).
    assert (forall name, output_get name (output w1) =
              if String.eqb n name && (expiry <? now - out_mtime f)
              then None else output_get name (output w)) as Ho1.
    { intros name. subst w1. destruct (expiry <? now - out_mtime f).
      - destruct w; simpl. rewrite output_get_remove.
        by destruct (String.eqb n name).
      - by rewrite andb_false_r. }
    assert (forall key, kv w1 !! key =
              if bool_decide (key = ("job:" ++ stem n)%string)
                 && (expiry <? now - out_mtime f)
              then None else kv w !! key) as Hk1.
    { intros key. subst w1. destruct (expiry <? now - out_mtime f).
      - destruct w; simpl. rewrite andb_true_r. case_bool_decide as Hkey.
        + subst key. apply lookup_delete_eq.
        + by apply lookup_delete_ne.
      - by rewrite andb_false_r. }
    assert (forall name, name ∈ names ->
              output_get name (output w1) = output_get name (output w)) as Hsame.
    { intros name Hin. rewrite Ho1.
      destruct (String.eqb n name) eqn:E; [|done].
      apply String.eqb_eq in E as ->. done. }
    destruct (IH w1 r w' Hf1 Hs1 Hnd) as (-> & Ho & Hmono & Hdel & Hkeep);
      [intros m Hm; rewrite Hsame by done; apply Hall; by right|done|].
    split; [done|]. split; [|split; [|split]].
    + intros name. rewrite Ho, Ho1.
      destruct (String.eqb n name) eqn:E.
      * apply String.eqb_eq in E as <-. rewrite Hg.
        rewrite (bool_decide_eq_true_2 (n ∈ n :: names)) by by left.
        rewrite (bool_decide_eq_false_2 (n ∈ names)) by done.
        by destruct (expiry <? now - out_mtime f).
      * apply String.eqb_neq in E. simpl.
        destruct (output_get name (output w)) as [g|]; [|done].
        assert (bool_decide (name ∈ n :: names) = bool_decide (name ∈ names))
          as ->; [|done].
        apply bool_decide_ext. rewrite elem_of_cons.
        split; [by intros [?|?]|by right].
    + intros key Hnone. apply Hmono. rewrite Hk1.
      by destruct (_ && _).
    + intros name g [->|Hin]%elem_of_cons Hgn Hold.
      * apply Hmono. rewrite Hk1. rewrite bool_decide_eq_true_2 by done.
        simplify_eq. by rewrite Hold.
      * apply (Hdel name g); [done|by rewrite Hsame|done].
    + intros key Hfree. rewrite Hkeep, Hk1.
      * destruct (expiry <? now - out_mtime f) eqn:Eold;
          [|by rewrite andb_false_r].
        rewrite bool_decide_eq_false_2; [done|].
        apply (Hfree n f); [by left|done|done].
      * intros name g Hin Hgn Hold. apply (Hfree name g); [by right| |done].
        by rewrite <- Hsame.
Qed.

(** A sweep during which neither the file system nor Redis fails, over an
    output directory without repeated names and without a file named just
    [.png] (the one name whose stem, for pathlib, is not what precedes the
    suffix): it returns normally; exactly the png artifacts older than the
    expiry time are gone; the record of every job whose artifact was
    removed is gone; every other record is as it was. *)
Theorem sweep_at_rest_reaps_exactly_expired cfg w r w' :
  fs_tape w = [] -> store_tape w = [] -> NoDup (map fst (output w)) ->
  output_get ".png" (output w) = None ->
  cleanup_expired_images cfg w = (r, w') ->
  r = Ok tt /\
  (forall name, output_get name (output w') =
     match output_get name (output w) with
     | Some f => if is_png name && (IMAGE_EXPIRY_MINUTES cfg * 60 <? clock w - out_mtime f)
                 then None else Some f
     | None => None
     end) /\
  (forall job_id0 f,
     output_get (job_id0 ++ ".png")%string (output w) = Some f ->
     (IMAGE_EXPIRY_MINUTES cfg * 60 <? clock w - out_mtime f) = true ->
     kv w' !! ("job:" ++ job_id0)%string = None) /\
  (forall key,
     (forall name f, is_png name = true -> output_get name (output w) = Some f ->
        (IMAGE_EXPIRY_MINUTES cfg * 60 <? clock w - out_mtime f) = true ->
        key <> ("job:" ++ stem name)%string) ->
     kv w' !! key = kv w !! key).
Proof.
  intros Hf Hs Hnd _ H. unfold cleanup_expired_images, try_except in H.
  unfold bind in H at 1. unfold get_world in H. cbv beta iota in H.
  destruct (for_each (glob_png w) _ w) as [r0 w0] eqn:E.
  assert (forall n, n ∈ glob_png w <-> n ∈ map fst (output w) /\ is_png n = true)
    as Hglob.
  { intros n. unfold glob_png.
    rewrite !list_elem_of_In, List.filter_In. done. }
  apply reap_sweep_at_rest in E as (-> & Ho & _ & Hdel & Hkeep); try done.
  2:{ unfold glob_png. clear -Hnd.
      induction (map fst (output w)) as [|m l IH]; simpl; [constructor|].
      apply NoDup_cons in Hnd as [Hm Hnd]. destruct (is_png m); [|auto].
      apply NoDup_cons. split; [|auto].
      rewrite list_elem_of_In, List.filter_In, <- list_elem_of_In. tauto. }
  2:{ intros n [Hn _]%Hglob. by apply output_get_listed. }
  simplify_eq. split; [done|]. split; [|split].
  - intros name. rewrite Ho.
    destruct (output_get name (output w)) as [f|] eqn:Eg; [|done].
    assert (name ∈ map fst (output w)) as Hin.
    { clear -Eg. induction (output w) as [|[m g] l IH]; simpl in *; [done|].
      destruct (String.eqb m name) eqn:Em.
      - apply String.eqb_eq in Em as ->. by left.
      - right. auto. }
    destruct (is_png name) eqn:Ep.
    + rewrite bool_decide_eq_true_2; [done|]. by apply Hglob.
    + rewrite bool_decide_eq_false_2; [done|]. intros [_ ?]%Hglob. congruence.
  - intros job_id0 f Hg Hold.
    destruct (stem_png job_id0) as [Hstem Hpng].
    rewrite <- Hstem at 1. apply (Hdel _ f); [|done|done].
    apply Hglob. split; [|done].
    clear -Hg. induction (output w) as [|[m g] l IH]; simpl in *; [done|].
    destruct (String.eqb m _) eqn:Em.
    + apply String.eqb_eq in Em as ->. by left.
    + right. auto.
  - intros key Hfree. apply Hkeep. intros name f [_ Hp]%Hglob Hg Hold.
    by apply (Hfree name f).
Qed.


(** ** Data URLs (worker.py, decode_base64_image) *)

Lemma split_comma_first header rest :
  str_has comma header = false ->
  split_comma (header ++ String comma rest) = Some (header, rest).
Proof.
  induction header as [|c header IH]; simpl; [done|]. fold comma.
  intros [Hc Hh]%orb_false_iff. rewrite Hc, IH; done.
Qed.

Lemma split_comma_none s : str_has comma s = false -> split_comma s = None.
Proof.
  induction s as [|c s IH]; simpl; [done|]. fold comma.
  intros [Hc Hh]%orb_false_iff. by rewrite Hc, IH.
Qed.

(** Of a data URL, the text after the first comma is what gets decoded,
    further commas included; the media type before it is ignored. *)
Theorem decode_base64_image_data_url env media payload :
  str_has comma media = false ->
  decode_base64_image env ("data:" ++ media ++ "," ++ payload)
  = env_b64decode env payload.
Proof.
  intros Hm. unfold decode_base64_image.
  change ("data:" ++ media ++ "," ++ payload)%string
    with ("data:" ++ (media ++ String comma payload))%string.
  assert (String.prefix "data:" ("data:" ++ (media ++ String comma payload))%string
          = true) as ->.
  { change (String.prefix "" (media ++ String comma payload)%string = true).
    by destruct (media ++ String comma payload)%string. }
  change ("data:" ++ (media ++ String comma payload))%string
    with (("data:" ++ media) ++ String comma payload)%string.
  rewrite split_comma_first; [done|]. simpl. exact Hm.
Qed.

(** A payload that starts with [data:] and holds no comma is not decoded:
    the unpacking of the split raises. *)
Theorem decode_base64_image_no_comma env data_url :
  String.prefix "data:" data_url = true ->
  str_has comma data_url = false ->
  decode_base64_image env data_url
  = Raise (Exception "not enough values to unpack (expected 2, got 1)").
Proof.
  intros Hp Hc. unfold decode_base64_image. by rewrite Hp, split_comma_none.
Qed.

(** ** Compositing over white (worker.py, optimize_image) *)

Lemma DIV255_bounds x r : 0 <= r -> 255 * r <= x <= 65025 -> r <= DIV255 x <= 255.
Proof.
  intros Hr Hx. unfold DIV255. cbv zeta. rewrite !Z.shiftr_div_pow2 by lia.
  change (2 ^ 8) with 256. Z.div_mod_to_equations. lia.
Qed.

Lemma DIV255_exact r : 0 <= r <= 255 -> DIV255 (255 * r) = r.
Proof.
  intros Hr. unfold DIV255. cbv zeta. rewrite !Z.shiftr_div_pow2 by lia.
  change (2 ^ 8) with 256. Z.div_mod_to_equations. lia.
Qed.

Lemma BLEND_over_white a x :
  0 <= x <= 255 -> 0 <= a <= 255 ->
  x <= BLEND a 255 x <= 255 /\
  (a = 255 -> BLEND a 255 x = x) /\ (a = 0 -> BLEND a 255 x = 255).
Proof.
  intros Hx Ha. unfold BLEND. split; [|split].
  - apply DIV255_bounds; [lia|nia].
  - intros ->. replace (255 * (255 - 255) + x * 255) with (255 * x) by lia.
    by apply DIV255_exact.
  - intros ->. replace (255 * (255 - 0) + x * 0) with (255 * 255) by lia.
    apply DIV255_exact. lia.
Qed.

Lemma paste_masked_lookup src : forall n i p,
  (i < n)%nat -> src !! i = Some p ->
  paste_pixels (repeat (PxRGB 255 255 255) n) src (Some (map last_band src)) !! i
  = Some (paste_pixel (PxRGB 255 255 255) p (Some (last_band p))).
Proof.
  induction src as [|q src IH]; intros n i p Hi Hp; [done|].
  destruct n as [|n]; [lia|]. destruct i as [|i]; simpl in *.
  - by simplify_eq.
  - apply IH; [lia|done].
Qed.

(** The [RGBA] path composites every pixel over white: each channel ends
    between its own value and 255; an opaque pixel keeps its colour and a
    fully transparent one comes out white. *)
Theorem flatten_RGBA_over_white sz px pal i r g b a :
  Z.of_nat i < sz.1 * sz.2 ->
  px !! i = Some (PxRGBA r g b a) ->
  0 <= r <= 255 -> 0 <= g <= 255 -> 0 <= b <= 255 -> 0 <= a <= 255 ->
  exists r' g' b',
    pixels (flatten {| mode := "RGBA"; size := sz; pixels := px; palette := pal |}) !! i
    = Some (PxRGB r' g' b') /\
    r <= r' <= 255 /\ g <= g' <= 255 /\ b <= b' <= 255 /\
    (a = 255 -> (r', g', b') = (r, g, b)) /\
    (a = 0 -> (r', g', b') = (255, 255, 255)).
Proof.
  intros Hi Hp Hr Hg Hb Ha.
  exists (BLEND a 255 r), (BLEND a 255 g), (BLEND a 255 b).
  destruct (BLEND_over_white a r Hr Ha) as (? & Hr1 & Hr0).
  destruct (BLEND_over_white a g Hg Ha) as (? & Hg1 & Hg0).
  destruct (BLEND_over_white a b Hb Ha) as (? & Hb1 & Hb0).
  split; [|repeat split; try lia].
  - unfold flatten. simpl.
    rewrite (paste_masked_lookup px _ i (PxRGBA r g b a)); [done|lia|done].
  - intros E. by rewrite (Hr1 E), (Hg1 E), (Hb1 E).
  - intros E. by rewrite (Hr0 E), (Hg0 E), (Hb0 E).
Qed.

(** ** The worker loop survives its jobs (worker.py, main) *)

(** No exception leaves the worker loop: whatever Redis, the file
    system, the codecs or the synthesis service do during a job, the loop
    itself returns normally. *)
Theorem main_loop_never_raises cfg env fuel w :
  outcome (main_loop cfg fuel env) w = Ok tt.
Proof.
  unfold outcome. revert w. induction fuel as [|fuel IH]; intros w; [done|].
  cbn [main_loop]. unfold bind.
  destruct (shutdown_is_set w) as [rs w1] eqn:Es.
  apply shutdown_is_set_inv in Es as (_ & _ & _ & _ & _ & _ & sd & ->).
  destruct sd; [done|].
  pose proof (main_iteration_returns cfg env w1) as Hi. unfold outcome in Hi.
  destruct (main_iteration cfg env w1) as [r w2]. simpl in Hi. subst r. apply IH.
Qed.


(** ** The size after the resize step (worker.py, optimize_image) *)

Lemma zrange_In n : forall lo m, lo <= m < lo + Z.of_nat n -> In m (zrange lo n).
Proof.
  induction n as [|n IH]; intros lo m Hm; [lia|]. simpl.
  destruct (decide (lo = m)) as [->|Hne]; [by left|right].
  apply IH. lia.
Qed.

(** The ratio test and the scaled longest edge, for every longest edge up
    to 65535 pixels, by evaluation of the float arithmetic. *)
Lemma resize_scan :
  forallb (fun m =>
    let ratio := PrimFloat.div (float_of_Z OPTIMIZE_MAX_SIZE) (float_of_Z m) in
    let edge := int_of_float (PrimFloat.mul (float_of_Z m) ratio) in
    if m <=? 768 then negb (PrimFloat.ltb ratio (float_of_Z 1))
    else PrimFloat.ltb ratio (float_of_Z 1) && (767 <=? edge) && (edge <=? 768))
    (zrange 1 (Z.to_nat 65535)) = true.
Proof. vm_compute. reflexivity. Qed.

(** An image whose longest edge is at most 768 pixels gets no new size.
    A larger one (up to 65535 pixels) gets a new size whose longest edge is
    768 or, where the float product rounds below it, 767. *)
Theorem resize_target_longest_edge sz :
  1 <= Z.max sz.1 sz.2 <= 65535 ->
  (Z.max sz.1 sz.2 <= 768 -> resize_target sz = None) /\
  (768 < Z.max sz.1 sz.2 ->
   exists new_size, resize_target sz = Some new_size /\
     (sz.1 = Z.max sz.1 sz.2 -> 767 <= new_size.1 <= 768) /\
     (sz.2 = Z.max sz.1 sz.2 -> 767 <= new_size.2 <= 768)).
Proof.
  intros Hm. pose proof resize_scan as Hscan.
  rewrite forallb_forall in Hscan.
  specialize (Hscan (Z.max sz.1 sz.2)). cbv zeta in Hscan.
  assert (In (Z.max sz.1 sz.2) (zrange 1 (Z.to_nat 65535))) as Hin.
  { apply zrange_In. lia. }
  specialize (Hscan Hin). clear Hin.
  unfold resize_target. cbv zeta.
  set (ratio := PrimFloat.div _ _) in *.
  destruct (Z.max sz.1 sz.2 <=? 768) eqn:Ele.
  - apply Z.leb_le in Ele. apply negb_true_iff in Hscan. rewrite Hscan.
    split; [done|lia].
  - apply Z.leb_gt in Ele.
    apply andb_true_iff in Hscan as [[Hlt Hlo]%andb_true_iff Hhi].
    apply Z.leb_le in Hlo, Hhi. rewrite Hlt.
    split; [lia|]. intros _. eexists. split; [reflexivity|]. simpl.
    split; intros E; rewrite <- E in Hlo, Hhi; lia.
Qed.

(** ** Styles of the stored records (main.py, worker.py) *)

#[local] Instance heirs_preorder : PreOrder heirs.
Proof.
  split.
  - intros w key j t H. by exists j, t.
  - intros w1 w2 w3 H12 H23 key j3 t3 H3.
    destruct (H23 _ _ _ H3) as (j2 & t2 & H2 & ? & ?).
    destruct (H12 _ _ _ H2) as (j1 & t1 & H1 & ? & ?).
    exists j1, t1. split; [done|]. split; congruence.
Qed.

Lemma heirs_same w w' : kv w' = kv w -> heirs w w'.
Proof. intros Hk key j t H. rewrite Hk in H. by exists j, t. Qed.

Lemma act_none_heirs w w' : act Wnone w w' -> heirs w w'.
Proof.
  intros [Hsub _ _|? ? ? _ [] _ _ _] key j' t' H.
  assert (records w' !! key = Some j') as Hr
    by (unfold records; by rewrite lookup_fmap, H).
  apply (lookup_weaken _ _ _ _ Hr) in Hsub. unfold records in Hsub.
  rewrite lookup_fmap in Hsub.
  destruct (kv w !! key) as [[j t]|] eqn:E; simplify_eq/=. by exists j', t.
Qed.

Lemma act_heirs {A} (m : M A) : runs (act Wnone) m -> runs heirs m.
Proof. apply runs_weaken, act_none_heirs. Qed.

Lemma acts_none_heirs w w' : acts Wnone w w' -> heirs w w'.
Proof.
  intros H. induction H as [|w1 w2 w3 H12 _ IH]; [done|].
  etrans; [by apply act_none_heirs|done].
Qed.

Lemma update_job_status_heirs job_id0 st extra :
  runs heirs (update_job_status job_id0 st extra).
Proof.
  intros w r w' H. apply update_job_status_inv in H
    as (_ & _ & [(_ & [Hk|Hk] & _)|(j & t & _ & Hj & Hk & _)]).
  - by apply heirs_same.
  - intros key j' t' H'. rewrite Hk in H'.
    apply lookup_delete_Some in H' as [_ H']. by exists j', t'.
  - intros key j' t' H'. rewrite Hk in H'.
    apply lookup_insert_Some in H' as [[<- E]|[_ H']]; [|by exists j', t'].
    simplify_eq. exists j, t. split; [done|].
    destruct (job_update_identity extra (job_set_status st j)) as (_&_&_&Hs&Ha&_).
    by rewrite Hs, Ha.
Qed.

Lemma optimize_loop_heirs env job_id0 n paths acc :
  runs heirs (optimize_loop env job_id0 n paths acc).
Proof.
  revert acc. induction paths as [|[i p] paths IH]; intros acc; simpl.
  - apply runs_ret, _.
  - apply runs_bind; [apply _|apply update_job_status_heirs|intros _].
    apply runs_bind; [apply _|apply act_heirs, read_file_act|intros data_url].
    apply runs_bind; [apply _|apply runs_lift, _|intros raw].
    apply runs_bind; [apply _|apply runs_lift, _|intros opt]. apply IH.
Qed.

Lemma upload_loop_heirs env job_id0 n imgs acc :
  runs heirs (upload_loop env job_id0 n imgs acc).
Proof.
  revert acc. induction imgs as [|[i b] imgs IH]; intros acc; simpl.
  - apply runs_ret, _.
  - apply runs_bind; [apply _|apply update_job_status_heirs|intros _].
    apply runs_bind; [apply _|apply act_heirs, upload_to_fal_act|intros url].
    apply IH.
Qed.

Lemma process_job_heirs cfg env job_id0 : runs heirs (process_job cfg env job_id0).
Proof.
  unfold process_job.
  apply runs_bind; [apply _|apply act_heirs, redis_get_act|intros [job|]];
    [|apply runs_ret, _].
  apply runs_bind; [apply _|apply update_job_status_heirs|intros _].
  apply runs_try_finally; [apply _| |].
  2:{ destruct (String.eqb (image_dir job) ""); [apply runs_ret, _|].
      apply act_heirs, rmtree_act. }
  apply runs_try_except; [apply _| |intros e; apply update_job_status_heirs].
  unfold pipeline.
  apply runs_bind; [apply _|apply optimize_loop_heirs|intros opts].
  apply runs_bind; [apply _|apply update_job_status_heirs|intros _].
  apply runs_bind; [apply _|apply upload_loop_heirs|intros urls].
  apply runs_bind; [apply _|apply update_job_status_heirs|intros _].
  apply runs_bind; [apply _|apply act_heirs, fal_subscribe_act|];
    intros [|result_url imgs]; [apply runs_raise, _|].
  apply runs_bind; [apply _|apply update_job_status_heirs|intros _].
  apply runs_bind; [apply _|apply runs_lift, _|intros bytes].
  apply runs_bind; [apply _|apply act_heirs, write_output_act|intros _].
  apply runs_bind; [apply _|apply runs_get_world, _|intros w0].
  apply update_job_status_heirs.
Qed.

Lemma main_loop_heirs cfg env fuel : runs heirs (main_loop cfg fuel env).
Proof.
  induction fuel as [|fuel IH]; simpl; [apply runs_ret, _|].
  apply runs_bind; [apply _|apply act_heirs, shutdown_is_set_act|intros [|]];
    [apply runs_ret, _|].
  apply runs_bind; [apply _| |intros _; apply IH].
  unfold main_iteration. apply runs_try_except; [apply _| |intros e].
  - apply runs_bind; [apply _| |intros [id|]]; [| |apply runs_ret, _].
    + intros w r w' H. apply redis_brpop_inv in H as (_ & Hk & _).
      by apply heirs_same.
    + apply runs_bind; [apply _|apply act_heirs, shutdown_is_set_act|intros [|]];
        [apply runs_ret, _|apply process_job_heirs].
  - eapply runs_weaken; [|apply main_handler_acts]. apply acts_none_heirs.
Qed.

Lemma presets_get_listed key tbl :
  key ∈ map fst tbl -> is_Some (presets_get key tbl).
Proof.
  induction tbl as [|[k p] tbl IH]; simpl; [by intros ?%elem_of_nil|].
  intros [->|Hin]%elem_of_cons; [by rewrite String.eqb_refl|].
  destruct (String.eqb k key); [done|auto].
Qed.

(** Closes the branches of [create_job] that leave the records alone. *)
Ltac stays :=
  match goal with
  | H : _ = (_, _), Hsame : forall u, _ -> well_styled u |- _ =>
      unfold raise in H; simplify_eq; apply Hsame; congruence
  end.

(** A submission leaves the records it found, and adds at most the record
    of a request whose style and aspect ratio passed the checks. *)
Lemma create_job_well_styled cfg uuid request w r w' :
  well_styled w -> create_job cfg uuid request w = (r, w') -> well_styled w'.
Proof.
  intros Hw H.
  assert (forall u, kv u = kv w -> well_styled u) as Hsame
    by (intros u Hu key j t Hj; rewrite Hu in Hj; eauto).
  unfold create_job in H. unfold bind in H at 1.
  destruct (redis_llen w) as [rl w0] eqn:El.
  apply redis_llen_inv in El as (_ & Hk0 & _ & _ & Hrl).
  destruct Hrl as [->|[m ->]]; [|stays].
  cbv beta iota in H.
  destruct (MAX_QUEUED_JOBS <=? length (job_queue w))%nat;
    [stays|].
  destruct (length (images request) <? MIN_IMAGES)%nat;
    [stays|].
  destruct (MAX_IMAGES <? length (images request))%nat;
    [stays|].
  unfold bind in H at 1.
  destruct (check_sizes (enumerate (images request)) 0 w0) as [rc w1] eqn:Ec.
  apply check_sizes_spec in Ec as [-> [[t ->]|[d ->]]]; [|stays].
  cbv beta iota in H.
  destruct (MAX_TOTAL_SIZE <? t); [stays|].
  destruct (str_in (req_style request) (map fst STYLE_PRESETS)) eqn:Est;
    cbn [negb] in H; [|stays].
  destruct (str_in (req_aspect_ratio request) ASPECT_RATIOS) eqn:Ear;
    cbn [negb] in H; [|stays].
  apply str_in_spec in Est, Ear. cbv zeta in H. unfold bind in H at 1.
  destruct (makedirs _ w0) as [rm w2] eqn:Em.
  apply makedirs_inv in Em as (Hs2 & _). apply same_store_same3 in Hs2.
  destruct Hs2 as (Hk2 & _).
  destruct rm as [[]|e]; [|stays].
  unfold bind in H at 1.
  destruct (try_except _ _ w2) as [rt w3] eqn:Et.
  apply staging_same3 in Et as (Hk3 & _).
  destruct rt as [paths|e]; [|stays].
  unfold bind in H at 1. unfold get_world in H at 1. cbv beta iota in H.
  unfold bind in H at 1.
  destruct (redis_setex _ _ _ w3) as [rs w4] eqn:Es.
  apply redis_setex_inv in Es as (_ & _ & [(m & -> & Hk4 & _)|(-> & Hk4 & _)]).
  { stays. }
  unfold bind in H.
  destruct (redis_lpush uuid w4) as [rp w5] eqn:Ep.
  apply redis_lpush_inv in Ep as (_ & Hk5 & _).
  assert (w' = w5) as -> by (destruct rp; unfold ret in H; by simplify_eq).
  intros key j ttl Hj. rewrite Hk5, Hk4, Hk3, Hk2, Hk0 in Hj.
  apply lookup_insert_Some in Hj as [[_ E]|[_ Hj]]; [|eauto].
  by simplify_eq.
Qed.

Lemma heirs_well_styled w w' : well_styled w -> heirs w w' -> well_styled w'.
Proof.
  intros Hw Hh key j' t' H'. destruct (Hh _ _ _ H') as (j & t & Hj & -> & ->).
  eauto.
Qed.

(** In every state the service reaches, each stored record names a style
    that has a preset and one of the three aspect ratios: the worker's
    fallback to the fridge preset is never taken for a stored job. *)
Theorem stored_records_have_known_style cfg w key j ttl :
  reachable cfg w -> kv w !! key = Some (j, ttl) ->
  (exists p, presets_get (style j) STYLE_PRESETS = Some p /\
             default fridge_preset (presets_get (style j) STYLE_PRESETS) = p) /\
  aspect_ratio j ∈ ASPECT_RATIOS.
Proof.
  intros Hr Hj.
  assert (well_styled w) as Hw.
  { clear Hj. induction Hr as [w (Hk & _)|w w' _ IH Hs].
    - intros k j0 t0 H0. by rewrite Hk in H0.
    - revert IH. destruct Hs as [uuid request w0 Hf|fuel env w0|w0|d w0 Hd|st fs sg w0];
        intros IH.
      + unfold exec. destruct (create_job cfg uuid request w0) as [r w1] eqn:E.
        eapply create_job_well_styled; eauto.
      + eapply heirs_well_styled; [exact IH|].
        apply runs_exec; first [apply _|apply main_loop_heirs].
      + eapply heirs_well_styled; [exact IH|]. apply acts_none_heirs.
        apply runs_exec; first [apply _|apply cleanup_worker_iteration_acts].
      + eapply heirs_well_styled; [exact IH|]. apply act_none_heirs, tick_act.
      + eapply heirs_well_styled; [exact IH|]. by apply heirs_same. }
  destruct (Hw _ _ _ Hj) as [Hs Ha]. split; [|done].
  destruct (presets_get_listed _ _ Hs) as [p Hp]. exists p. by rewrite Hp.
Qed.


(** ** Polling a completed job (main.py, get_job_status) *)

(** A pipeline that returns has stored the artifact; its last update found
    no record and wrote nothing, or left the record [completed] with the
    url of the artifact and its expiry time. *)
Lemma pipeline_ok_completed cfg env job_id0 job w w' :
  pipeline cfg env job_id0 job w = (Ok tt, w') ->
  let key := ("job:" ++ job_id0)%string in
  exists bytes w7,
    output_get (job_id0 ++ ".png")%string (output w')
    = Some {| out_bytes := bytes; out_mtime := clock w' |} /\
    acts (Wp key) w w7 /\
    (status_log w' = status_log w7 \/
     exists j, kv w' !! key = Some
       (job_update
          [("image_url", Some (API_BASE_URL cfg ++ "/output/" ++ job_id0 ++ ".png")%string);
           ("expires_at",
            Some (env_isoformat env (clock w' + IMAGE_EXPIRY_MINUTES cfg * 60)));
           ("status_detail", None)]
          (job_set_status "completed" j), None)).
Proof.
  intros H key. unfold pipeline in H. unfold bind in H at 1.
  destruct (optimize_loop env job_id0 _ _ [] w) as [[opts|e] w1] eqn:E1; [|done].
  apply optimize_loop_acts in E1. fold key in E1.
  unfold bind in H at 1.
  destruct (update_job_status job_id0 "processing" _ w1) as [[[]|e] w2] eqn:E2; [|done].
  apply update_processing_acts in E2. fold key in E2.
  unfold bind in H at 1.
  destruct (upload_loop env job_id0 _ _ [] w2) as [[urls|e] w3] eqn:E3; [|done].
  apply upload_loop_acts in E3. fold key in E3.
  unfold bind in H at 1.
  destruct (update_job_status job_id0 "processing" _ w3) as [[[]|e] w4] eqn:E4; [|done].
  apply update_processing_acts in E4. fold key in E4.
  unfold bind in H at 1.
  destruct (fal_subscribe env _ w4) as [[[|url imgs]|e] w5] eqn:E5; [done| |done].
  apply (fal_subscribe_act (Wp key)) in E5.
  unfold bind in H at 1.
  destruct (update_job_status job_id0 "processing" _ w5) as [[[]|e] w6] eqn:E6; [|done].
  apply update_processing_acts in E6. fold key in E6.
  unfold bind in H at 1. unfold lift in H at 1.
  destruct (env_http_get env url) as [bytes|e] eqn:Eh; [|done].
  cbv beta iota in H. unfold bind in H at 1.
  destruct (write_output _ bytes w6) as [[[]|e] w7] eqn:Ew; [|done].
  pose proof (write_output_act (Wp key) _ _ _ _ _ Ew) as E7.
  apply write_output_inv in Ew
    as (_ & _ & _ & _ & Hc7 & [(m & ? & _)|[_ Ho7]]); [done|].
  unfold bind in H. unfold get_world in H. cbv beta iota in H.
  apply update_job_status_inv in H as ((_ & Ho & Hc & _) & _ & Hu).
  fold key in Hu. exists bytes, w7. split; [|split].
  - by rewrite Ho, Ho7, output_get_put, Hc, Hc7.
  - etrans; [exact E1|]. etrans; [exact E2|]. etrans; [exact E3|].
    etrans; [exact E4|]. etrans; [by apply act_acts|].
    etrans; [exact E6|]. by apply act_acts.
  - destruct Hu as [(Hl & _)|(j & t & _ & _ & Hk & _)]; [by left|right].
    exists j. by rewrite Hk, lookup_insert_eq, Hc.
Qed.

(** The record a client polls after a job was written [completed]: it
    carries the status, no error, the url of the artifact and an expiry
    time, which is the expiry period after a clock reading not earlier than
    the modification time of the artifact; the artifact named by the url is
    in the output directory. *)
Theorem completed_job_poll cfg env job_id0 w r w' l :
  process_job cfg env job_id0 w = (r, w') ->
  status_log w' = status_log w ++ l ->
  (("job:" ++ job_id0)%string, "completed"%string) ∈ l ->
  store_serves 1 w' ->
  exists js f,
    outcome (get_job_status job_id0) w' = Ok js /\
    js_status js = "completed"%string /\
    js_status_detail js = None /\ js_error js = None /\
    js_image_url js = Some (API_BASE_URL cfg ++ "/output/" ++ job_id0 ++ ".png")%string /\
    output_get (job_id0 ++ ".png")%string (output w') = Some f /\
    exists now, out_mtime f <= now /\
      js_expires_at js
      = Some (env_isoformat env (now + IMAGE_EXPIRY_MINUTES cfg * 60)).
Proof.
  intros H Hlog Hin Hs. set (key := ("job:" ++ job_id0)%string) in *.
  assert (forall u u', acts (Wp key) u u' ->
            exists l', status_log u' = status_log u ++ l' /\
                       (key, "completed"%string) ∉ l') as Hno.
  { intros u u' Ha. apply acts_log in Ha as (l0 & Hl0 & Hall).
    exists l0. split; [done|]. intros Hc.
    rewrite Forall_forall in Hall. apply Hall in Hc as [_ Hc]. done. }
  unfold process_job in H. unfold bind in H at 1. fold key in H.
  destruct (redis_get key w) as [rg w0] eqn:Eg.
  apply redis_get_inv in Eg as (_ & _ & Hl0 & _).
  assert (forall u, status_log u = status_log w0 -> u = w' -> False) as Hstop.
  { intros u Hu ->. rewrite Hu, Hl0 in Hlog.
    rewrite <- (app_nil_r (status_log w)) in Hlog at 1.
    apply app_inv_head in Hlog. subst l. by apply elem_of_nil in Hin. }
  destruct rg as [[job|]|e];
    [|unfold ret in H; simplify_eq; by destruct (Hstop w' eq_refl eq_refl)
     |simplify_eq; by destruct (Hstop w' eq_refl eq_refl)].
  clear Hstop. unfold bind in H.
  destruct (update_job_status job_id0 "processing" _ w0) as [r1 w1] eqn:E1.
  pose proof (update_processing_acts _ _ _ _ _ E1) as Ha1. fold key in Ha1.
  destruct r1 as [[]|e].
  2:{ simplify_eq. exfalso. destruct (Hno _ _ Ha1) as (l' & Hl' & Hc).
      rewrite Hl', Hl0 in Hlog. apply app_inv_head in Hlog. by subst. }
  unfold try_finally in H.
  destruct (try_except (pipeline cfg env job_id0 job) _ w1) as [r2 w2] eqn:E2.
  assert (status_log w' = status_log w2 /\ output w' = output w2 /\
          kv w' = kv w2 /\ clock w' = clock w2) as (Hl2 & Ho2 & Hk2 & Hc2).
  { destruct (String.eqb (image_dir job) "").
    - unfold ret in H. by simplify_eq.
    - rewrite rmtree_inv in H. by simplify_eq. }
  clear H. unfold try_except in E2.
  destruct (pipeline cfg env job_id0 job w1) as [rp wp] eqn:Ep.
  destruct rp as [[]|e].
  - simplify_eq.
    apply pipeline_ok_completed in Ep as (bytes & w7 & Hout & Ha7 & Hfin).
    fold key in Ha7, Hfin.
    destruct Hfin as [Hl7|(j & Hj)].
    { exfalso. assert (acts (Wp key) w0 w7) as Ha by (by etrans).
      destruct (Hno _ _ Ha) as (l' & Hl' & Hc).
      rewrite Hl2, Hl7, Hl', Hl0 in Hlog. apply app_inv_head in Hlog. by subst. }
    pose proof (redis_get_served key _ Hs) as Hg.
    unfold outcome in *. unfold get_job_status, bind. fold key.
    destruct (redis_get key w') as [rg wg]. simpl in Hg. subst rg.
    rewrite Hk2, Hj. simpl. eexists _, _. split; [reflexivity|]. simpl.
    rewrite Ho2, Hout. repeat (split; [done|]).
    exists (clock w2). simpl. split; [lia|done].
  - exfalso. pose proof (pipeline_runs2 _ _ _ _ _ _ _ Ep) as Hp. fold key in Hp.
    simpl in Hp. assert (acts (Wp key) w0 wp) as Ha by (by etrans).
    destruct (Hno _ _ Ha) as (l' & Hl' & Hc).
    apply update_job_status_inv in E2
      as (_ & _ & [(Hlf & _)|(j & t & _ & _ & _ & Hlf)]); fold key in Hlf.
    + rewrite Hl2, Hlf, Hl', Hl0 in Hlog. apply app_inv_head in Hlog. by subst.
    + rewrite Hl2, Hlf, Hl', Hl0, <- app_assoc in Hlog.
      apply app_inv_head in Hlog. subst l.
      apply elem_of_app in Hin as [Hin|Hin]; [done|].
      apply list_elem_of_singleton in Hin. by simplify_eq.
Qed.


(** ** A worker left alone drains the queue (worker.py, main) *)

#[local] Instance steady_preorder : PreOrder steady.
Proof.
  split; [done|].
  intros w1 w2 w3 (Ht & Hs & Hf & Hq) (Ht' & Hs' & Hf' & Hq').
  split; [auto|]. split; [congruence|]. split; congruence.
Qed.

(** Closes a footprint goal once the command is evaluated. *)
Ltac steady_cmd :=
  simplify_eq/=; unfold steady; simpl;
  repeat match goal with E : store_tape _ = _ |- _ => rewrite E; clear E end;
  done.

Lemma redis_get_steady key : runs steady (redis_get key).
Proof.
  intros w r w' H.
  unfold redis_get, redis_key_cmd, bind, next_store_event, raise, modify in H.
  destruct (store_tape w) as [|[] tape] eqn:Et; steady_cmd.
Qed.

Lemma redis_set_steady key job : runs steady (redis_set key job).
Proof.
  intros w r w' H.
  unfold redis_set, redis_key_cmd, bind, next_store_event, raise, modify in H.
  destruct (store_tape w) as [|[] tape] eqn:Et; steady_cmd.
Qed.

Lemma update_job_status_steady job_id0 st extra :
  runs steady (update_job_status job_id0 st extra).
Proof.
  unfold update_job_status.
  apply runs_bind; [apply _|apply redis_get_steady|intros [job|]];
    [apply redis_set_steady|apply runs_ret, _].
Qed.

Lemma same_both_steady w w' : same_store w w' -> same_fs w w' -> steady w w'.
Proof.
  intros (_ & Hq & _ & Ht) (_ & _ & _ & Hf & _ & _ & _ & Hs).
  split; [congruence|done].
Qed.

Lemma fs_cmd_steady {A} (run : M A) : runs steady run -> runs steady (fs_cmd run).
Proof.
  intros Hr w r w' H. unfold fs_cmd, bind, next_fs_fault, raise in H.
  destruct (fs_tape w) as [|[] tape]; [by apply Hr in H|steady_cmd|].
  apply Hr in H. etrans; [|exact H]. steady_cmd.
Qed.

Lemma read_file_steady p : runs steady (read_file p).
Proof.
  apply fs_cmd_steady. intros w r w' H.
  destruct (scratch w !! p.1) as [files|]; [|steady_cmd].
  destruct (files !! p.2); steady_cmd.
Qed.

Lemma write_output_steady name data : runs steady (write_output name data).
Proof. apply fs_cmd_steady. intros w r w' H. unfold modify in H. steady_cmd. Qed.

Lemma upload_to_fal_steady env bytes : runs steady (upload_to_fal env bytes).
Proof.
  intros w r w' H. unfold upload_to_fal, bind, get_world, lift, modify, ret in H.
  destruct (env_upload env _ bytes); steady_cmd.
Qed.

Lemma fal_subscribe_steady env args : runs steady (fal_subscribe env args).
Proof.
  intros w r w' H. unfold fal_subscribe, bind, lift, modify in H. steady_cmd.
Qed.

Lemma optimize_loop_steady env job_id0 n paths acc :
  runs steady (optimize_loop env job_id0 n paths acc).
Proof.
  revert acc. induction paths as [|[i p] paths IH]; intros acc; simpl.
  - apply runs_ret, _.
  - apply runs_bind; [apply _|apply update_job_status_steady|intros _].
    apply runs_bind; [apply _|apply read_file_steady|intros data_url].
    apply runs_bind; [apply _|apply runs_lift, _|intros raw].
    apply runs_bind; [apply _|apply runs_lift, _|intros opt]. apply IH.
Qed.

Lemma upload_loop_steady env job_id0 n imgs acc :
  runs steady (upload_loop env job_id0 n imgs acc).
Proof.
  revert acc. induction imgs as [|[i b] imgs IH]; intros acc; simpl.
  - apply runs_ret, _.
  - apply runs_bind; [apply _|apply update_job_status_steady|intros _].
    apply runs_bind; [apply _|apply upload_to_fal_steady|intros url]. apply IH.
Qed.

Lemma process_job_steady cfg env job_id0 : runs steady (process_job cfg env job_id0).
Proof.
  unfold process_job.
  apply runs_bind; [apply _|apply redis_get_steady|intros [job|]];
    [|apply runs_ret, _].
  apply runs_bind; [apply _|apply update_job_status_steady|intros _].
  apply runs_try_finally; [apply _| |].
  2:{ destruct (String.eqb (image_dir job) ""); [apply runs_ret, _|].
      intros w r w' H. rewrite rmtree_inv in H. steady_cmd. }
  apply runs_try_except; [apply _| |intros e; apply update_job_status_steady].
  unfold pipeline.
  apply runs_bind; [apply _|apply optimize_loop_steady|intros opts].
  apply runs_bind; [apply _|apply update_job_status_steady|intros _].
  apply runs_bind; [apply _|apply upload_loop_steady|intros urls].
  apply runs_bind; [apply _|apply update_job_status_steady|intros _].
  apply runs_bind; [apply _|apply fal_subscribe_steady|];
    intros [|result_url imgs]; [apply runs_raise, _|].
  apply runs_bind; [apply _|apply update_job_status_steady|intros _].
  apply runs_bind; [apply _|apply runs_lift, _|intros bytes].
  apply runs_bind; [apply _|apply write_output_steady|intros _].
  apply runs_bind; [apply _|apply runs_get_world, _|intros w0].
  apply update_job_status_steady.
Qed.

(** The flag read by a worker nobody signals. *)
Lemma shutdown_is_set_unsignalled w :
  signal_tape w = [] -> shutdown_is_set w = (Ok (shutdown w), w).
Proof. intros Hs. unfold shutdown_is_set. by rewrite Hs. Qed.

Lemma main_iteration_pops cfg env w r w' :
  store_tape w = [] -> signal_tape w = [] -> shutdown w = false ->
  main_iteration cfg env w = (r, w') ->
  store_tape w' = [] /\ signal_tape w' = [] /\ shutdown w' = false /\
  job_queue w' = removelast (job_queue w).
Proof.
  intros Ht Hs Hf H. unfold main_iteration, try_except in H.
  unfold bind in H at 1.
  unfold redis_brpop, redis_list_cmd, bind, next_store_event in H.
  rewrite Ht in H. cbv beta iota in H.
  destruct (last (job_queue w)) as [id|] eqn:El.
  2:{ apply last_None in El. unfold ret in H. simplify_eq. by rewrite El. }
  set (w1 := set_job_queue (@removelast string) w) in *.
  assert (store_tape w1 = [] /\ signal_tape w1 = [] /\ shutdown w1 = false /\
          job_queue w1 = removelast (job_queue w)) as (Ht1 & Hs1 & Hf1 & Hq1)
    by (by destruct w).
  rewrite (shutdown_is_set_unsignalled w1 Hs1), Hf1 in H.
  destruct (process_job cfg env id w1) as [rp w2] eqn:Ep.
  apply process_job_steady in Ep as (Ht2 & Hs2 & Hf2 & Hq2).
  rewrite Hs1 in Hs2. rewrite Hf1 in Hf2. rewrite Hq1 in Hq2.
  specialize (Ht2 Ht1).
  destruct rp as [[]|e]; [by simplify_eq|].
  unfold bind in H. rewrite (shutdown_is_set_unsignalled w2 Hs2), Hf2 in H.
  assert (w' = tick 5 w2 \/ w' = tick 1 w2) as [-> | ->]
    by (destruct e; unfold sleep, modify in H; simplify_eq; auto).
  - by destruct w2.
  - by destruct w2.
Qed.

(** With Redis reachable and no signal, every turn of the loop takes one
    id off the queue, whatever becomes of the job: after as many turns as
    there are ids waiting, the queue is empty. *)
Theorem main_loop_drains_queue cfg env fuel w :
  store_tape w = [] -> signal_tape w = [] -> shutdown w = false ->
  (length (job_queue w) <= fuel)%nat ->
  job_queue (exec (main_loop cfg fuel env) w) = [].
Proof.
  revert w. induction fuel as [|fuel IH]; intros w Ht Hs Hf Hlen.
  - unfold exec. simpl. destruct (job_queue w); [done|simpl in Hlen; lia].
  - unfold exec in *. cbn [main_loop]. unfold bind.
    rewrite (shutdown_is_set_unsignalled w Hs), Hf.
    destruct (main_iteration cfg env w) as [r w1] eqn:Ei.
    pose proof (main_iteration_returns cfg env w) as Hr. unfold outcome in Hr.
    rewrite Ei in Hr. simpl in Hr. subst r.
    apply main_iteration_pops in Ei as (Ht1 & Hs1 & Hf1 & Hq1); [|done..].
    apply IH; [done..|]. rewrite Hq1.
    destruct (job_queue w) as [|x q] using rev_ind; [simpl; lia|].
    rewrite removelast_last. rewrite length_app in Hlen. simpl in Hlen. lia.
Qed.


(** ** Instances *)


Lemma C6_rejected_submission_writes_nothing_witness :
  let m := create_job default_settings "id2" bad_style_request in
  (exists e, outcome m world_submitted = Raise e /\ validation_error e) /\
  scratch (exec m world_submitted) = scratch world_submitted /\
  fs_tape (exec m world_submitted) = fs_tape world_submitted /\
  kv (exec m world_submitted) = kv world_submitted /\
  job_queue (exec m world_submitted) = job_queue world_submitted /\
  length (job_queue (exec m world_submitted)) = length (job_queue world_submitted) /\
  status_log (exec m world_submitted) = status_log world_submitted.
Proof.
  apply (C6_rejected_submission_writes_nothing default_settings "id2"
           bad_style_request world_submitted).
  right. left. reflexivity.
Defined.

(** C3 as stated fails here: the listing is [a.png; b.png], both artifacts
    are older than the window, Redis refuses the deletion of the record of
    [a], and the sweep returns with [b.png] and its record still there. *)
Lemma C3_later_artifact_survives_error :
  let cfg := default_settings in
  let w := world_two_expired in
  let w' := exec (cleanup_expired_images cfg) w in
  glob_png w = ["a.png"; "b.png"]%string /\
  IMAGE_EXPIRY_MINUTES cfg * 60 < clock w - 0 /\
  outcome (reap_file (clock w) (IMAGE_EXPIRY_MINUTES cfg * 60) "a.png") w
    = Raise (ConnectionError "Error connecting to Redis") /\
  outcome (cleanup_expired_images cfg) w = Ok tt /\
  output_get "b.png" (output w') = Some {| out_bytes := "B"; out_mtime := 0 |} /\
  fst <$> kv w' !! "job:b"%string = Some (completed_job "b").
Proof. vm_compute. repeat split; reflexivity. Qed.

Lemma C3_error_ends_sweep_quietly_witness :
  let w := world_two_expired in
  let w2 := exec (reap_file (clock w) (IMAGE_EXPIRY_MINUTES default_settings * 60) "a.png") w in
  cleanup_expired_images default_settings w = (Ok tt, w2) /\
  forall name, name ∈ ["b.png"%string] -> name ∉ @nil string -> name <> "a.png"%string ->
    output_get name (output w2) = output_get name (output w).
Proof.
  intros w w2.
  apply (C3_error_ends_sweep_quietly default_settings w [] "a.png" ["b.png"%string]
           w (ConnectionError "Error connecting to Redis") w2).
  - vm_compute. reflexivity.
  - reflexivity.
  - vm_compute. reflexivity.
Defined.



Lemma world_submitted_reachable : reachable default_settings world_submitted.
Proof.
  eapply reach_step; [apply (reach_init default_settings empty_world); by repeat split|].
  apply (step_create default_settings "id1" sample_request empty_world).
  reflexivity.
Defined.

Lemma C5_status_moves_forward_witness :
  (forall key, valid_history (history key world_processed) = true) /\
  (forall key j ttl, kv world_processed !! key = Some (j, ttl) ->
     is_status (status j) /\ last (history key world_processed) = Some (status j)).
Proof.
  apply (C5_status_moves_forward default_settings world_processed).
  eapply reach_step; [exact world_submitted_reachable|].
  apply (step_worker default_settings 1 sample_env world_submitted).
Defined.

Lemma C10_dropped_id_stays_queued_witness :
  let w := world_signal_pending in
  let w2 := exec shutdown_is_set (exec redis_brpop w) in
  main_iteration default_settings sample_env w = (Ok tt, w2) /\
  kv w2 = kv w /\ status_log w2 = status_log w /\ ("id1"%string ∉ job_queue w2) /\
  forall w', steps default_settings w2 w' ->
    ("id1"%string ∉ job_queue w') /\ history "job:id1" w' = ["queued"%string] /\
    forall j ttl, kv w' !! "job:id1"%string = Some (j, ttl) -> status j = "queued"%string.
Proof.
  intros w w2.
  apply (C10_dropped_id_stays_queued default_settings sample_env w "id1"
           (exec redis_brpop w) w2).
  - eapply reach_step; [exact world_submitted_reachable|].
    apply (step_env default_settings [] [] [true] world_submitted).
  - vm_compute. reflexivity.
  - vm_compute. reflexivity.
Defined.


(** The sample job does reach the synthesis call, with the two urls in the
    order of the two images. *)
Example sample_run_call :
  fal_image_urls <$> fal_calls world_processed
  = [["https://fal.media/files/0"; "https://fal.media/files/1"]%string] /\
  uploads world_processed
  = [("jpeg", "https://fal.media/files/0"); ("jpeg", "https://fal.media/files/1")]%string.
Proof. vm_compute. done. Qed.

Lemma allowed_ips_list_entries_witness :
  "5.6.7.8"%string ∈ allowed_ips_list sample_allowed_ips /\
  "5.6.7.8"%string <> ""%string /\ lstrip "5.6.7.8" = "5.6.7.8"%string /\
  rstrip "5.6.7.8" = "5.6.7.8"%string /\ str_has comma "5.6.7.8" = false.
Proof.
  assert ("5.6.7.8"%string ∈ allowed_ips_list sample_allowed_ips) as H
    by (vm_compute; repeat constructor).
  exact (conj H (allowed_ips_list_entries sample_allowed_ips "5.6.7.8" H)).
Defined.

Lemma dispatch_denies_only_unlisted_witness :
  let ips := allowed_ips_list sample_allowed_ips in
  "production"%string <> "local"%string /\ ips <> [] /\
  (get_client_ip proxied_request ∉ ips) /\
  403 = 403 /\
  "Access denied for IP: 9.9.9.9"%string
  = ("Access denied for IP: " ++ get_client_ip proxied_request)%string /\
  empty_world = empty_world.
Proof.
  intros ips.
  apply (dispatch_denies_only_unlisted "production" ips proxied_request
           sample_handler empty_world 403 "Access denied for IP: 9.9.9.9" empty_world).
  vm_compute. reflexivity.
Defined.

Lemma dispatch_passes_listed_witness :
  dispatch "production" (allowed_ips_list sample_allowed_ips) listed_request
    sample_handler empty_world
  = match sample_handler listed_request empty_world with
    | (Ok a, w') => (Ok (Passed a), w')
    | (Raise e, w') => (Raise e, w')
    end.
Proof.
  apply (dispatch_passes_listed "production" (allowed_ips_list sample_allowed_ips)
           listed_request sample_handler empty_world).
  right. right. vm_compute. repeat constructor.
Defined.

Lemma check_sizes_first_offender_witness :
  let imgs := ["a"; "b"]%string in
  empty_world = empty_world /\
  ((Forall (fun img => len img <= MAX_IMAGE_SIZE) imgs /\
    Ok 2 = Ok (total_len imgs)) \/
   (exists i img, imgs !! i = Some img /\ MAX_IMAGE_SIZE < len img /\
      Forall (fun x => len x <= MAX_IMAGE_SIZE) (take i imgs) /\
      Ok 2 = Raise (HTTPException 413 (too_large_detail i img)))).
Proof.
  intros imgs.
  apply (check_sizes_first_offender imgs empty_world (Ok 2) empty_world).
  vm_compute. reflexivity.
Defined.

Lemma create_job_accepted_effects_witness :
  let cfg := default_settings in
  let request := sample_request in
  let w := empty_world in
  let w1 := world_submitted in
  let key := "job:id1"%string in
  ("id1", "queued")%string = ("id1", "queued")%string /\
  ((length (job_queue w) < MAX_QUEUED_JOBS)%nat /\
   (MIN_IMAGES <= length (images request) <= MAX_IMAGES)%nat /\
   Forall (fun img => len img <= MAX_IMAGE_SIZE) (images request) /\
   total_len (images request) <= MAX_TOTAL_SIZE /\
   req_style request ∈ map fst STYLE_PRESETS /\
   req_aspect_ratio request ∈ ASPECT_RATIOS) /\
  job_queue w1 = "id1"%string :: job_queue w /\
  length (job_queue w1) = S (length (job_queue w)) /\
  (exists job, kv w1 !! key = Some (job, Some (IMAGE_EXPIRY_MINUTES cfg * 2 * 60)) /\
     job_id job = "id1"%string /\ status job = "queued"%string /\
     length (image_paths job) = length (images request) /\
     style job = req_style request /\ aspect_ratio job = req_aspect_ratio request) /\
  (forall k, k <> key -> kv w1 !! k = kv w !! k).
Proof.
  intros cfg request w w1 key.
  apply (create_job_accepted_effects cfg "id1" request w "id1" "queued" w1).
  vm_compute. reflexivity.
Defined.

Lemma create_job_pushes_only_stored_witness :
  job_queue world_submitted = job_queue empty_world \/
  (job_queue world_submitted = "id1"%string :: job_queue empty_world /\
   exists job ttl, kv world_submitted !! "job:id1"%string = Some (job, ttl) /\
                   status job = "queued"%string).
Proof.
  apply (create_job_pushes_only_stored default_settings "id1" sample_request
           empty_world (Ok ("id1", "queued")%string) world_submitted).
  vm_compute. reflexivity.
Defined.


Lemma submitted_job_poll_witness :
  outcome (get_job_status "id1") (tick 10 world_submitted)
  = if 10 <? IMAGE_EXPIRY_MINUTES default_settings * 2 * 60
    then Ok {| js_job_id := "id1"; js_status := "queued"; js_status_detail := None;
               js_image_url := None; js_expires_at := None; js_error := None |}
    else Raise (HTTPException 404 "Job not found").
Proof.
  apply (submitted_job_poll default_settings "id1" sample_request empty_world
           "id1" "queued" world_submitted 10).
  - vm_compute. reflexivity.
  - vm_compute. constructor.
Defined.



Lemma process_job_without_record_witness :
  let w := empty_world in
  let r := Ok tt in
  let w' := empty_world in
  (r = Ok tt \/ exists m, r = Raise (ConnectionError m)) /\
  kv w' !! "job:nope"%string = None /\
  status_log w' = status_log w /\ job_queue w' = job_queue w /\
  scratch w' = scratch w /\ output w' = output w /\
  uploads w' = uploads w /\ fal_calls w' = fal_calls w.
Proof.
  intros w r w'.
  apply (process_job_without_record default_settings sample_env "nope" w r w').
  - reflexivity.
  - vm_compute. reflexivity.
Defined.

Lemma completed_job_has_artifact_witness :
  let w' := exec (process_job default_settings sample_env "id1") world_submitted in
  Ok tt = Ok tt /\
  exists url bytes mtime, env_http_get sample_env url = Ok bytes /\
    output_get "id1.png" (output w')
    = Some {| out_bytes := bytes; out_mtime := mtime |}.
Proof.
  intros w'.
  apply (completed_job_has_artifact default_settings sample_env "id1"
           world_submitted (Ok tt) w' (drop 1 (status_log w'))).
  - vm_compute. reflexivity.
  - vm_compute. reflexivity.
  - vm_compute. repeat constructor.
Defined.

Lemma completed_job_poll_witness :
  let cfg := default_settings in
  let w' := exec (process_job cfg sample_env "id1") world_submitted in
  exists js f,
    outcome (get_job_status "id1") w' = Ok js /\
    js_status js = "completed"%string /\
    js_status_detail js = None /\ js_error js = None /\
    js_image_url js = Some (API_BASE_URL cfg ++ "/output/" ++ "id1" ++ ".png")%string /\
    output_get "id1.png" (output w') = Some f /\
    exists now, out_mtime f <= now /\
      js_expires_at js
      = Some (env_isoformat sample_env (now + IMAGE_EXPIRY_MINUTES cfg * 60)).
Proof.
  intros cfg w'.
  apply (completed_job_poll cfg sample_env "id1" world_submitted (Ok tt) w'
           (drop 1 (status_log w'))).
  - vm_compute. reflexivity.
  - vm_compute. reflexivity.
  - vm_compute. repeat constructor.
  - vm_compute. constructor.
Defined.

Lemma sweep_at_rest_reaps_exactly_expired_witness :
  let cfg := default_settings in
  let w := world_two_expired_at_rest in
  let w' := exec (cleanup_expired_images cfg) w in
  Ok tt = Ok tt /\
  (forall name, output_get name (output w') =
     match output_get name (output w) with
     | Some f => if is_png name && (IMAGE_EXPIRY_MINUTES cfg * 60 <? clock w - out_mtime f)
                 then None else Some f
     | None => None
     end) /\
  (forall job_id0 f,
     output_get (job_id0 ++ ".png")%string (output w) = Some f ->
     (IMAGE_EXPIRY_MINUTES cfg * 60 <? clock w - out_mtime f) = true ->
     kv w' !! ("job:" ++ job_id0)%string = None) /\
  (forall key,
     (forall name f, is_png name = true -> output_get name (output w) = Some f ->
        (IMAGE_EXPIRY_MINUTES cfg * 60 <? clock w - out_mtime f) = true ->
        key <> ("job:" ++ stem name)%string) ->
     kv w' !! key = kv w !! key).
Proof.
  intros cfg w w'.
  apply (sweep_at_rest_reaps_exactly_expired cfg w (Ok tt) w').
  - reflexivity.
  - reflexivity.
  - apply (bool_decide_unpack _). vm_compute. exact I.
  - reflexivity.
  - vm_compute. reflexivity.
Defined.

Lemma decode_base64_image_data_url_witness :
  decode_base64_image sample_env "data:image/png;base64,QUJD,x"
  = env_b64decode sample_env "QUJD,x".
Proof.
  apply (decode_base64_image_data_url sample_env "image/png;base64" "QUJD,x").
  reflexivity.
Defined.

Lemma decode_base64_image_no_comma_witness :
  decode_base64_image sample_env "data:QUJD"
  = Raise (Exception "not enough values to unpack (expected 2, got 1)").
Proof.
  apply (decode_base64_image_no_comma sample_env "data:QUJD"); reflexivity.
Defined.

Lemma flatten_RGBA_over_white_witness :
  exists r' g' b',
    pixels (flatten {| mode := "RGBA"; size := (1, 1); pixels := opaque_pixel;
                       palette := [] |}) !! 0%nat
    = Some (PxRGB r' g' b') /\
    10 <= r' <= 255 /\ 20 <= g' <= 255 /\ 30 <= b' <= 255 /\
    (255 = 255 -> (r', g', b') = (10, 20, 30)) /\
    (255 = 0 -> (r', g', b') = (255, 255, 255)).
Proof.
  apply (flatten_RGBA_over_white (1, 1) opaque_pixel [] 0 10 20 30 255);
    first [reflexivity|lia].
Defined.

Lemma resize_target_longest_edge_witness :
  let sz := (1070, 800) in
  (Z.max sz.1 sz.2 <= 768 -> resize_target sz = None) /\
  (768 < Z.max sz.1 sz.2 ->
   exists new_size, resize_target sz = Some new_size /\
     (sz.1 = Z.max sz.1 sz.2 -> 767 <= new_size.1 <= 768) /\
     (sz.2 = Z.max sz.1 sz.2 -> 767 <= new_size.2 <= 768)).
Proof.
  intros sz. apply (resize_target_longest_edge sz). simpl. lia.
Defined.

Lemma stored_records_have_known_style_witness :
  (exists p, presets_get (style submitted_job) STYLE_PRESETS = Some p /\
             default fridge_preset (presets_get (style submitted_job) STYLE_PRESETS) = p) /\
  aspect_ratio submitted_job ∈ ASPECT_RATIOS.
Proof.
  apply (stored_records_have_known_style default_settings world_submitted
           "job:id1" submitted_job (Some 3600)).
  - eapply reach_step;
      [apply (reach_init default_settings empty_world); by repeat split|].
    apply (step_create default_settings "id1" sample_request empty_world).
    reflexivity.
  - vm_compute. reflexivity.
Defined.

Lemma main_loop_drains_queue_witness :
  job_queue (exec (main_loop default_settings 1 sample_env) world_submitted) = [].
Proof.
  apply (main_loop_drains_queue default_settings sample_env 1 world_submitted).
  - reflexivity.
  - reflexivity.
  - reflexivity.
  - vm_compute. lia.
Defined.

